(** * Reactor-layout genetic search: a shallow embedding of [main.py]

    The program searches 3x3x3 grids of cell codes with a genetic algorithm.
    This development embeds its fitness evaluator, its genetic operators and
    its generational loop, and proves the properties stated about them.

    Modelling choices, all visible in the definitions below:
    - a numpy array is its row-major cell sequence ([list Z]); every array
      of the program has the fixed shape [SIZE], and its cells are codes
      between 0 and 17, far from any fixed-width overflow;
    - Python floats are exact reals ([R]); rounding is not modelled;
    - array objects live in a heap addressed by references, because
      [mutate] writes into the object it is given and populations hold
      references, several of which may name the same object;
    - [np.random] is a state threaded through the calls; its operations are
      an interface ([NumpyRandom]) constrained only by the ranges numpy
      documents;
    - [np.argsort] is an interface too ([NumpySort]): numpy's default sort
      is not stable, so only "a sorting permutation" is known of it;
    - the simulator ([reactor_metrics], [is_array_valid], [validate_array])
      is imported code, an interface ([Simulator]); a call that raises is
      a call that returns [None];
    - a raised exception aborts the computation ([Raise]); the worker pool
      of the evaluation step is run in population order. *)

From Stdlib Require Import Reals Lra ZArith Lia String.
From stdpp Require Import base list gmap sorting.

#[global] Instance Rlt_decision (x y : R) : Decision (x < y)%R := Rlt_dec x y.
#[global] Instance Rle_decision (x y : R) : Decision (x <= y)%R := Rle_dec x y.
#[global] Instance R_inhabited : Inhabited R := populate 0%R.

(** ** Exceptions and the state monad of the program *)

Inductive exn := ValueError | IndexError | SimulatorFailure.

Inductive result (A : Type) :=
| Ok (a : A)
| Raise (e : exn).
Arguments Ok {A} a.
Arguments Raise {A} e.

(** ** Arrays and the module constants *)

Abbreviation ndarray := (list Z) (only parsing).
Abbreviation ref := nat (only parsing).

Definition POPULATION_SIZE : nat := 256.
Definition SIZE : nat * nat * nat := (3, 3, 3)%nat.
Definition GENERATIONS : nat := 200.
Definition INITIAL_MUTATION_RATE : R := 0.1%R.
Definition MUTATION_DECAY_RATE : R := 0.99%R.
Definition ELITE_SIZE : nat := 10.
Definition TOURNAMENT_SIZE_BASE : R := 100%R.
Definition TOURNAMENT_SIZE_FACTOR : R := 0.99%R.
Definition REACTOR_DIMENSIONS : nat * nat * nat := SIZE.
Definition CURRENT_FUEL : string := "TBU"%string.

(** [np.prod(shape)] *)
Definition np_prod (shape : nat * nat * nat) : nat :=
  let '(a, b, c) := shape in a * b * c.

(** [np.zeros(SIZE)] *)
Definition np_zeros (shape : nat * nat * nat) : ndarray :=
  replicate (np_prod shape) 0%Z.

(** The row-major position that [np.flip(_, axis)] reads for position
    [idx] of an array of shape [shape]. *)
Definition flip_index (shape : nat * nat * nat) (axis idx : nat) : nat :=
  let '(a, b, c) := shape in
  let i := idx / (b * c) in
  let j := (idx / c) mod b in
  let k := idx mod c in
  match axis with
  | 0 => ((a - 1 - i) * b + j) * c + k
  | 1 => (i * b + (b - 1 - j)) * c + k
  | _ => (i * b + j) * c + (c - 1 - k)
  end.

(** [np.flip(array, axis=axis)] *)
Definition np_flip (axis : nat) (array : ndarray) : ndarray :=
  (fun idx => array !!! flip_index SIZE axis idx) <$> seq 0 (length array).

(** [np.abs(x - y).sum()] *)
Definition abs_diff_sum (x y : ndarray) : Z :=
  foldr Z.add 0%Z (zip_with (fun a b => Z.abs (a - b)) x y).

(** [np.unique(array)]: the sorted distinct cells. *)
Definition np_unique (array : ndarray) : list Z :=
  merge_sort Z.le (remove_dups array).

(** [np.argmax]: the first position of the maximum; raises on an empty
    sequence. *)
Fixpoint argmax_from (best_i : nat) (best : R) (i : nat) (l : list R) : nat :=
  match l with
  | [] => best_i
  | x :: l' =>
      if decide (best < x)%R then argmax_from i x (S i) l'
      else argmax_from best_i best (S i) l'
  end.

Definition np_argmax (l : list R) : result nat :=
  match l with
  | [] => Raise ValueError
  | x :: l' => Ok (argmax_from 0 x 1 l')
  end.

(** [a[indices]] with an array of indices: the items at those positions,
    in the order of [indices]; an index past the end raises. *)
Definition np_index (a : list R) (indices : list nat) : result (list R) :=
  if decide (Forall (fun i => i < length a) indices)
  then Ok ((fun i => a !!! i) <$> indices)
  else Raise IndexError.

(** Python's [l[-k:]]: the last [k] items, the whole list when [k] is 0
    or exceeds the length. *)
Definition slice_last {A} (k : nat) (l : list A) : list A :=
  if decide (k = 0) then l else drop (length l - k) l.

(** Python's [int(x)] on a float: truncation towards zero. *)
Definition float_to_int (x : R) : Z :=
  if decide (0 <= x)%R then Int_part x else (- Int_part (- x))%Z.

(** ** The imported interfaces *)

Record metrics := Metrics {
  energy_gen : R;
  heat_gen : R;
  heat_diff : R;
  efficiency : R
}.

(** [utils.metrics] and [core.nuclear_reactor]. [None] is a raised
    exception. *)
Class Simulator := {
  reactor_metrics : ndarray -> string -> option metrics;
  is_array_valid : ndarray -> bool;
  validate_array : ndarray -> option ndarray
}.

(** [np.random]: [rand n] draws [n] floats of [0, 1); [randint low high n]
    draws [n] integers of [low, high); [randint1] draws one;
    [choice n k] draws [k] distinct indices below [n] (the caller checks
    [k <= n], numpy raises otherwise). *)
Class NumpyRandom := {
  rng_state : Type;
  rand : nat -> rng_state -> list R * rng_state;
  randint : Z -> Z -> nat -> rng_state -> list Z * rng_state;
  randint1 : Z -> Z -> rng_state -> Z * rng_state;
  choice : nat -> nat -> rng_state -> list nat * rng_state;
  rand_length : forall n s, length (rand n s).1 = n;
  rand_range : forall n s, Forall (fun x => 0 <= x < 1)%R (rand n s).1;
  randint_length : forall low high n s, length (randint low high n s).1 = n;
  randint_range : forall low high n s,
    (low < high)%Z ->
    Forall (fun z => low <= z < high)%Z (randint low high n s).1;
  randint1_range : forall low high s,
    (low < high)%Z -> (low <= (randint1 low high s).1 < high)%Z;
  choice_length : forall n k s, k <= n -> length (choice n k s).1 = k;
  choice_NoDup : forall n k s, k <= n -> NoDup (choice n k s).1;
  choice_range : forall n k s,
    k <= n -> Forall (fun i => i < n) (choice n k s).1
}.

(** [np.argsort]: the indices of [l] in an order that sorts [l]; the order
    of equal items is not specified. *)
Class NumpySort := {
  argsort : list R -> list nat;
  argsort_perm : forall l, argsort l ≡ₚ seq 0 (length l);
  argsort_sorted : forall l i j a b,
    i <= j -> argsort l !! i = Some a -> argsort l !! j = Some b ->
    (l !!! a <= l !!! b)%R
}.

(** ** Pure parts of the evaluator *)

Definition calculate_heat_penalty (heat_diff : R) : R :=
  if decide (0 < heat_diff)%R then (-100 * heat_diff)%R
  else (heat_diff * -1)%R.

Definition calculate_symmetry_reward (array : ndarray) : R :=
  fold_left
    (fun sym_score axis =>
       let reversed_array := np_flip axis array in
       let diff := abs_diff_sum array reversed_array in
       (sym_score + exp (- IZR diff))%R)
    (seq 0 3) 0%R.

(** [np.prod(array.shape)] is the number of cells of the array. *)
Definition calculate_diversity_penalty (array : ndarray) : R :=
  let unique_elements := Z.of_nat (length (np_unique array)) in
  let max_possible_unique := Z.of_nat (length array) in
  (IZR (max_possible_unique - unique_elements) / IZR max_possible_unique)%R.

(** [individual[mask] = values]: the cells under a true mask take the
    values in order, the others stay. *)
Fixpoint boolean_assign (array : ndarray) (mask : list bool) (values : list Z)
  : ndarray :=
  match array, mask with
  | x :: array', true :: mask' =>
      match values with
      | v :: values' => v :: boolean_assign array' mask' values'
      | [] => x :: boolean_assign array' mask' []
      end
  | x :: array', false :: mask' => x :: boolean_assign array' mask' values
  | _, _ => array
  end.

(** [np.count_nonzero(mask)] *)
Definition count_nonzero (mask : list bool) : nat :=
  length (filter (fun b => b = true) mask).

(** [np.concatenate((parent1.flat[:point], parent2.flat[point:]))] *)
Definition cut_and_join (point : nat) (parent1 parent2 : ndarray) : ndarray :=
  take point parent1 ++ drop point parent2.

(** The tournament size of a generation (line 127). *)
Definition tournament_size_at (generation : nat) : nat :=
  Z.to_nat
    (Z.max
       (float_to_int (TOURNAMENT_SIZE_BASE * TOURNAMENT_SIZE_FACTOR ^ generation))
       2).

(** The mutation-rate adjustment at the end of a generation (lines 145-146). *)
Definition adjust_mutation_rate (mutation_rate : R) : R :=
  if decide (0.02 < mutation_rate)%R
  then (mutation_rate * MUTATION_DECAY_RATE)%R
  else mutation_rate.

(** ** The program *)

Section Program.
Context {Sim : Simulator} {Rng : NumpyRandom} {Srt : NumpySort}.

(** The mutable state: the array objects, the module-level
    [fitness_cache], the generator of [np.random], and a count of the calls
    made to [reactor_metrics]. *)
Record world := World {
  heap : list ndarray;
  fitness_cache : gmap (list Z) R;
  np_random : rng_state;
  metrics_calls : nat
}.

Definition M (A : Type) : Type := world -> result (A * world).

Definition ret {A} (a : A) : M A := fun w => Ok (a, w).

Definition bind {A B} (m : M A) (k : A -> M B) : M B :=
  fun w =>
    match m w with
    | Ok (a, w') => k a w'
    | Raise e => Raise e
    end.

Definition raise {A} (e : exn) : M A := fun _ => Raise e.

Definition lift {A} (r : result A) : M A :=
  fun w => match r with Ok a => Ok (a, w) | Raise e => Raise e end.

Notation "'let*' x ':=' m 'in' k" := (bind m (fun x => k))
  (at level 10, x name, m at level 100, k at level 200).
Notation "m ';;' k" := (bind m (fun _ => k))
  (at level 100, k at level 200, right associativity).

(** A new array object. *)
Definition alloc (a : ndarray) : M ref :=
  fun w =>
    Ok (length (heap w),
        World (heap w ++ [a]) (fitness_cache w) (np_random w) (metrics_calls w)).

(** The cells of an array object. *)
Definition deref (r : ref) : M ndarray :=
  fun w => Ok (heap w !!! r, w).

(** Overwriting the cells of an array object. *)
Definition store (r : ref) (a : ndarray) : M unit :=
  fun w =>
    Ok (tt,
        World (<[r := a]> (heap w)) (fitness_cache w) (np_random w)
          (metrics_calls w)).

(** One call into [np.random]. *)
Definition draw {A} (f : rng_state -> A * rng_state) : M A :=
  fun w =>
    let '(a, s) := f (np_random w) in
    Ok (a, World (heap w) (fitness_cache w) s (metrics_calls w)).

Definition cache_lookup (key : list Z) : M (option R) :=
  fun w => Ok (fitness_cache w !! key, w).

Definition cache_store (key : list Z) (v : R) : M unit :=
  fun w =>
    Ok (tt,
        World (heap w) (<[key := v]> (fitness_cache w)) (np_random w)
          (metrics_calls w)).

Definition call_reactor_metrics (array : ndarray) (fuel : string) : M metrics :=
  fun w =>
    match reactor_metrics array fuel with
    | Some m =>
        Ok (m,
            World (heap w) (fitness_cache w) (np_random w) (S (metrics_calls w)))
    | None => Raise SimulatorFailure
    end.

(** [np.random.choice(n, size=k, replace=False)] *)
Definition np_random_choice (n k : nat) : M (list nat) :=
  if decide (k <= n) then draw (choice n k) else raise ValueError.

(** [flat.reshape(shape)] *)
Definition reshape (flat : ndarray) (shape : nat * nat * nat) : M ndarray :=
  if decide (length flat = np_prod shape) then ret flat else raise ValueError.

Definition generate_array : M ref :=
  let* cells := draw (randint 0 18 (np_prod SIZE)) in
  alloc cells.

Definition initialize_population (size : nat) : M (list ref) :=
  let* population := alloc (np_zeros SIZE) in
  ret (replicate size population).

Definition fitness (individual : ref) (fuel : string) : M R :=
  let* array := deref individual in
  let key := array in
  let* cached := cache_lookup key in
  match cached with
  | Some v => ret v
  | None =>
      let* metrics := call_reactor_metrics array fuel in
      if negb (is_array_valid array) then
        cache_store key 0%R;;
        ret 0%R
      else
        let heat_penalty := calculate_heat_penalty (heat_diff metrics) in
        let fitness_score :=
          (0.9 * energy_gen metrics + 0.3 * heat_gen metrics + heat_penalty
           + 1.5 * (efficiency metrics / 100))%R in
        let symmetry_reward := calculate_symmetry_reward array in
        let fitness_score := (fitness_score + symmetry_reward * 2)%R in
        let diversity_penalty := calculate_diversity_penalty array in
        let fitness_score := (fitness_score - diversity_penalty * 5)%R in
        cache_store key fitness_score;;
        ret fitness_score
  end.

Definition tournament_selection (population : list ref) (fitnesses : list R)
    (tournament_size : nat) : M ref :=
  let* selected := np_random_choice (length population) tournament_size in
  let* scores := lift (np_index fitnesses selected) in
  let* best_index_in_selected := lift (np_argmax scores) in
  let best_index := selected !!! best_index_in_selected in
  ret (population !!! best_index).

Definition crossover (parent1 parent2 : ref) : M ref :=
  let* point := draw (randint1 1 (Z.of_nat (np_prod REACTOR_DIMENSIONS))) in
  let* flat1 := deref parent1 in
  let* flat2 := deref parent2 in
  let* child := reshape (cut_and_join (Z.to_nat point) flat1 flat2)
                  REACTOR_DIMENSIONS in
  alloc child.

Definition mutate (individual : ref) (mutation_rate : R) : M ref :=
  let* array := deref individual in
  let* draws := draw (rand (length array)) in
  let mask := (fun x => bool_decide (x < mutation_rate)%R) <$> draws in
  let* values := draw (randint 1 17 (count_nonzero mask)) in
  store individual (boolean_assign array mask values);;
  ret individual.

(** One pass of the breeding loop (lines 129-139): the child appended to
    the new population. *)
Definition breed_child (population : list ref) (fitnesses : list R)
    (tournament_size : nat) (mutation_rate : R) : M ref :=
  let* parent1 := tournament_selection population fitnesses tournament_size in
  let* parent2 := tournament_selection population fitnesses tournament_size in
  let* child := crossover parent1 parent2 in
  let* child := mutate child mutation_rate in
  let* cells := deref child in
  match validate_array cells with
  | Some _ => ret child
  | None => generate_array
  end.

Fixpoint breed (n : nat) (population : list ref) (fitnesses : list R)
    (tournament_size : nat) (mutation_rate : R) (new_population : list ref)
  : M (list ref) :=
  match n with
  | 0 => ret new_population
  | S n' =>
      let* child :=
        breed_child population fitnesses tournament_size mutation_rate in
      breed n' population fitnesses tournament_size mutation_rate
        (new_population ++ [child])
  end.

(** [list(executor.map(lambda ind: fitness(ind, CURRENT_FUEL), population))],
    in population order. *)
Fixpoint executor_map (population : list ref) : M (list R) :=
  match population with
  | [] => ret []
  | ind :: rest =>
      let* f := fitness ind CURRENT_FUEL in
      let* fs := executor_map rest in
      ret (f :: fs)
  end.

(** The variables that live across the generations. *)
Record ga_state := GaState {
  population : list ref;
  mutation_rate : R;
  fitnesses : list R
}.

(** The body of the loop over the generations (lines 116-150). *)
Definition generation_body (generation : nat) (st : ga_state) : M ga_state :=
  let* fitnesses := executor_map (population st) in
  let elite_indices := slice_last ELITE_SIZE (argsort fitnesses) in
  let elites := (fun i => population st !!! i) <$> elite_indices in
  let new_population := elites in
  let tournament_size := tournament_size_at generation in
  let* new_population :=
    breed (POPULATION_SIZE - ELITE_SIZE) (population st) fitnesses
      tournament_size (mutation_rate st) new_population in
  ret (GaState new_population (adjust_mutation_rate (mutation_rate st))
         fitnesses).

Fixpoint run_generations (generations : list nat) (st : ga_state)
  : M ga_state :=
  match generations with
  | [] => ret st
  | generation :: rest =>
      let* st' := generation_body generation st in
      run_generations rest st'
  end.

(** The selection of the answer after the loop (lines 153-157). *)
Definition best_solution (st : ga_state) : M (ref * R) :=
  let* best_index := lift (np_argmax (fitnesses st)) in
  let* cells := deref (population st !!! best_index) in
  if is_array_valid cells then
    ret (population st !!! best_index, fitnesses st !!! best_index)
  else
    let* fresh := generate_array in
    ret (fresh, 0%R).

Definition genetic_algorithm : M (ref * R) :=
  let* population := initialize_population POPULATION_SIZE in
  let* st :=
    run_generations (seq 0 GENERATIONS)
      (GaState population INITIAL_MUTATION_RATE []) in
  best_solution st.

End Program.

(** ** Facts about the array helpers *)

Lemma np_unique_length (array : ndarray) :
  length (np_unique array) = size (list_to_set array : gset Z).
Proof.
  unfold np_unique.
  rewrite (Permutation_length (merge_sort_Permutation Z.le (remove_dups array))).
  rewrite <- (size_list_to_set (C := gset Z) (remove_dups array))
    by apply NoDup_remove_dups.
  f_equal. apply set_eq. intros x.
  rewrite !elem_of_list_to_set. apply elem_of_remove_dups.
Qed.

Lemma np_unique_le_length (array : ndarray) :
  length (np_unique array) <= length array.
Proof.
  unfold np_unique.
  rewrite (Permutation_length (merge_sort_Permutation Z.le (remove_dups array))).
  apply submseteq_length, NoDup_submseteq; [apply NoDup_remove_dups |].
  intros x. apply elem_of_remove_dups.
Qed.

Lemma np_unique_alphabet (array : ndarray) (n : Z) :
  Forall (fun z => 0 <= z < n)%Z array ->
  length (np_unique array) <= Z.to_nat n.
Proof.
  intros Hcells. unfold np_unique.
  rewrite (Permutation_length (merge_sort_Permutation Z.le (remove_dups array))).
  rewrite <- (length_seqZ 0 n).
  apply submseteq_length, NoDup_submseteq; [apply NoDup_remove_dups |].
  intros x Hx. rewrite elem_of_remove_dups in Hx.
  rewrite Forall_forall in Hcells. apply elem_of_seqZ.
  specialize (Hcells x Hx). lia.
Qed.

Lemma np_unique_nonempty (array : ndarray) :
  array <> [] -> 1 <= length (np_unique array).
Proof.
  intros Hne. rewrite np_unique_length.
  destruct array as [|x array']; [done |].
  assert (x ∈ (list_to_set (x :: array') : gset Z)) as Hx.
  { apply elem_of_list_to_set. left. }
  destruct (decide (size (list_to_set (x :: array') : gset Z) = 0)) as [Hz|]; [| lia].
  apply size_empty_inv in Hz. apply Hz in Hx. by apply not_elem_of_empty in Hx.
Qed.

Lemma abs_diff_sum_diag (x : ndarray) : abs_diff_sum x x = 0%Z.
Proof.
  unfold abs_diff_sum. induction x as [|a x IH]; simpl; [done |].
  rewrite IH. lia.
Qed.

Lemma abs_diff_sum_nonneg (x y : ndarray) : (0 <= abs_diff_sum x y)%Z.
Proof.
  unfold abs_diff_sum. revert y.
  induction x as [|a x IH]; intros [|b y]; simpl; try lia.
  specialize (IH y). lia.
Qed.

Lemma calculate_symmetry_reward_eq (array : ndarray) :
  calculate_symmetry_reward array =
  (exp (- IZR (abs_diff_sum array (np_flip 0 array)))
   + exp (- IZR (abs_diff_sum array (np_flip 1 array)))
   + exp (- IZR (abs_diff_sum array (np_flip 2 array))))%R.
Proof. unfold calculate_symmetry_reward. simpl. lra. Qed.

Lemma calculate_diversity_penalty_eq (array : ndarray) :
  calculate_diversity_penalty array =
  ((INR (length array) - INR (size (list_to_set array : gset Z)))
   / INR (length array))%R.
Proof.
  unfold calculate_diversity_penalty.
  rewrite np_unique_length, minus_IZR, <- !INR_IZR_INZ. done.
Qed.

Lemma calculate_heat_penalty_pos (d : R) :
  (0 < d)%R -> calculate_heat_penalty d = (-100 * d)%R.
Proof. intros. unfold calculate_heat_penalty. case_decide; [done | lra]. Qed.

Lemma calculate_heat_penalty_nonpos (d : R) :
  (d <= 0)%R -> calculate_heat_penalty d = (- d)%R /\ (0 <= calculate_heat_penalty d)%R.
Proof. intros. unfold calculate_heat_penalty. case_decide; split; lra. Qed.

Lemma diversity_penalty_bounds (array : ndarray) :
  length array = np_prod SIZE ->
  Forall (fun z => 0 <= z <= 17)%Z array ->
  (1 / 3 <= calculate_diversity_penalty array < 1)%R.
Proof.
  intros Hlen Hcells. unfold calculate_diversity_penalty.
  assert (length (np_unique array) <= 18) as Hub.
  { apply (np_unique_alphabet array 18).
    eapply Forall_impl; [exact Hcells |]. simpl. intros; lia. }
  assert (1 <= length (np_unique array)) as Hlb.
  { apply np_unique_nonempty. intros ->. discriminate Hlen. }
  rewrite Hlen. change (Z.of_nat (np_prod SIZE)) with 27%Z.
  rewrite minus_IZR.
  apply inj_le, IZR_le in Hub, Hlb.
  change (IZR (Z.of_nat 18)) with 18%R in Hub.
  change (IZR (Z.of_nat 1)) with 1%R in Hlb.
  split; lra.
Qed.

(** ** Stub collaborators

    Concrete simulators, a scripted generator and a stable sort; they show
    that the interfaces are inhabited and give the closed examples below
    something to run on. *)

Definition grid_sum (array : ndarray) : Z := foldr Z.add 0%Z array.

Definition sum_metrics (array : ndarray) : metrics :=
  Metrics (IZR (grid_sum array)) 0 0 0.

Definition no_empty_cell (array : ndarray) : bool :=
  forallb (fun z => negb (z =? 0)%Z) array.

(** Every grid is valid; the energy is the sum of the cells. *)
Definition sum_simulator : Simulator :=
  {| reactor_metrics := fun array _ => Some (sum_metrics array);
     is_array_valid := fun _ => true;
     validate_array := fun array => Some array |}.

(** A grid is valid when it has no empty (0) cell; the metrics are
    computed for every grid. *)
Definition checking_simulator : Simulator :=
  {| reactor_metrics := fun array _ => Some (sum_metrics array);
     is_array_valid := no_empty_cell;
     validate_array :=
       fun array => if no_empty_cell array then Some array else None |}.

(** The same validity; the metrics computation raises on an invalid grid. *)
Definition strict_simulator : Simulator :=
  {| reactor_metrics :=
       fun array _ =>
         if no_empty_cell array then Some (sum_metrics array) else None;
     is_array_valid := no_empty_cell;
     validate_array :=
       fun array => if no_empty_cell array then Some array else None |}.

Definition unit_float (x : R) : R :=
  if decide (0 <= x)%R then if decide (x < 1)%R then x else 0%R else 0%R.

Lemma unit_float_range (x : R) : (0 <= unit_float x < 1)%R.
Proof. unfold unit_float. repeat case_decide; lra. Qed.

(** A generator driven by two scripts indexed by the number of [rand]
    calls made so far: [floats] gives the float repeated by [rand], [ints]
    the offset from [low] repeated by [randint]. [randint1] answers [low]
    and [choice n k] the [k] highest indices, highest first. *)
Definition scripted_random (floats : nat -> R) (ints : nat -> Z) : NumpyRandom.
Proof.
  refine
    {| rng_state := nat;
       rand := fun n s => (replicate n (unit_float (floats s)), S s);
       randint :=
         fun low high n s =>
           (replicate n (low + ints s `mod` (high - low))%Z, s);
       randint1 := fun low high s => (low, s);
       choice := fun n k s => (take k (reverse (seq 0 n)), s) |}.
  - intros n s. apply length_replicate.
  - intros n s. simpl. apply Forall_replicate, unit_float_range.
  - intros low high n s. apply length_replicate.
  - intros low high n s Hlt. simpl. apply Forall_replicate.
    pose proof (Z.mod_pos_bound (ints s) (high - low)). lia.
  - intros low high s Hlt. simpl. lia.
  - intros n k s Hk. simpl.
    rewrite length_take, length_reverse, length_seq. lia.
  - intros n k s Hk. simpl.
    apply (sublist_NoDup _ (reverse (seq 0 n))).
    + apply NoDup_ListNoDup. rewrite reverse_Permutation.
      apply NoDup_ListNoDup, NoDup_seq.
    + apply sublist_take.
  - intros n k s Hk. simpl. apply Forall_take, Forall_reverse, Forall_seq.
    intros j Hj. lia.
Defined.

(** Insertion of index [i] into a list of indices sorted by their keys,
    before the first index whose key is not smaller. *)
Fixpoint insert_index (l : list R) (i : nat) (sorted : list nat) : list nat :=
  match sorted with
  | [] => [i]
  | j :: rest =>
      if decide (l !!! i <= l !!! j)%R then i :: sorted
      else j :: insert_index l i rest
  end.

Definition insertion_argsort (l : list R) : list nat :=
  foldr (insert_index l) [] (seq 0 (length l)).

Lemma insert_index_perm (l : list R) (i : nat) (s : list nat) :
  insert_index l i s ≡ₚ i :: s.
Proof.
  induction s as [|j s IH]; simpl; [done |].
  case_decide; [done |]. rewrite IH. apply Permutation_swap.
Qed.

Lemma insert_index_sorted (l : list R) (i : nat) (s : list nat) :
  StronglySorted (fun a b => l !!! a <= l !!! b)%R s ->
  StronglySorted (fun a b => l !!! a <= l !!! b)%R (insert_index l i s).
Proof.
  induction 1 as [|j s Hs IH Hj]; simpl.
  - repeat constructor.
  - case_decide as Hij.
    + constructor; [by constructor |].
      constructor; [done |].
      eapply Forall_impl; [exact Hj |]. simpl. intros; lra.
    + constructor; [done |].
      rewrite insert_index_perm. constructor; [lra | done].
Qed.

Lemma StronglySorted_lookup {A} (Rel : relation A) (s : list A) i j a b :
  StronglySorted Rel s -> i < j ->
  s !! i = Some a -> s !! j = Some b -> Rel a b.
Proof.
  intros Hs. revert i j.
  induction Hs as [|x s Hs IH Hx]; intros i j Hij Ha Hb; [done |].
  destruct j as [|j]; [lia |]. destruct i as [|i]; simpl in *.
  - inversion Ha; subst. rewrite Forall_forall in Hx.
    apply Hx. eapply list_elem_of_lookup_2. exact Hb.
  - eapply (IH i j); [lia | done | done].
Qed.

Definition stable_sort : NumpySort.
Proof.
  refine {| argsort := insertion_argsort |}.
  - intros l. unfold insertion_argsort.
    induction (seq 0 (length l)) as [|i s IH]; simpl; [done |].
    rewrite insert_index_perm. by constructor.
  - intros l i j a b Hij Ha Hb.
    destruct (decide (i = j)) as [->|Hne].
    { rewrite Ha in Hb. inversion Hb. lra. }
    eapply (StronglySorted_lookup (fun a b => l !!! a <= l !!! b)%R
              (insertion_argsort l) i j a b); [| lia | done | done].
    unfold insertion_argsort.
    induction (seq 0 (length l)) as [|k s IH]; simpl; [constructor |].
    by apply insert_index_sorted.
Defined.

(** ** The fitness evaluator *)

Section Evaluator.
Context {Sim : Simulator} {Rng : NumpyRandom}.

(** A cache that holds 0 for the grids that fail the validity predicate:
    what [fitness] leaves behind. *)
Definition cache_sound (cache : gmap (list Z) R) : Prop :=
  forall key v, cache !! key = Some v -> is_array_valid key = false -> v = 0%R.

Lemma fitness_hit (w : world) individual fuel v :
  fitness_cache w !! (heap w !!! individual) = Some v ->
  fitness individual fuel w = Ok (v, w).
Proof. intros Hc. unfold fitness, bind, deref, cache_lookup. by rewrite Hc. Qed.

Lemma fitness_miss_raise (w : world) individual fuel :
  fitness_cache w !! (heap w !!! individual) = None ->
  reactor_metrics (heap w !!! individual) fuel = None ->
  fitness individual fuel w = Raise SimulatorFailure.
Proof.
  intros Hc Hm.
  unfold fitness, bind, deref, cache_lookup, call_reactor_metrics.
  by rewrite Hc, Hm.
Qed.

Lemma fitness_miss_invalid (w : world) individual fuel m :
  fitness_cache w !! (heap w !!! individual) = None ->
  reactor_metrics (heap w !!! individual) fuel = Some m ->
  is_array_valid (heap w !!! individual) = false ->
  fitness individual fuel w =
  Ok (0%R,
      World (heap w) (<[heap w !!! individual := 0%R]> (fitness_cache w))
        (np_random w) (S (metrics_calls w))).
Proof.
  intros Hc Hm Hv.
  unfold fitness, bind, deref, cache_lookup, call_reactor_metrics.
  rewrite Hc, Hm. simpl. by rewrite Hv.
Qed.

Lemma fitness_miss_valid (w : world) individual fuel m :
  fitness_cache w !! (heap w !!! individual) = None ->
  reactor_metrics (heap w !!! individual) fuel = Some m ->
  is_array_valid (heap w !!! individual) = true ->
  let array := heap w !!! individual in
  let score :=
    (0.9 * energy_gen m + 0.3 * heat_gen m
     + calculate_heat_penalty (heat_diff m) + 1.5 * (efficiency m / 100)
     + calculate_symmetry_reward array * 2
     - calculate_diversity_penalty array * 5)%R in
  fitness individual fuel w =
  Ok (score,
      World (heap w) (<[array := score]> (fitness_cache w)) (np_random w)
        (S (metrics_calls w))).
Proof.
  intros Hc Hm Hv.
  unfold fitness, bind, deref, cache_lookup, call_reactor_metrics.
  rewrite Hc, Hm. simpl. by rewrite Hv.
Qed.

(** What one evaluation does to the state, whatever its branch. *)
Lemma fitness_effect (w w' : world) individual fuel v :
  fitness individual fuel w = Ok (v, w') ->
  heap w' = heap w /\ np_random w' = np_random w /\
  fitness_cache w' !! (heap w !!! individual) = Some v /\
  (forall key x, fitness_cache w !! key = Some x ->
                 fitness_cache w' !! key = Some x) /\
  (forall key, key <> heap w !!! individual ->
               fitness_cache w' !! key = fitness_cache w !! key).
Proof.
  intros Hf.
  destruct (fitness_cache w !! (heap w !!! individual)) as [c|] eqn:Hc.
  - rewrite (fitness_hit _ _ _ _ Hc) in Hf. inversion Hf; subst. done.
  - destruct (reactor_metrics (heap w !!! individual) fuel) as [m|] eqn:Hm.
    2: { by rewrite (fitness_miss_raise _ _ _ Hc Hm) in Hf. }
    assert (forall s,
      Ok (s, World (heap w) (<[heap w !!! individual := s]> (fitness_cache w))
               (np_random w) (S (metrics_calls w))) = Ok (v, w') ->
      heap w' = heap w /\ np_random w' = np_random w /\
      fitness_cache w' !! (heap w !!! individual) = Some v /\
      (forall key x, fitness_cache w !! key = Some x ->
                     fitness_cache w' !! key = Some x) /\
      (forall key, key <> heap w !!! individual ->
                   fitness_cache w' !! key = fitness_cache w !! key)) as Hstep.
    { intros s Heq. inversion Heq; subst; simpl.
      split; [done |]. split; [done |].
      split; [apply lookup_insert_eq |]. split.
      - intros key x Hk. rewrite lookup_insert_ne; [done |]. congruence.
      - intros key Hk. by rewrite lookup_insert_ne. }
    destruct (is_array_valid (heap w !!! individual)) eqn:Hv.
    + rewrite (fitness_miss_valid _ _ _ _ Hc Hm Hv) in Hf. by apply Hstep in Hf.
    + rewrite (fitness_miss_invalid _ _ _ _ Hc Hm Hv) in Hf. by apply Hstep in Hf.
Qed.

Lemma fitness_cache_sound (w w' : world) individual fuel v :
  cache_sound (fitness_cache w) ->
  fitness individual fuel w = Ok (v, w') ->
  cache_sound (fitness_cache w').
Proof.
  intros Hs Hf key x Hk Hkv.
  destruct (decide (key = heap w !!! individual)) as [->|Hne].
  - destruct (fitness_cache w !! (heap w !!! individual)) as [c|] eqn:Hc.
    + rewrite (fitness_hit _ _ _ _ Hc) in Hf. inversion Hf; subst.
      eapply Hs; done.
    + destruct (reactor_metrics (heap w !!! individual) fuel) as [m|] eqn:Hm.
      2: { by rewrite (fitness_miss_raise _ _ _ Hc Hm) in Hf. }
      rewrite (fitness_miss_invalid _ _ _ _ Hc Hm Hkv) in Hf.
      inversion Hf; subst. simpl in Hk. rewrite lookup_insert_eq in Hk.
      by inversion Hk.
  - destruct (fitness_effect _ _ _ _ _ Hf) as (_ & _ & _ & _ & Hother).
    rewrite Hother in Hk by done. eapply Hs; done.
Qed.

End Evaluator.

(** ** Closed inputs for the examples *)

Definition fixed_random : NumpyRandom :=
  scripted_random (fun _ => 0%R) (fun _ => 0%Z).

(** The benchmark grid of the script (lines 171-182). *)
Definition best_cyb : ndarray :=
  [12; 1; 12; 12; 1; 12; 12; 1; 12;
   1; 2; 1; 1; 2; 1; 1; 2; 1;
   12; 1; 12; 12; 1; 12; 12; 1; 12]%Z.

(** A state with one array object and nothing cached. *)
Definition one_grid (Rng : NumpyRandom) (s : @rng_state Rng) (array : ndarray)
  : @world Rng :=
  World [array] ∅ s 0.

(** ** Claims about the evaluator *)

(** C2 (as amended). A grid that fails the validity predicate scores 0 and
    has 0 stored under its key whenever the call of [reactor_metrics]
    returns, whatever metrics it returns; a key cached by an earlier
    evaluation is answered from the cache, which holds 0 for it. *)
Theorem invalid_grid_scores_zero {Sim : Simulator} {Rng : NumpyRandom}
    (w : world) (individual : ref) (fuel : string) :
  let array := heap w !!! individual in
  is_array_valid array = false ->
  cache_sound (fitness_cache w) ->
  (fitness_cache w !! array = None -> reactor_metrics array fuel <> None) ->
  exists w',
    fitness individual fuel w = Ok (0%R, w') /\
    fitness_cache w' !! array = Some 0%R.
Proof.
  intros array Hv Hs Hm.
  destruct (fitness_cache w !! array) as [c|] eqn:Hc.
  - assert (c = 0%R) as -> by (eapply Hs; [exact Hc | exact Hv]).
    exists w. split; [by apply fitness_hit | exact Hc].
  - destruct (reactor_metrics array fuel) as [m|] eqn:Hr; [| by destruct Hm].
    eexists. split; [by apply (fitness_miss_invalid w individual fuel m) |].
    simpl. apply lookup_insert_eq.
Qed.

Lemma invalid_grid_scores_zero_witness :
  exists w',
    @fitness checking_simulator fixed_random 0 CURRENT_FUEL
      (one_grid fixed_random 0 (np_zeros SIZE)) = Ok (0%R, w').
Proof.
  destruct (@invalid_grid_scores_zero checking_simulator fixed_random
              (one_grid fixed_random 0 (np_zeros SIZE)) 0 CURRENT_FUEL)
    as [w' [Hf _]].
  - reflexivity.
  - intros key v Hk. simpl in Hk. by rewrite lookup_empty in Hk.
  - intros _. discriminate.
  - exists w'. exact Hf.
Defined.

(** C2, the claim as stated fails: when the metrics computation raises on
    an invalid grid, the evaluation raises too; no 0 is returned or
    stored. *)
Lemma invalid_grid_metrics_raise :
  @is_array_valid strict_simulator (np_zeros SIZE) = false /\
  @fitness strict_simulator fixed_random 0 CURRENT_FUEL
    (one_grid fixed_random 0 (np_zeros SIZE)) = Raise SimulatorFailure.
Proof.
  split; [reflexivity |].
  apply fitness_miss_raise; [apply lookup_empty | reflexivity].
Qed.

(** The words of the claim for a 3 x 3 x 3 grid held in row-major order,
    written without the program's array helpers: the cell at position
    (i, j, k), the position that mirrors it along an axis, and the L1
    distance of the grid to its mirror image, the sum over all positions
    of |cell - mirrored cell|. *)
Definition spec_positions : list (nat * nat * nat) :=
  i ← seq 0 3; j ← seq 0 3; k ← seq 0 3; [(i, j, k)].

Definition spec_cell (grid : list Z) (p : nat * nat * nat) : Z :=
  let '(i, j, k) := p in grid !!! (9 * i + 3 * j + k).

Definition spec_mirror (axis : nat) (p : nat * nat * nat) : nat * nat * nat :=
  let '(i, j, k) := p in
  match axis with
  | 0 => (2 - i, j, k)
  | 1 => (i, 2 - j, k)
  | _ => (i, j, 2 - k)
  end.

Definition spec_l1_to_mirror (axis : nat) (grid : list Z) : Z :=
  foldr Z.add 0%Z
    ((fun p => Z.abs (spec_cell grid p - spec_cell grid (spec_mirror axis p)))
       <$> spec_positions).

(** On a grid of the program's size, [np.abs(array - np.flip(array,
    axis)).sum()] is that distance. *)
Lemma abs_diff_sum_flip (axis : nat) (array : ndarray) :
  axis < 3 -> length array = np_prod SIZE ->
  abs_diff_sum array (np_flip axis array) = spec_l1_to_mirror axis array.
Proof.
  intros Haxis Hlen. change (np_prod SIZE) with 27 in Hlen.
  do 27 (destruct array as [|? array]; [discriminate Hlen |]).
  destruct array; [| discriminate Hlen]. clear Hlen.
  destruct axis as [|[|[|axis]]]; [| | | lia];
    cbv -[Z.add Z.abs Z.sub]; reflexivity.
Qed.

Lemma spec_l1_to_mirror_symmetric (axis : nat) (grid : list Z) :
  (forall p, p ∈ spec_positions ->
     spec_cell grid (spec_mirror axis p) = spec_cell grid p) ->
  spec_l1_to_mirror axis grid = 0%Z.
Proof.
  intros Hsym. unfold spec_l1_to_mirror.
  induction spec_positions as [|p ps IH]; [done |].
  cbn [fmap list_fmap foldr]. rewrite Hsym by by left.
  rewrite IH; [lia |]. intros q Hq. apply Hsym. by right.
Qed.

(** C3. A valid grid of the program's size that is not cached scores
    0.9*energy_gen + 0.3*heat_gen + heat_penalty + 1.5*(efficiency/100)
    + 2*symmetry_reward - 5*diversity_penalty, with the heat penalty
    -100*heat_diff for a positive heat_diff and -heat_diff (non-negative)
    otherwise, the symmetry reward the sum over the three axes of
    exp(-L1 distance between the grid and its mirror image along the
    axis), equal to 1 for an axis of exact mirror symmetry, and the
    diversity penalty (cells - distinct cell values) / cells. The L1
    distance is the sum over the 27 positions of the absolute difference
    between the cell and the cell at the mirrored position. *)
Theorem fitness_of_valid_grid {Sim : Simulator} {Rng : NumpyRandom}
    (w : world) (individual : ref) (fuel : string) (m : metrics) :
  let array := heap w !!! individual in
  length array = np_prod SIZE ->
  fitness_cache w !! array = None ->
  reactor_metrics array fuel = Some m ->
  is_array_valid array = true ->
  let heat_penalty :=
    if decide (0 < heat_diff m)%R then (-100 * heat_diff m)%R
    else (- heat_diff m)%R in
  let l1 := fun axis => IZR (spec_l1_to_mirror axis array) in
  let symmetry_reward := (exp (- l1 0%nat) + exp (- l1 1%nat) + exp (- l1 2%nat))%R in
  let total_cells := INR (length array) in
  let distinct := INR (size (list_to_set array : gset Z)) in
  let diversity_penalty := ((total_cells - distinct) / total_cells)%R in
  let score :=
    (0.9 * energy_gen m + 0.3 * heat_gen m + heat_penalty
     + 1.5 * (efficiency m / 100) + 2 * symmetry_reward
     - 5 * diversity_penalty)%R in
  (exists w',
     fitness individual fuel w = Ok (score, w') /\
     fitness_cache w' !! array = Some score) /\
  ((heat_diff m <= 0)%R -> (0 <= heat_penalty)%R) /\
  (forall axis,
     (forall p, p ∈ spec_positions ->
        spec_cell array (spec_mirror axis p) = spec_cell array p) ->
     exp (- l1 axis) = 1%R).
Proof.
  intros array Hlen Hc Hm Hv heat_penalty l1 symmetry_reward total_cells
    distinct diversity_penalty score.
  split; [| split].
  - pose proof (fitness_miss_valid w individual fuel m Hc Hm Hv) as Hf.
    cbv zeta in Hf. fold array in Hf.
    assert ((0.9 * energy_gen m + 0.3 * heat_gen m
             + calculate_heat_penalty (heat_diff m)
             + 1.5 * (efficiency m / 100)
             + calculate_symmetry_reward array * 2
             - calculate_diversity_penalty array * 5)%R = score) as Hscore.
    { rewrite calculate_symmetry_reward_eq, calculate_diversity_penalty_eq.
      rewrite !abs_diff_sum_flip by (done || lia).
      unfold score, symmetry_reward, diversity_penalty, total_cells, distinct,
        l1, heat_penalty, calculate_heat_penalty.
      case_decide; lra. }
    rewrite Hscore in Hf.
    eexists. split; [exact Hf |]. cbn [fitness_cache]. apply lookup_insert_eq.
  - intros Hd. unfold heat_penalty. case_decide; lra.
  - intros axis Hsym. unfold l1.
    rewrite (spec_l1_to_mirror_symmetric axis array Hsym).
    rewrite Ropp_0. apply exp_0.
Qed.

Lemma fitness_of_valid_grid_witness :
  exists v w',
    @fitness sum_simulator fixed_random 0 CURRENT_FUEL
      (one_grid fixed_random 0 best_cyb) = Ok (v, w').
Proof.
  destruct (@fitness_of_valid_grid sum_simulator fixed_random
              (one_grid fixed_random 0 best_cyb) 0 CURRENT_FUEL
              (sum_metrics best_cyb))
    as [[w' [Hf _]] _].
  - reflexivity.
  - apply lookup_empty.
  - reflexivity.
  - reflexivity.
  - eexists. exists w'. exact Hf.
Defined.

(** C7. Once an evaluation has returned, evaluating any grid with the same
    contents returns the same score and leaves the whole state as it is
    (the cache and the count of simulator calls included); and an
    evaluation keeps every entry the cache already had. *)
Theorem fitness_twice {Sim : Simulator} {Rng : NumpyRandom}
    (w w1 : world) (first second : ref) (fuel fuel' : string) (v : R) :
  fitness first fuel w = Ok (v, w1) ->
  heap w1 !!! second = heap w !!! first ->
  fitness second fuel' w1 = Ok (v, w1) /\
  (forall key x, fitness_cache w !! key = Some x ->
                 fitness_cache w1 !! key = Some x).
Proof.
  intros Hf Hsame.
  destruct (fitness_effect _ _ _ _ _ Hf) as (_ & _ & Hstored & Hkeep & _).
  split; [| exact Hkeep].
  apply fitness_hit. by rewrite Hsame.
Qed.

Lemma fitness_twice_witness :
  exists v w1,
    @fitness sum_simulator fixed_random 0 CURRENT_FUEL
      (one_grid fixed_random 0 best_cyb) = Ok (v, w1) /\
    @fitness sum_simulator fixed_random 0 CURRENT_FUEL w1 = Ok (v, w1) /\
    metrics_calls w1 = 1.
Proof.
  pose proof (@fitness_miss_valid sum_simulator fixed_random
                (one_grid fixed_random 0 best_cyb) 0 CURRENT_FUEL
                (sum_metrics best_cyb) (lookup_empty _) eq_refl eq_refl) as Hf.
  simpl in Hf.
  eexists. eexists. split; [exact Hf |]. split; [| reflexivity].
  exact (proj1 (@fitness_twice sum_simulator fixed_random _ _ 0 0
                  CURRENT_FUEL CURRENT_FUEL _ Hf eq_refl)).
Defined.

(** C10. A 3x3x3 grid over the codes 0..17 has a diversity penalty of at
    least (27 - 18)/27 = 1/3 and below 1, so that a scored grid loses at
    least 5/3 to it. *)
Theorem default_grid_diversity_penalty (array : ndarray) :
  length array = np_prod SIZE ->
  Forall (fun z => 0 <= z <= 17)%Z array ->
  (1 / 3 <= calculate_diversity_penalty array < 1)%R /\
  ((27 - 18) / 27 = 1 / 3)%R /\
  (forall (Sim : Simulator) (Rng : NumpyRandom) (w : world) individual fuel m,
     heap w !!! individual = array ->
     fitness_cache w !! array = None ->
     reactor_metrics array fuel = Some m ->
     is_array_valid array = true ->
     exists v w',
       fitness individual fuel w = Ok (v, w') /\
       (v <= 0.9 * energy_gen m + 0.3 * heat_gen m
             + calculate_heat_penalty (heat_diff m)
             + 1.5 * (efficiency m / 100)
             + 2 * calculate_symmetry_reward array - 5 * (1 / 3))%R).
Proof.
  intros Hlen Hcells.
  pose proof (diversity_penalty_bounds array Hlen Hcells) as Hb.
  split; [exact Hb |]. split; [lra |].
  intros Sim Rng w individual fuel m Harr Hc Hm Hv. subst array.
  eexists. eexists.
  split; [apply (fitness_miss_valid w individual fuel m Hc Hm Hv) |].
  simpl. lra.
Qed.

Lemma default_grid_diversity_penalty_witness :
  (1 / 3 <= calculate_diversity_penalty best_cyb < 1)%R.
Proof.
  apply (default_grid_diversity_penalty best_cyb).
  - reflexivity.
  - unfold best_cyb. repeat constructor; lia.
Defined.

(** ** The genetic operators *)

Lemma argmax_from_spec (l pre : list R) (bi : nat) (best : R) :
  pre !! bi = Some best ->
  (forall j x, pre !! j = Some x -> (x <= best)%R) ->
  (forall j x, j < bi -> pre !! j = Some x -> (x < best)%R) ->
  exists y,
    (pre ++ l) !! argmax_from bi best (length pre) l = Some y /\
    (forall j x, (pre ++ l) !! j = Some x -> (x <= y)%R) /\
    (forall j x, j < argmax_from bi best (length pre) l ->
                 (pre ++ l) !! j = Some x -> (x < y)%R).
Proof.
  revert pre bi best.
  induction l as [|x l IH]; intros pre bi best Hbi Hmax Hfirst; simpl.
  - exists best. rewrite app_nil_r. eauto.
  - replace (pre ++ x :: l) with ((pre ++ [x]) ++ l) by by rewrite <- app_assoc.
    replace (S (length pre)) with (length (pre ++ [x]))
      by (rewrite length_app; simpl; lia).
    assert (forall j z, (pre ++ [x]) !! j = Some z ->
              (j < length pre /\ pre !! j = Some z) \/
              (j = length pre /\ z = x)) as Hsplit.
    { intros j z Hj. apply lookup_app_Some in Hj as [Hj|[Hge Hj]].
      - left. split; [by eapply lookup_lt_Some | done].
      - right. apply list_lookup_singleton_Some in Hj as [Hj ->]. split; [lia | done]. }
    case_decide as Hlt.
    + apply IH.
      * rewrite lookup_app_r by lia. by rewrite Nat.sub_diag.
      * intros j z Hj. destruct (Hsplit j z Hj) as [[_ Hp]|[_ ->]]; [| lra].
        specialize (Hmax j z Hp). lra.
      * intros j z Hjlt Hj. destruct (Hsplit j z Hj) as [[_ Hp]|[-> _]]; [| lia].
        specialize (Hmax j z Hp). lra.
    + apply IH.
      * rewrite lookup_app_l; [done |]. by eapply lookup_lt_Some.
      * intros j z Hj. destruct (Hsplit j z Hj) as [[_ Hp]|[_ ->]]; [eauto | lra].
      * intros j z Hjlt Hj. destruct (Hsplit j z Hj) as [[_ Hp]|[-> _]]; [eauto |].
        apply lookup_lt_Some in Hbi. lia.
Qed.

(** [np.argmax] answers a position of the maximum, the first one. *)
Lemma np_argmax_spec (l : list R) :
  l <> [] ->
  exists b y,
    np_argmax l = Ok b /\ l !! b = Some y /\
    (forall j x, l !! j = Some x -> (x <= y)%R) /\
    (forall j x, j < b -> l !! j = Some x -> (x < y)%R).
Proof.
  destruct l as [|x l]; [done |]. intros _.
  destruct (argmax_from_spec l [x] 0 x) as (y & Hy & Hmax & Hfirst).
  - done.
  - intros j z Hj. apply list_lookup_singleton_Some in Hj as [_ ->]. lra.
  - intros j z Hj. lia.
  - exists (argmax_from 0 x 1 l), y. simpl in *. eauto.
Qed.

Lemma count_nonzero_cons (b : bool) (mask : list bool) :
  count_nonzero (b :: mask) =
  if b then S (count_nonzero mask) else count_nonzero mask.
Proof.
  unfold count_nonzero. destruct b.
  - by rewrite filter_cons_True.
  - by rewrite filter_cons_False.
Qed.

Lemma boolean_assign_length (array : ndarray) mask values :
  length (boolean_assign array mask values) = length array.
Proof.
  revert mask values.
  induction array as [|x array IH]; intros [|[] mask] values; simpl; try done.
  - destruct values; simpl; by rewrite IH.
  - by rewrite IH.
Qed.

(** Cell by cell: a cell under a false mask keeps its value, a cell under
    a true mask takes one of the values. *)
Lemma boolean_assign_cell (array : ndarray) mask values i old :
  length mask = length array ->
  length values = count_nonzero mask ->
  array !! i = Some old ->
  exists new,
    boolean_assign array mask values !! i = Some new /\
    (mask !! i = Some false -> new = old) /\
    (mask !! i = Some true -> new ∈ values).
Proof.
  revert mask values i.
  induction array as [|x array IH]; intros mask values i Hm Hv Hi; [done |].
  destruct mask as [|b mask]; [done |].
  rewrite count_nonzero_cons in Hv. simpl in Hm.
  destruct b.
  - destruct values as [|v values]; [done |]. simpl in Hv.
    destruct i as [|i]; simpl in *.
    + exists v. split; [done |]. split; [done |]. intros _. left.
    + destruct (IH mask values i) as (new & Hn & Hf & Ht); [lia | lia | done |].
      exists new. split; [done |]. split; [done |]. intros H. right. auto.
  - destruct i as [|i]; simpl in *.
    + exists x. inversion Hi. done.
    + apply IH; [lia | done | done].
Qed.

Lemma cut_and_join_length (point : nat) (parent1 parent2 : ndarray) :
  length parent1 = length parent2 ->
  length (cut_and_join point parent1 parent2) = length parent1.
Proof.
  intros Hlen. unfold cut_and_join.
  rewrite length_app, length_take, length_drop. lia.
Qed.

Lemma cut_and_join_whole (parent1 parent2 : ndarray) :
  length parent1 = length parent2 ->
  cut_and_join (length parent1) parent1 parent2 = parent1 /\
  cut_and_join 0 parent1 parent2 = parent2.
Proof.
  intros Hlen. unfold cut_and_join. split.
  - rewrite firstn_all, drop_ge by lia. apply app_nil_r.
  - by rewrite take_0, drop_0.
Qed.

Section Operators.
Context {Rng : NumpyRandom}.

Lemma tournament_selection_too_many (w : world) population fitnesses k :
  length population < k ->
  tournament_selection population fitnesses k w = Raise ValueError.
Proof.
  intros Hk. unfold tournament_selection, bind, np_random_choice.
  case_decide; [lia | done].
Qed.

Lemma np_index_in_range (a : list R) (indices : list nat) :
  Forall (fun i => i < length a) indices ->
  np_index a indices = Ok ((fun i => a !!! i) <$> indices).
Proof. intros Hall. unfold np_index. by rewrite decide_True. Qed.

Lemma np_index_out_of_range (a : list R) (indices : list nat) (i : nat) :
  i ∈ indices -> length a <= i -> np_index a indices = Raise IndexError.
Proof.
  intros Hi Hge. unfold np_index. rewrite decide_False; [done |].
  rewrite Forall_forall. intros Hall. specialize (Hall i Hi). lia.
Qed.

(** With [0 < k <= n] and every drawn index within the fitness vector, the
    draw is made and the answer is the member at the drawn index whose
    fitness comes first among the highest, in the order of the draw. *)
Lemma tournament_selection_drawn (w : world) population fitnesses k :
  0 < k <= length population ->
  let selected := (choice (length population) k (np_random w)).1 in
  let w' :=
    World (heap w) (fitness_cache w)
      (choice (length population) k (np_random w)).2 (metrics_calls w) in
  Forall (fun i => i < length fitnesses) selected ->
  exists b best_index,
    tournament_selection population fitnesses k w
      = Ok (population !!! best_index, w') /\
    selected !! b = Some best_index /\
    best_index < length population /\
    (forall j i, selected !! j = Some i ->
                 (fitnesses !!! i <= fitnesses !!! best_index)%R) /\
    (forall j i, j < b -> selected !! j = Some i ->
                 (fitnesses !!! i < fitnesses !!! best_index)%R).
Proof.
  intros [Hk0 Hkn] selected w' Hcovered.
  pose proof (choice_length (length population) k (np_random w) Hkn) as Hlen.
  pose proof (choice_range (length population) k (np_random w) Hkn) as Hrange.
  fold selected in Hlen, Hrange.
  destruct (np_argmax_spec ((fun i => fitnesses !!! i) <$> selected))
    as (b & y & Hb & Hy & Hmax & Hfirst).
  { intros Hnil. apply (f_equal length) in Hnil.
    rewrite length_fmap in Hnil. simpl in Hnil. lia. }
  rewrite list_lookup_fmap in Hy.
  destruct (selected !! b) as [best_index|] eqn:Hsel; [| done].
  simpl in Hy. inversion Hy as [Hyeq]. rewrite <- Hyeq in Hmax, Hfirst.
  exists b, best_index. split; [| split; [done |]; split; [| split]].
  - unfold tournament_selection, bind, np_random_choice, draw, lift, ret.
    case_decide; [| lia].
    destruct (choice (length population) k (np_random w)) as [sel s] eqn:Hch.
    simpl in selected. subst selected.
    rewrite (np_index_in_range _ _ Hcovered), Hb.
    unfold w'. simpl.
    by rewrite (list_lookup_total_correct _ _ _ Hsel).
  - rewrite Forall_forall in Hrange. apply Hrange.
    eapply list_elem_of_lookup_2. exact Hsel.
  - intros j i Hj. apply (Hmax j). by rewrite list_lookup_fmap, Hj.
  - intros j i Hjb Hj. apply (Hfirst j); [done |].
    by rewrite list_lookup_fmap, Hj.
Qed.

(** A fitness vector as long as the population covers every draw. *)
Lemma tournament_selection_spec (w : world) population fitnesses k :
  0 < k <= length population ->
  length population <= length fitnesses ->
  let selected := (choice (length population) k (np_random w)).1 in
  let w' :=
    World (heap w) (fitness_cache w)
      (choice (length population) k (np_random w)).2 (metrics_calls w) in
  exists b best_index,
    tournament_selection population fitnesses k w
      = Ok (population !!! best_index, w') /\
    selected !! b = Some best_index /\
    best_index < length population /\
    (forall j i, selected !! j = Some i ->
                 (fitnesses !!! i <= fitnesses !!! best_index)%R) /\
    (forall j i, j < b -> selected !! j = Some i ->
                 (fitnesses !!! i < fitnesses !!! best_index)%R).
Proof.
  intros Hk Hfit selected w'.
  apply (tournament_selection_drawn w population fitnesses k Hk).
  pose proof (choice_range (length population) k (np_random w) (proj2 Hk))
    as Hrange.
  eapply Forall_impl; [exact Hrange |]. simpl. intros; lia.
Qed.

(** A draw with an index past the end of the fitness vector raises. *)
Lemma tournament_selection_uncovered (w : world) population fitnesses k :
  k <= length population ->
  ~ Forall (fun i => i < length fitnesses)
      (choice (length population) k (np_random w)).1 ->
  tournament_selection population fitnesses k w = Raise IndexError.
Proof.
  intros Hk Hnot.
  unfold tournament_selection, bind, np_random_choice, draw, lift.
  case_decide; [| lia].
  destruct (choice (length population) k (np_random w)) as [sel s].
  cbn [fst] in Hnot. unfold np_index. by rewrite decide_False.
Qed.

(** A drawn index past the end of the fitness vector raises. *)
Lemma tournament_selection_short (w : world) population fitnesses k i :
  k <= length population ->
  i ∈ (choice (length population) k (np_random w)).1 ->
  length fitnesses <= i ->
  tournament_selection population fitnesses k w = Raise IndexError.
Proof.
  intros Hk Hi Hge.
  unfold tournament_selection, bind, np_random_choice, draw, lift.
  case_decide; [| lia].
  destruct (choice (length population) k (np_random w)) as [sel s].
  cbn [fst] in Hi. by rewrite (np_index_out_of_range _ _ i Hi Hge).
Qed.

(** What a tournament that returns has done. *)
Lemma tournament_selection_Ok (w w' : world) population fitnesses k r :
  tournament_selection population fitnesses k w = Ok (r, w') ->
  let selected := (choice (length population) k (np_random w)).1 in
  0 < k <= length population /\
  Forall (fun i => i < length fitnesses) selected /\
  exists best_index,
    best_index ∈ selected /\ best_index < length population /\
    r = population !!! best_index /\
    w' = World (heap w) (fitness_cache w)
           (choice (length population) k (np_random w)).2 (metrics_calls w).
Proof.
  intros Ht selected.
  destruct (decide (k <= length population)) as [Hle|Hgt].
  2: { rewrite tournament_selection_too_many in Ht by lia. done. }
  pose proof (choice_length (length population) k (np_random w) Hle) as Hlen.
  pose proof (choice_range (length population) k (np_random w) Hle) as Hrange.
  fold selected in Hlen, Hrange.
  unfold tournament_selection, bind, np_random_choice, draw, lift, ret in Ht.
  case_decide; [| lia].
  destruct (choice (length population) k (np_random w)) as [sel s] eqn:Hch.
  simpl in selected. subst selected. unfold np_index in Ht.
  case_decide as Hcovered; [| done].
  destruct sel as [|i0 sel]; [done |]. cbn [length] in Hlen.
  split; [lia |]. split; [done |].
  set (scores := (fun i => fitnesses !!! i) <$> i0 :: sel) in *.
  destruct (np_argmax_spec scores) as (b & y & Hb & Hy & _); [done |].
  rewrite Hb in Ht. inversion Ht; subst r w'. clear Ht.
  unfold scores in Hy. rewrite list_lookup_fmap in Hy.
  destruct ((i0 :: sel) !! b) as [best_index|] eqn:Hsel; [| done].
  exists best_index. rewrite (list_lookup_total_correct _ _ _ Hsel).
  assert (best_index ∈ i0 :: sel) as Hin by by eapply list_elem_of_lookup_2.
  split; [done |]. split; [| done].
  rewrite Forall_forall in Hrange. by apply Hrange.
Qed.

Lemma crossover_spec (w : world) parent1 parent2 :
  length (heap w !!! parent1) = np_prod REACTOR_DIMENSIONS ->
  length (heap w !!! parent2) = np_prod REACTOR_DIMENSIONS ->
  let drawn := randint1 1 (Z.of_nat (np_prod REACTOR_DIMENSIONS)) (np_random w) in
  let child :=
    cut_and_join (Z.to_nat drawn.1) (heap w !!! parent1) (heap w !!! parent2) in
  crossover parent1 parent2 w =
  Ok (length (heap w),
      World (heap w ++ [child]) (fitness_cache w) drawn.2 (metrics_calls w)).
Proof.
  intros H1 H2 drawn child.
  unfold crossover, bind, draw, deref, reshape, alloc.
  fold drawn. destruct drawn as [p s] eqn:Hd. simpl.
  case_decide as Hlen; [done |].
  exfalso. apply Hlen. subst child.
  rewrite cut_and_join_length; [done | congruence].
Qed.

Lemma mutate_spec (w : world) individual mutation_rate :
  let array := heap w !!! individual in
  let drawn := rand (length array) (np_random w) in
  let mask := (fun x => bool_decide (x < mutation_rate)%R) <$> drawn.1 in
  let values := randint 1 17 (count_nonzero mask) drawn.2 in
  mutate individual mutation_rate w =
  Ok (individual,
      World (<[individual := boolean_assign array mask values.1]> (heap w))
        (fitness_cache w) values.2 (metrics_calls w)).
Proof.
  intros array drawn mask values.
  unfold mutate, bind, draw, deref, store, ret. fold array. fold drawn.
  destruct drawn as [ds s1] eqn:Hd. subst values mask. simpl.
  by destruct (randint 1 17 _ s1) as [vs s2].
Qed.

End Operators.

(** ** Claims about the operators *)

(** C6. The cut point [p] that [crossover] draws lies in
    [1, total_cells - 1]. For every pair of parents A and B and every cut
    point [p] the generator hands out, the child is a new array whose
    row-major cells are the first [p] cells of A followed by the cells of B
    from position [p] on, again of the grid's size: the child is a
    function of [p] and of the two parents, and the arrays that existed
    keep their cells. The same recombination at [p = total_cells] gives A
    back and at [p = 0] gives B. *)
Theorem crossover_recombines {Rng : NumpyRandom} (w : world)
    (parent1 parent2 : ref) (p : Z) (s : rng_state) :
  let A := heap w !!! parent1 in
  let B := heap w !!! parent2 in
  let total_cells := np_prod REACTOR_DIMENSIONS in
  let child := take (Z.to_nat p) A ++ drop (Z.to_nat p) B in
  length A = total_cells ->
  length B = total_cells ->
  randint1 1 (Z.of_nat total_cells) (np_random w) = (p, s) ->
  (1 <= p <= Z.of_nat total_cells - 1)%Z /\
  crossover parent1 parent2 w =
    Ok (length (heap w),
        World (heap w ++ [child]) (fitness_cache w) s (metrics_calls w)) /\
  child = cut_and_join (Z.to_nat p) A B /\
  length child = total_cells /\
  (forall r, r < length (heap w) -> (heap w ++ [child]) !!! r = heap w !!! r) /\
  cut_and_join total_cells A B = A /\
  cut_and_join 0 A B = B.
Proof.
  intros A B total_cells child HA HB Hdraw.
  pose proof (randint1_range 1 (Z.of_nat total_cells) (np_random w)) as Hp.
  rewrite Hdraw in Hp. cbn [fst] in Hp.
  split; [unfold total_cells in *; simpl in *; lia |].
  split.
  - rewrite (crossover_spec w parent1 parent2 HA HB).
    fold total_cells. by rewrite Hdraw.
  - split; [reflexivity |]. split.
    + change child with (cut_and_join (Z.to_nat p) A B).
      rewrite cut_and_join_length; [exact HA |].
      by rewrite HA, HB.
    + split; [intros r Hr; by rewrite lookup_total_app_l |].
      rewrite <- HA.
      destruct (cut_and_join_whole A B) as [H1 H2]; [lia |]. done.
Qed.

Lemma crossover_recombines_witness :
  exists child w',
    @crossover fixed_random 0 1
      (World [best_cyb; np_zeros SIZE] ∅ (0 : @rng_state fixed_random) 0)
    = Ok (child, w') /\
    heap w' !!! child = take 1 best_cyb ++ drop 1 (np_zeros SIZE).
Proof.
  destruct (@crossover_recombines fixed_random
              (World [best_cyb; np_zeros SIZE] ∅ (0 : @rng_state fixed_random) 0)
              0 1 1%Z 0 eq_refl eq_refl eq_refl)
    as (_ & Hc & _).
  eexists. eexists. split; [exact Hc | reflexivity].
Defined.

(** C4 (as amended). [mutate] writes into the array it is given and
    answers that same array: each cell whose draw is below the rate takes
    a value between 1 and 16, every other cell keeps its value, and no
    other array changes. With rate 0 the contents stay as they were; with
    rate 1 every cell lies between 1 and 16. *)
Theorem mutate_in_place {Rng : NumpyRandom} (w : world) (individual : ref)
    (rate : R) :
  individual < length (heap w) ->
  let old := heap w !!! individual in
  let draws := (rand (length old) (np_random w)).1 in
  exists w',
    mutate individual rate w = Ok (individual, w') /\
    length (heap w' !!! individual) = length old /\
    (forall i x, draws !! i = Some x ->
       if decide (x < rate)%R
       then exists v, (heap w' !!! individual) !! i = Some v /\ (1 <= v <= 16)%Z
       else (heap w' !!! individual) !! i = old !! i) /\
    (rate = 0%R -> heap w' !!! individual = old) /\
    (rate = 1%R -> Forall (fun v => 1 <= v <= 16)%Z (heap w' !!! individual)) /\
    (forall r, r <> individual -> heap w' !!! r = heap w !!! r).
Proof.
  intros Hind old draws.
  eexists. split; [apply mutate_spec |]. simpl. fold old.
  rewrite list_lookup_total_insert_eq by done.
  set (drawn := rand (length old) (np_random w)).
  set (mask := (fun x => bool_decide (x < rate)%R) <$> drawn.1).
  set (values := (randint 1 17 (count_nonzero mask) drawn.2).1).
  assert (length mask = length old) as Hmask.
  { unfold mask, drawn. by rewrite length_fmap, rand_length. }
  assert (length values = count_nonzero mask) as Hvalues
    by apply randint_length.
  assert (Forall (fun z => 1 <= z < 17)%Z values) as Hrange
    by by apply randint_range.
  assert (forall i x, draws !! i = Some x ->
            if decide (x < rate)%R
            then exists v, boolean_assign old mask values !! i = Some v
                           /\ (1 <= v <= 16)%Z
            else boolean_assign old mask values !! i = old !! i) as Hcell.
  { intros i x Hx.
    assert (mask !! i = Some (bool_decide (x < rate)%R)) as Hm.
    { unfold mask. rewrite list_lookup_fmap.
      change (drawn.1) with draws. by rewrite Hx. }
    destruct (old !! i) as [o|] eqn:Ho.
    2: { apply lookup_ge_None in Ho. apply lookup_lt_Some in Hm. lia. }
    destruct (boolean_assign_cell old mask values i o Hmask Hvalues Ho)
      as (new & Hn & Hf & Ht).
    case_decide as Hlt.
    - rewrite bool_decide_eq_true_2 in Hm by done.
      exists new. split; [done |].
      rewrite Forall_forall in Hrange. specialize (Hrange new (Ht Hm)). lia.
    - rewrite bool_decide_eq_false_2 in Hm by done.
      rewrite Hn. f_equal. auto. }
  pose proof (rand_range (length old) (np_random w)) as Hdraws.
  fold draws in Hdraws. rewrite Forall_forall in Hdraws.
  assert (forall i, i < length old -> exists x, draws !! i = Some x) as Hdrawn.
  { intros i Hi. apply lookup_lt_is_Some. unfold draws.
    by rewrite rand_length. }
  split; [apply boolean_assign_length |]. split; [exact Hcell |].
  split; [| split].
  - intros ->. apply list_eq. intros i.
    destruct (decide (i < length old)) as [Hi|Hi].
    + destruct (Hdrawn i Hi) as [x Hx]. specialize (Hcell i x Hx).
      case_decide as Hlt; [| done].
      assert (x ∈ draws) as Hin by by eapply list_elem_of_lookup_2.
      specialize (Hdraws x Hin). lra.
    + rewrite !lookup_ge_None_2; [done | lia |].
      rewrite boolean_assign_length. lia.
  - intros ->. apply Forall_lookup. intros i v Hv.
    assert (i < length old) as Hi.
    { apply lookup_lt_Some in Hv. by rewrite boolean_assign_length in Hv. }
    destruct (Hdrawn i Hi) as [x Hx]. specialize (Hcell i x Hx).
    assert (x ∈ draws) as Hin by by eapply list_elem_of_lookup_2.
    specialize (Hdraws x Hin).
    case_decide as Hlt; [| lra].
    destruct Hcell as (v' & Hv' & Hb). congruence.
  - intros r Hr. by rewrite list_lookup_total_insert_ne.
Qed.

Lemma mutate_in_place_witness :
  exists w',
    @mutate fixed_random 0 0.1%R (one_grid fixed_random 0 best_cyb)
    = Ok (0, w').
Proof.
  destruct (@mutate_in_place fixed_random (one_grid fixed_random 0 best_cyb)
              0 0.1%R) as (w' & Hm & _).
  - simpl. lia.
  - exists w'. exact Hm.
Defined.

Lemma count_nonzero_replicate_true (n : nat) :
  count_nonzero (replicate n true) = n.
Proof.
  induction n as [|n IH]; [done |].
  simpl. by rewrite count_nonzero_cons, IH.
Qed.

Lemma boolean_assign_all (array : ndarray) (values : list Z) :
  length values = length array ->
  boolean_assign array (replicate (length array) true) values = values.
Proof.
  revert values. induction array as [|x array IH]; intros [|v values] Hlen;
    simpl in *; try done.
  rewrite IH; [done | lia].
Qed.

(** C4, the claim as stated fails: the array passed to [mutate] is the one
    that is overwritten and answered. Here the all-zero grid, mutated at
    rate 1, holds ones after the call. *)
Lemma mutate_overwrites_input :
  exists w',
    @mutate fixed_random 0 1%R (one_grid fixed_random 0 (np_zeros SIZE))
    = Ok (0, w') /\
    heap (one_grid fixed_random 0 (np_zeros SIZE)) !!! 0 = np_zeros SIZE /\
    heap w' !!! 0 = replicate 27 1%Z.
Proof.
  eexists. split; [apply mutate_spec |]. split; [reflexivity |].
  cbn [heap one_grid np_random].
  change ([np_zeros SIZE] !!! 0) with (np_zeros SIZE).
  change (@rand fixed_random (length (np_zeros SIZE)) 0)
    with (replicate (length (np_zeros SIZE)) (unit_float 0%R), 1).
  cbn [fst snd]. rewrite fmap_replicate.
  rewrite (bool_decide_eq_true_2 (unit_float 0 < 1)%R)
    by apply unit_float_range.
  rewrite count_nonzero_replicate_true.
  change (@randint fixed_random 1 17 (length (np_zeros SIZE)) 1).1
    with (replicate (length (np_zeros SIZE)) 1%Z).
  rewrite boolean_assign_all by by rewrite length_replicate.
  reflexivity.
Qed.

Lemma tournament_selection_empty {Rng : NumpyRandom} (w : world)
    (population : list ref) (fitnesses : list R) :
  tournament_selection population fitnesses 0 w = Raise ValueError.
Proof.
  unfold tournament_selection, bind, np_random_choice, draw, lift.
  case_decide; [| lia].
  pose proof (choice_length (length population) 0 (np_random w)
                ltac:(lia)) as Hl.
  destruct (choice (length population) 0 (np_random w)) as [sel s].
  cbn [fst] in Hl. apply nil_length_inv in Hl. subst sel.
  by rewrite np_index_in_range by constructor.
Qed.

(** C5 (as amended). For [0 < k <= n] and a fitness vector that covers the
    population, the tournament draws [k] distinct indices below [n] and
    answers the member at the drawn index of highest fitness; among drawn
    indices of equal highest fitness the one drawn first wins. With
    [k = n] the answer has the highest fitness of the whole population. A
    [k] above [n] raises, and so does [k = 0]. *)
Theorem tournament_selection_best_of_draw {Rng : NumpyRandom} (w : world)
    (population : list ref) (fitnesses : list R) (k : nat) :
  0 < k <= length population ->
  length population <= length fitnesses ->
  let selected := (choice (length population) k (np_random w)).1 in
  (length selected = k /\ NoDup selected /\
   Forall (fun i => i < length population) selected) /\
  (exists b best_index w',
     tournament_selection population fitnesses k w
       = Ok (population !!! best_index, w') /\
     selected !! b = Some best_index /\
     (forall i, i ∈ selected ->
        (fitnesses !!! i <= fitnesses !!! best_index)%R) /\
     (forall j i, j < b -> selected !! j = Some i ->
        (fitnesses !!! i < fitnesses !!! best_index)%R) /\
     (k = length population ->
      forall i, i < length population ->
        (fitnesses !!! i <= fitnesses !!! best_index)%R)) /\
  (forall k', length population < k' ->
     tournament_selection population fitnesses k' w = Raise ValueError) /\
  tournament_selection population fitnesses 0 w = Raise ValueError.
Proof.
  intros Hk Hfit selected.
  pose proof (choice_length (length population) k (np_random w) (proj2 Hk))
    as Hlen.
  pose proof (choice_NoDup (length population) k (np_random w) (proj2 Hk))
    as Hnodup.
  pose proof (choice_range (length population) k (np_random w) (proj2 Hk))
    as Hrange.
  fold selected in Hlen, Hnodup, Hrange.
  split; [done |].
  split; [| split; [intros k'; apply tournament_selection_too_many
                   | apply tournament_selection_empty]].
  destruct (tournament_selection_spec w population fitnesses k Hk Hfit)
    as (b & best_index & Hsel & Hb & _ & Hmax & Hfirst).
  fold selected in Hb, Hmax, Hfirst.
  assert (forall i, i ∈ selected ->
            (fitnesses !!! i <= fitnesses !!! best_index)%R) as Hmax'.
  { intros i Hi. apply list_elem_of_lookup in Hi as [j Hj]. eauto. }
  exists b, best_index. eexists.
  split; [exact Hsel |]. split; [done |]. split; [done |]. split; [done |].
  intros -> i Hi. apply Hmax'.
  assert (selected ≡ₚ seq 0 (length population)) as Hperm.
  { apply submseteq_length_Permutation.
    - apply NoDup_submseteq; [done |]. intros x Hx.
      rewrite Forall_forall in Hrange. specialize (Hrange x Hx).
      apply elem_of_seq. lia.
    - rewrite length_seq. lia. }
  rewrite Hperm. apply elem_of_seq. lia.
Qed.

Lemma tournament_selection_best_of_draw_witness :
  exists best w',
    @tournament_selection fixed_random [0; 1] [2; 3]%R 2
      (World [best_cyb; np_zeros SIZE] ∅ (0 : @rng_state fixed_random) 0)
    = Ok (best, w').
Proof.
  destruct (@tournament_selection_best_of_draw fixed_random
              (World [best_cyb; np_zeros SIZE] ∅ (0 : @rng_state fixed_random) 0)
              [0; 1] [2; 3]%R 2)
    as (_ & (b & best_index & w' & Hsel & _) & _).
  - simpl. lia.
  - simpl. lia.
  - eexists. exists w'. exact Hsel.
Defined.

(** C5, the claim as stated fails: of two members with the same fitness
    the tournament answers the one whose index was drawn first, here the
    member at index 1 and not the member at index 0. *)
Lemma tournament_tie_follows_draw :
  let w := World [best_cyb; np_zeros SIZE] ∅ (0 : @rng_state fixed_random) 0 in
  @tournament_selection fixed_random [0; 1] [1; 1]%R 2 w = Ok (1, w).
Proof.
  intros w.
  unfold tournament_selection, bind, np_random_choice, draw, lift, ret.
  cbn [length]. case_decide; [| lia].
  change (@choice fixed_random 2 2 (np_random w)) with ([1; 0], 0).
  cbn beta iota.
  rewrite np_index_in_range by (repeat constructor; cbn [length]; lia).
  cbn [fmap list_fmap np_argmax argmax_from].
  change ([1; 1]%R !!! 1) with 1%R. change ([1; 1]%R !!! 0) with 1%R.
  case_decide; [lra |]. reflexivity.
Qed.

(** ** The two schedules *)

(** The mutation rate in force during a generation: the initial rate
    adjusted once per earlier generation. *)
Definition mutation_rate_at (generation : nat) : R :=
  Nat.iter generation adjust_mutation_rate INITIAL_MUTATION_RATE.

Lemma pow99_scaled (n : nat) :
  (0.99 ^ n * IZR (100 ^ Z.of_nat n) = IZR (99 ^ Z.of_nat n))%R.
Proof. rewrite <- !pow_IZR, <- Rpow_mult_distr. f_equal. lra. Qed.

Lemma pow99_160 : (0.2 < 0.99 ^ 160)%R.
Proof.
  pose proof (pow99_scaled 160) as H.
  assert (0 < IZR (100 ^ Z.of_nat 160))%R as Hpos
    by (apply IZR_lt; vm_compute; reflexivity).
  apply Rmult_lt_reg_r with (IZR (100 ^ Z.of_nat 160)); [exact Hpos |].
  rewrite H. apply Rmult_lt_reg_l with 5%R; [lra |].
  replace (5 * (0.2 * IZR (100 ^ Z.of_nat 160)))%R
    with (IZR (100 ^ Z.of_nat 160)) by lra.
  rewrite <- mult_IZR. apply IZR_lt. vm_compute. reflexivity.
Qed.

Lemma pow99_161 : (0.99 ^ 161 < 0.2)%R.
Proof.
  pose proof (pow99_scaled 161) as H.
  assert (0 < IZR (100 ^ Z.of_nat 161))%R as Hpos
    by (apply IZR_lt; vm_compute; reflexivity).
  apply Rmult_lt_reg_r with (IZR (100 ^ Z.of_nat 161)); [exact Hpos |].
  rewrite H. apply Rmult_lt_reg_l with 5%R; [lra |].
  replace (5 * (0.2 * IZR (100 ^ Z.of_nat 161)))%R
    with (IZR (100 ^ Z.of_nat 161)) by lra.
  rewrite <- mult_IZR. apply IZR_lt. vm_compute. reflexivity.
Qed.

Lemma pow99_range (n : nat) : (0 < 0.99 ^ n <= 1)%R.
Proof.
  induction n as [|n IH]; simpl; [lra |].
  split; [apply Rmult_lt_0_compat; lra |].
  destruct IH as [H0 H1]. nra.
Qed.

Lemma pow99_antitone (m n : nat) : m <= n -> (0.99 ^ n <= 0.99 ^ m)%R.
Proof.
  induction 1 as [|n Hmn IH]; [lra |].
  pose proof (pow99_range n) as [H0 H1]. simpl. nra.
Qed.

Lemma adjust_mutation_rate_le (r : R) :
  (0 <= r)%R -> (adjust_mutation_rate r <= r)%R.
Proof.
  intros Hr. unfold adjust_mutation_rate, MUTATION_DECAY_RATE.
  case_decide; lra.
Qed.

Lemma adjust_mutation_rate_floor (r : R) :
  (0.02 * 0.99 <= r)%R -> (0.02 * 0.99 <= adjust_mutation_rate r)%R.
Proof.
  intros Hr. unfold adjust_mutation_rate, MUTATION_DECAY_RATE.
  case_decide; lra.
Qed.

Lemma mutation_rate_at_S (g : nat) :
  mutation_rate_at (S g) = adjust_mutation_rate (mutation_rate_at g).
Proof. reflexivity. Qed.

Lemma mutation_rate_at_floor (g : nat) :
  (0.02 * 0.99 <= mutation_rate_at g)%R.
Proof.
  induction g as [|g IH].
  - unfold mutation_rate_at, INITIAL_MUTATION_RATE. simpl. lra.
  - rewrite mutation_rate_at_S. by apply adjust_mutation_rate_floor.
Qed.

Lemma mutation_rate_at_le (g : nat) :
  (mutation_rate_at (S g) <= mutation_rate_at g)%R.
Proof.
  rewrite mutation_rate_at_S. apply adjust_mutation_rate_le.
  pose proof (mutation_rate_at_floor g). lra.
Qed.

Lemma mutation_rate_at_initial (g : nat) :
  (mutation_rate_at g <= INITIAL_MUTATION_RATE)%R.
Proof.
  induction g as [|g IH]; [unfold mutation_rate_at; simpl; lra |].
  pose proof (mutation_rate_at_le g). lra.
Qed.

(** While the rate is above 0.02 it is the initial rate times a power of
    the decay factor: that lasts 161 generations. *)
Lemma mutation_rate_at_decay (g : nat) :
  g <= 161 -> mutation_rate_at g = (0.1 * 0.99 ^ g)%R.
Proof.
  induction g as [|g IH]; intros Hg.
  - unfold mutation_rate_at, INITIAL_MUTATION_RATE. simpl. lra.
  - rewrite mutation_rate_at_S, IH by lia.
    unfold adjust_mutation_rate, MUTATION_DECAY_RATE.
    pose proof (pow99_antitone g 160 ltac:(lia)) as Hanti.
    pose proof pow99_160 as H160.
    case_decide as Hlt; [simpl; lra | lra].
Qed.

Lemma Int_part_le (x y : R) : (x <= y)%R -> (Int_part x <= Int_part y)%Z.
Proof.
  intros Hxy.
  destruct (base_Int_part x) as [Hx _]. destruct (base_Int_part y) as [_ Hy].
  assert (IZR (Int_part x) < IZR (Int_part y + 1))%R as Hlt
    by (rewrite plus_IZR; lra).
  apply lt_IZR in Hlt. lia.
Qed.

Lemma tournament_size_at_eq (g : nat) :
  tournament_size_at g =
  Z.to_nat (Z.max (Int_part (100 * 0.99 ^ g)) 2).
Proof.
  unfold tournament_size_at, float_to_int, TOURNAMENT_SIZE_BASE,
    TOURNAMENT_SIZE_FACTOR.
  pose proof (pow99_range g). case_decide; [done | lra].
Qed.

Lemma tournament_size_at_le (g : nat) :
  tournament_size_at (S g) <= tournament_size_at g.
Proof.
  rewrite !tournament_size_at_eq.
  pose proof (pow99_antitone g (S g) ltac:(lia)) as Hanti.
  pose proof (Int_part_le (100 * 0.99 ^ S g) (100 * 0.99 ^ g) ltac:(lra)).
  lia.
Qed.

Lemma tournament_size_at_range (g : nat) : 2 <= tournament_size_at g <= 100.
Proof.
  rewrite tournament_size_at_eq.
  pose proof (pow99_range g) as [H0 H1].
  pose proof (Int_part_le (100 * 0.99 ^ g) 100 ltac:(lra)) as Hle.
  assert (Int_part 100 = 100%Z) as Hi.
  { symmetry. apply Int_part_spec. lra. }
  lia.
Qed.

(** ** The generational loop: what a step does to the state *)

Section Generations.
Context {Sim : Simulator} {Rng : NumpyRandom} {Srt : NumpySort}.

Lemma bind_Ok {A B} (m : M A) (k : A -> M B) (w w2 : world) (b : B) :
  bind m k w = Ok (b, w2) ->
  exists a w1, m w = Ok (a, w1) /\ k a w1 = Ok (b, w2).
Proof.
  unfold bind. destruct (m w) as [[a w1]|e]; [| done]. eauto.
Qed.

Lemma bind_Ok_intro {A B} (m : M A) (k : A -> M B) (w w1 : world) (a : A) :
  m w = Ok (a, w1) -> bind m k w = k a w1.
Proof. intros Hm. unfold bind. by rewrite Hm. Qed.

(** The array objects that exist in [w] are still there in [w'], with the
    same cells. *)
Definition heap_preserved (w w' : world) : Prop :=
  length (heap w) <= length (heap w') /\
  forall r, r < length (heap w) -> heap w' !!! r = heap w !!! r.

Lemma heap_preserved_refl (w : world) : heap_preserved w w.
Proof. split; [lia | done]. Qed.

Lemma heap_preserved_trans (w1 w2 w3 : world) :
  heap_preserved w1 w2 -> heap_preserved w2 w3 -> heap_preserved w1 w3.
Proof.
  intros [Hl1 Hp1] [Hl2 Hp2]. split; [lia |].
  intros r Hr. rewrite Hp2 by lia. by apply Hp1.
Qed.

Lemma heap_preserved_eq (w w' : world) :
  heap w' = heap w -> heap_preserved w w'.
Proof. intros Hh. unfold heap_preserved. rewrite Hh. split; [lia | done]. Qed.

(** The breeding steps leave the cache and the count of simulator calls
    alone. *)
Definition evaluator_untouched (w w' : world) : Prop :=
  fitness_cache w' = fitness_cache w /\ metrics_calls w' = metrics_calls w.

Lemma tournament_selection_effect (w w' : world) population fitnesses k r :
  tournament_selection population fitnesses k w = Ok (r, w') ->
  0 < k <= length population /\ r ∈ population /\
  heap w' = heap w /\ evaluator_untouched w w'.
Proof.
  intros Ht.
  apply tournament_selection_Ok in Ht
    as (Hk & _ & best_index & _ & Hlt & -> & ->).
  split; [done |]. split; [| done].
  by apply list_elem_of_lookup_total_2.
Qed.

Lemma crossover_effect (w w' : world) parent1 parent2 child :
  crossover parent1 parent2 w = Ok (child, w') ->
  exists cells,
    child = length (heap w) /\ heap w' = heap w ++ [cells] /\
    length cells = np_prod REACTOR_DIMENSIONS /\
    evaluator_untouched w w'.
Proof.
  unfold crossover, bind, draw, deref, reshape, alloc, raise, ret.
  destruct (randint1 1 _ (np_random w)) as [p s]. simpl.
  case_decide as Hlen; [| done].
  intros Hc. inversion Hc; subst. simpl. eexists. done.
Qed.

Lemma generate_array_spec (w : world) :
  let drawn := randint 0 18 (np_prod SIZE) (np_random w) in
  generate_array w =
  Ok (length (heap w),
      World (heap w ++ [drawn.1]) (fitness_cache w) drawn.2 (metrics_calls w)).
Proof.
  intros drawn. unfold generate_array, bind, draw, alloc. fold drawn.
  by destruct drawn as [cells s].
Qed.

(** One bred child: a new array object of the grid's size; every object
    that existed before keeps its cells. *)
Lemma breed_child_effect (w w' : world) population fitnesses k rate child :
  breed_child population fitnesses k rate w = Ok (child, w') ->
  heap_preserved w w' /\ evaluator_untouched w w' /\
  length (heap w) <= child < length (heap w') /\
  length (heap w' !!! child) = np_prod SIZE /\
  0 < k <= length population.
Proof.
  unfold breed_child. intros Hb.
  apply bind_Ok in Hb as (parent1 & w1 & Ht1 & Hb).
  apply bind_Ok in Hb as (parent2 & w2 & Ht2 & Hb).
  apply bind_Ok in Hb as (c & w3 & Hc & Hb).
  apply bind_Ok in Hb as (c' & w4 & Hm & Hb).
  apply bind_Ok in Hb as (cells & w5 & Hd & Hb).
  apply tournament_selection_effect in Ht1 as (Hk & _ & Hh1 & Hc1 & Hn1).
  apply tournament_selection_effect in Ht2 as (_ & _ & Hh2 & Hc2 & Hn2).
  apply crossover_effect in Hc as (flat & -> & Hh3 & Hflat & Hc3 & Hn3).
  rewrite mutate_spec in Hm. inversion Hm; subst c' w4. clear Hm.
  unfold deref in Hd. inversion Hd; subst cells w5. clear Hd.
  cbn [heap fitness_cache metrics_calls np_random] in Hb.
  assert (length (heap w3) = S (length (heap w))) as Hl3.
  { rewrite Hh3, length_app, Hh2, Hh1. simpl. lia. }
  assert (length (heap w2) = length (heap w)) as Hl2 by by rewrite Hh2, Hh1.
  assert (heap w3 !!! length (heap w2) = flat) as Hchild.
  { rewrite Hh3. by apply list_lookup_total_middle. }
  set (mutated := boolean_assign (heap w3 !!! length (heap w2)) _ _) in Hb.
  assert (length mutated = np_prod SIZE) as Hmut.
  { unfold mutated. rewrite boolean_assign_length, Hchild. done. }
  assert (forall r, r < length (heap w) ->
            <[length (heap w2) := mutated]> (heap w3) !!! r = heap w !!! r)
    as Hold.
  { intros r Hr. rewrite list_lookup_total_insert_ne by lia.
    rewrite Hh3, lookup_total_app_l by lia. by rewrite Hh2, Hh1. }
  destruct (validate_array _) as [ok|] eqn:Hv.
  - inversion Hb; subst child w'. unfold heap_preserved, evaluator_untouched.
    cbn [heap fitness_cache metrics_calls]. rewrite length_insert.
    split; [split; [lia | done] |].
    split; [split; congruence |].
    split; [lia |]. split; [| done].
    rewrite list_lookup_total_insert_eq by lia. done.
  - rewrite generate_array_spec in Hb. inversion Hb; subst child w'.
    unfold heap_preserved, evaluator_untouched.
    cbn [heap fitness_cache metrics_calls np_random].
    rewrite length_app, length_insert. simpl.
    split; [split; [lia |] |].
    { intros r Hr. rewrite lookup_total_app_l by (rewrite length_insert; lia).
      by apply Hold. }
    split; [split; congruence |].
    split; [lia |]. split; [| done].
    replace (length (heap w3)) with (length (<[length (heap w2) := mutated]> (heap w3)))
      by apply length_insert.
    rewrite list_lookup_total_middle by done.
    apply randint_length.
Qed.

Lemma breed_effect (n : nat) :
  forall (w w' : world) population fitnesses k rate new_population result,
  breed n population fitnesses k rate new_population w = Ok (result, w') ->
  exists children,
    result = new_population ++ children /\ length children = n /\
    Forall (fun c => length (heap w) <= c < length (heap w') /\
                     length (heap w' !!! c) = np_prod SIZE) children /\
    heap_preserved w w' /\ evaluator_untouched w w'.
Proof.
  induction n as [|n IH]; intros w w' population fitnesses k rate new_population
    result Hb; simpl in Hb.
  - inversion Hb; subst. exists []. rewrite app_nil_r.
    split; [done |]. split; [done |]. split; [constructor |].
    split; [apply heap_preserved_refl | done].
  - apply bind_Ok in Hb as (child & w1 & Hc & Hb).
    apply breed_child_effect in Hc as (Hp1 & [Hc1 Hn1] & Hfresh & Hlen & _).
    apply IH in Hb as (children & -> & Hn & Hall & Hp2 & [Hc2 Hn2]).
    exists (child :: children).
    split; [by rewrite <- app_assoc |]. split; [simpl; lia |].
    split; [| split; [by eapply heap_preserved_trans | split; congruence]].
    constructor.
    + destruct Hp2 as [Hl2 Hk2]. split; [lia |]. rewrite Hk2 by lia. done.
    + eapply Forall_impl; [exact Hall |]. simpl.
      intros c [Hc Hcl]. destruct Hp1 as [Hl1 _]. split; [lia | done].
Qed.

(** The evaluation of a population: the scores come back in population
    order, each one the cached score of its grid; the arrays and the
    generator are not touched and the cache only grows. *)
Lemma executor_map_effect (pop : list ref) :
  forall (w w' : world) (fs : list R),
  executor_map pop w = Ok (fs, w') ->
  heap w' = heap w /\ np_random w' = np_random w /\
  length fs = length pop /\
  (forall key x, fitness_cache w !! key = Some x ->
                 fitness_cache w' !! key = Some x) /\
  (forall i r, pop !! i = Some r ->
     exists v, fs !! i = Some v /\
               fitness_cache w' !! (heap w !!! r) = Some v).
Proof.
  induction pop as [|ind rest IH]; intros w w' fs He; simpl in He.
  - inversion He; subst. done.
  - apply bind_Ok in He as (f & w1 & Hf & He).
    apply bind_Ok in He as (fs' & w2 & Hrest & He).
    inversion He; subst fs w'. clear He.
    apply fitness_effect in Hf as (Hh1 & Hr1 & Hst1 & Hkeep1 & _).
    apply IH in Hrest as (Hh2 & Hr2 & Hlen & Hkeep2 & Hscores).
    split; [congruence |]. split; [congruence |].
    split; [simpl; lia |]. split; [eauto |].
    intros [|i] r Hi; simpl in Hi.
    + inversion Hi; subst r. exists f. split; [done |]. eauto.
    + destruct (Hscores i r Hi) as (v & Hv & Hc). exists v.
      split; [done |]. by rewrite <- Hh1.
Qed.

End Generations.

(** ** Elites, and the invariant of the loop *)

Lemma slice_last_elite {A} (l : list A) :
  slice_last ELITE_SIZE l = drop (length l - ELITE_SIZE) l.
Proof. reflexivity. Qed.

Section Elites.
Context {Srt : NumpySort}.

Lemma argsort_length (fs : list R) : length (argsort fs) = length fs.
Proof. by rewrite (Permutation_length (argsort_perm fs)), length_seq. Qed.

Lemma argsort_elem (fs : list R) (i : nat) :
  i ∈ argsort fs <-> i < length fs.
Proof. rewrite (argsort_perm fs), elem_of_seq. lia. Qed.

(** The last [ELITE_SIZE] indices of the sort: that many, distinct, and no
    index left out has a higher fitness than one of them. *)
Lemma elite_indices_spec (fs : list R) :
  ELITE_SIZE <= length fs ->
  let elite := slice_last ELITE_SIZE (argsort fs) in
  length elite = ELITE_SIZE /\ NoDup elite /\
  Forall (fun i => i < length fs) elite /\
  (forall i j, i ∈ elite -> j < length fs -> j ∉ elite ->
     (fs !!! j <= fs !!! i)%R).
Proof.
  intros Hn elite. unfold elite. rewrite slice_last_elite, argsort_length.
  assert (NoDup (argsort fs)) as Hnd.
  { rewrite (argsort_perm fs). apply NoDup_seq. }
  split; [rewrite length_drop, argsort_length; lia |].
  split; [eapply sublist_NoDup; [exact Hnd | apply sublist_drop] |].
  split.
  - apply Forall_forall. intros i Hi. apply argsort_elem.
    eapply elem_of_sublist; [exact Hi | apply sublist_drop].
  - intros i j Hi Hj Hnj.
    apply list_elem_of_lookup in Hi as [q Hq]. rewrite lookup_drop in Hq.
    apply argsort_elem in Hj. apply list_elem_of_lookup in Hj as [pj Hpj].
    destruct (decide (length fs - ELITE_SIZE <= pj)) as [Hge|Hlt].
    + exfalso. apply Hnj. apply list_elem_of_lookup.
      exists (pj - (length fs - ELITE_SIZE)). rewrite lookup_drop.
      by replace (length fs - ELITE_SIZE + (pj - (length fs - ELITE_SIZE)))
        with pj by lia.
    + eapply (argsort_sorted fs pj (length fs - ELITE_SIZE + q)); [lia | done | done].
Qed.

End Elites.

Section Loop.
Context {Sim : Simulator} {Rng : NumpyRandom} {Srt : NumpySort}.

(** A population of the loop: [POPULATION_SIZE] references to existing
    arrays of the grid's size. *)
Definition population_ok (w : world) (pop : list ref) : Prop :=
  length pop = POPULATION_SIZE /\
  Forall (fun r => r < length (heap w) /\
                   length (heap w !!! r) = np_prod SIZE) pop.

Lemma population_ok_preserved (w w' : world) (pop : list ref) :
  heap_preserved w w' -> population_ok w pop -> population_ok w' pop.
Proof.
  intros [Hl Hp] [Hlen Hall]. split; [done |].
  eapply Forall_impl; [exact Hall |]. simpl.
  intros r [Hr Hc]. split; [lia |]. by rewrite Hp.
Qed.

Lemma initialize_population_spec (w : world) (size : nat) :
  initialize_population size w =
  Ok (replicate size (length (heap w)),
      World (heap w ++ [np_zeros SIZE]) (fitness_cache w) (np_random w)
        (metrics_calls w)).
Proof. reflexivity. Qed.

Lemma initialize_population_ok (w : world) :
  population_ok
    (World (heap w ++ [np_zeros SIZE]) (fitness_cache w) (np_random w)
       (metrics_calls w))
    (replicate POPULATION_SIZE (length (heap w))).
Proof.
  split; [apply length_replicate |].
  apply Forall_replicate. cbn [heap].
  rewrite length_app, list_lookup_total_middle by done.
  split; [simpl; lia | reflexivity].
Qed.

(** One generation, taken apart. *)
Lemma generation_body_effect (g : nat) (st st' : ga_state) (w w' : world) :
  generation_body g st w = Ok (st', w') ->
  exists children w1,
    executor_map (population st) w = Ok (fitnesses st', w1) /\
    population st' =
      ((fun i => population st !!! i) <$>
         slice_last ELITE_SIZE (argsort (fitnesses st'))) ++ children /\
    length children = POPULATION_SIZE - ELITE_SIZE /\
    Forall (fun c => length (heap w) <= c < length (heap w') /\
                     length (heap w' !!! c) = np_prod SIZE) children /\
    heap_preserved w w' /\
    fitness_cache w' = fitness_cache w1 /\
    mutation_rate st' = adjust_mutation_rate (mutation_rate st).
Proof.
  unfold generation_body. intros Hg.
  apply bind_Ok in Hg as (fs & w1 & He & Hg).
  apply bind_Ok in Hg as (pop' & w2 & Hb & Hg).
  inversion Hg; subst st' w2. clear Hg. cbn [population fitnesses mutation_rate].
  pose proof (executor_map_effect _ _ _ _ He) as (Hh & _).
  apply breed_effect in Hb as (children & -> & Hn & Hall & Hp & [Hc _]).
  exists children, w1. rewrite Hh in Hall.
  split; [done |]. split; [done |]. split; [done |]. split; [done |].
  split; [| done].
  eapply heap_preserved_trans; [| exact Hp]. by apply heap_preserved_eq.
Qed.

Lemma generation_body_ok (g : nat) (st st' : ga_state) (w w' : world) :
  population_ok w (population st) ->
  generation_body g st w = Ok (st', w') ->
  population_ok w' (population st') /\ heap_preserved w w' /\
  length (fitnesses st') = POPULATION_SIZE.
Proof.
  intros Hok Hg.
  destruct (generation_body_effect g st st' w w' Hg)
    as (children & w1 & He & Hpop & Hn & Hall & Hp & _ & _).
  pose proof (executor_map_effect _ _ _ _ He) as (_ & _ & Hlen & _).
  destruct Hok as [Hsize Hgrids]. rewrite Hsize in Hlen.
  destruct (elite_indices_spec (fitnesses st')) as (Hel & _ & Hrange & _).
  { rewrite Hlen. unfold ELITE_SIZE, POPULATION_SIZE. lia. }
  split; [| done]. split.
  - rewrite Hpop, length_app, length_fmap, Hel, Hn.
    unfold ELITE_SIZE, POPULATION_SIZE. lia.
  - rewrite Hpop. apply Forall_app. split.
    + apply Forall_fmap. eapply Forall_impl; [exact Hrange |]. simpl.
      intros i Hi. rewrite Hlen, <- Hsize in Hi.
      apply lookup_lt_is_Some in Hi as [r Hr].
      rewrite (list_lookup_total_correct _ _ _ Hr).
      rewrite Forall_forall in Hgrids.
      destruct (Hgrids r) as [Hr1 Hr2]; [by eapply list_elem_of_lookup_2 |].
      destruct Hp as [Hl Hp]. split; [lia |]. by rewrite Hp.
    + eapply Forall_impl; [exact Hall |]. simpl. intros c [Hc Hcl].
      split; [lia | done].
Qed.

Lemma run_generations_ok (gens : list nat) :
  forall (st st' : ga_state) (w w' : world),
  population_ok w (population st) ->
  run_generations gens st w = Ok (st', w') ->
  population_ok w' (population st') /\ heap_preserved w w' /\
  mutation_rate st' =
    Nat.iter (length gens) adjust_mutation_rate (mutation_rate st).
Proof.
  induction gens as [|g gens IH]; intros st st' w w' Hok Hr; simpl in Hr.
  - inversion Hr; subst. split; [done |]. split; [apply heap_preserved_refl | done].
  - apply bind_Ok in Hr as (st1 & w1 & Hg & Hr).
    destruct (generation_body_ok g st st1 w w1 Hok Hg) as (Hok1 & Hp1 & _).
    destruct (generation_body_effect g st st1 w w1 Hg)
      as (_ & _ & _ & _ & _ & _ & _ & _ & Hrate).
    destruct (IH st1 st' w1 w' Hok1 Hr) as (Hok' & Hp' & Hrate').
    split; [done |]. split; [by eapply heap_preserved_trans |].
    rewrite Hrate', Hrate. cbn [length]. by rewrite Nat.iter_succ_r.
Qed.

End Loop.

(** ** The run returns when the simulator does *)

Section Totality.
Context {Sim : Simulator} {Rng : NumpyRandom} {Srt : NumpySort}.
Hypothesis metrics_return :
  forall array fuel, is_Some (reactor_metrics array fuel).

Lemma fitness_returns (w : world) individual fuel :
  exists v w', fitness individual fuel w = Ok (v, w').
Proof.
  destruct (fitness_cache w !! (heap w !!! individual)) as [c|] eqn:Hc.
  - eexists. eexists. by apply fitness_hit.
  - destruct (metrics_return (heap w !!! individual) fuel) as [m Hm].
    destruct (is_array_valid (heap w !!! individual)) eqn:Hv.
    + eexists. eexists. by apply (fitness_miss_valid w individual fuel m).
    + eexists. eexists. by apply (fitness_miss_invalid w individual fuel m).
Qed.

Lemma executor_map_returns (pop : list ref) :
  forall w : world, exists fs w', executor_map pop w = Ok (fs, w').
Proof.
  induction pop as [|ind rest IH]; intros w; simpl.
  - eexists. eexists. reflexivity.
  - destruct (fitness_returns w ind CURRENT_FUEL) as (f & w1 & Hf).
    destruct (IH w1) as (fs & w2 & Hfs).
    exists (f :: fs), w2.
    rewrite (bind_Ok_intro _ _ _ _ _ Hf), (bind_Ok_intro _ _ _ _ _ Hfs).
    reflexivity.
Qed.

Lemma breed_child_returns (w : world) population fitnesses k rate :
  population_ok w population -> 0 < k <= length population ->
  length population <= length fitnesses ->
  exists child w', breed_child population fitnesses k rate w = Ok (child, w').
Proof.
  intros [Hsize Hgrids] Hk Hfit. rewrite Forall_forall in Hgrids.
  destruct (tournament_selection_spec w population fitnesses k Hk Hfit)
    as (b1 & i1 & Ht1 & _ & Hi1 & _).
  set (w1 := World (heap w) (fitness_cache w)
               (choice (length population) k (np_random w)).2
               (metrics_calls w)) in Ht1.
  destruct (tournament_selection_spec w1 population fitnesses k Hk Hfit)
    as (b2 & i2 & Ht2 & _ & Hi2 & _).
  set (w2 := World (heap w1) (fitness_cache w1)
               (choice (length population) k (np_random w1)).2
               (metrics_calls w1)) in Ht2.
  assert (forall i, i < length population ->
            length (heap w2 !!! (population !!! i)) = np_prod REACTOR_DIMENSIONS)
    as Hlen.
  { intros i Hi. apply Hgrids. by apply list_elem_of_lookup_total_2. }
  pose proof (crossover_spec w2 (population !!! i1) (population !!! i2)
                (Hlen i1 Hi1) (Hlen i2 Hi2)) as Hc.
  cbv zeta in Hc.
  unfold breed_child.
  rewrite (bind_Ok_intro _ _ _ _ _ Ht1), (bind_Ok_intro _ _ _ _ _ Ht2),
    (bind_Ok_intro _ _ _ _ _ Hc), (bind_Ok_intro _ _ _ _ _ (mutate_spec _ _ _)).
  unfold bind at 1. unfold deref at 1.
  destruct (validate_array _).
  - eexists. eexists. reflexivity.
  - eexists. eexists. apply generate_array_spec.
Qed.

Lemma breed_returns (n : nat) :
  forall (w : world) population fitnesses k rate new_population,
  population_ok w population -> 0 < k <= length population ->
  length population <= length fitnesses ->
  exists result w',
    breed n population fitnesses k rate new_population w = Ok (result, w').
Proof.
  induction n as [|n IH]; intros w population fitnesses k rate new_population
    Hok Hk Hfit; simpl.
  - eexists. eexists. reflexivity.
  - destruct (breed_child_returns w population fitnesses k rate Hok Hk Hfit)
      as (child & w1 & Hc).
    rewrite (bind_Ok_intro _ _ _ _ _ Hc).
    apply IH; [| done | done].
    eapply population_ok_preserved; [| exact Hok].
    by apply breed_child_effect in Hc as (Hp & _).
Qed.

Lemma generation_body_returns (g : nat) (st : ga_state) (w : world) :
  population_ok w (population st) ->
  exists st' w', generation_body g st w = Ok (st', w').
Proof.
  intros Hok. unfold generation_body.
  destruct (executor_map_returns (population st) w) as (fs & w1 & He).
  rewrite (bind_Ok_intro _ _ _ _ _ He).
  pose proof (executor_map_effect _ _ _ _ He) as (Hh & _ & Hfit & _).
  destruct (breed_returns (POPULATION_SIZE - ELITE_SIZE) w1 (population st) fs
              (tournament_size_at g) (mutation_rate st)
              ((fun i => population st !!! i) <$>
                 slice_last ELITE_SIZE (argsort fs)))
    as (pop' & w2 & Hb).
  - eapply population_ok_preserved; [| exact Hok]. by apply heap_preserved_eq.
  - pose proof (tournament_size_at_range g). destruct Hok as [-> _].
    unfold POPULATION_SIZE. lia.
  - lia.
  - rewrite (bind_Ok_intro _ _ _ _ _ Hb). eexists. eexists. reflexivity.
Qed.

Lemma run_generations_returns (gens : list nat) :
  forall (st : ga_state) (w : world),
  population_ok w (population st) ->
  exists st' w', run_generations gens st w = Ok (st', w').
Proof.
  induction gens as [|g gens IH]; intros st w Hok; simpl.
  - eexists. eexists. reflexivity.
  - destruct (generation_body_returns g st w Hok) as (st1 & w1 & Hg).
    rewrite (bind_Ok_intro _ _ _ _ _ Hg). apply IH.
    by apply (generation_body_ok g st st1 w w1 Hok Hg).
Qed.

End Totality.

Section Answer.
Context {Sim : Simulator} {Rng : NumpyRandom} {Srt : NumpySort}.

(** The fitness vector that outlives the loop is the one of its last
    generation. *)
Lemma run_generations_last (gens : list nat) (g : nat) :
  forall (st st' : ga_state) (w w' : world),
  run_generations (gens ++ [g]) st w = Ok (st', w') ->
  exists st1 w1,
    run_generations gens st w = Ok (st1, w1) /\
    generation_body g st1 w1 = Ok (st', w').
Proof.
  induction gens as [|g0 gens IH]; intros st st' w w' Hr; simpl in Hr.
  - apply bind_Ok in Hr as (st1 & w1 & Hg & Hr). inversion Hr; subst.
    exists st, w. done.
  - apply bind_Ok in Hr as (st0 & w0 & Hg & Hr).
    destruct (IH _ _ _ _ Hr) as (st1 & w1 & Hr1 & Hg1).
    exists st1, w1. split; [| done]. simpl.
    by rewrite (bind_Ok_intro _ _ _ _ _ Hg).
Qed.

Lemma best_solution_returns (st : ga_state) (w : world) :
  fitnesses st <> [] ->
  exists answer w', best_solution st w = Ok (answer, w').
Proof.
  intros Hne. destruct (np_argmax_spec (fitnesses st) Hne) as (b & y & Hb & _).
  unfold best_solution. rewrite Hb. unfold bind, lift, deref.
  destruct (is_array_valid _).
  - eexists. eexists. reflexivity.
  - rewrite generate_array_spec. eexists. eexists. reflexivity.
Qed.

End Answer.

(** ** Claims about the loop *)

Lemma sum_simulator_returns :
  forall array fuel, is_Some (@reactor_metrics sum_simulator array fuel).
Proof. intros array fuel. eexists. reflexivity. Qed.

(** C9 (as amended). From one generation to the next the mutation rate
    does not grow and it stays at or above 0.02 * 0.99: it is multiplied by
    0.99 as long as it exceeds 0.02, so its last decay takes it below
    0.02. The tournament size max(floor(100 * 0.99^generation), 2) does
    not grow and stays at or above 2. The rate with which the loop enters
    generation [g] is [mutation_rate_at g]. *)
Theorem schedules_decay (g : nat) :
  (mutation_rate_at (S g) <= mutation_rate_at g)%R /\
  (0.02 * 0.99 <= mutation_rate_at g)%R /\
  tournament_size_at (S g) <= tournament_size_at g /\
  2 <= tournament_size_at g /\
  Z.of_nat (tournament_size_at g) =
    Z.max (Int_part (TOURNAMENT_SIZE_BASE * TOURNAMENT_SIZE_FACTOR ^ g)) 2 /\
  (forall (Sim : Simulator) (Rng : NumpyRandom) (Srt : NumpySort)
          (w0 w1 w : world) pop st,
     initialize_population POPULATION_SIZE w0 = Ok (pop, w1) ->
     run_generations (seq 0 g) (GaState pop INITIAL_MUTATION_RATE []) w1
       = Ok (st, w) ->
     mutation_rate st = mutation_rate_at g).
Proof.
  split; [apply mutation_rate_at_le |].
  split; [apply mutation_rate_at_floor |].
  split; [apply tournament_size_at_le |].
  split; [apply tournament_size_at_range |].
  split.
  - rewrite tournament_size_at_eq. unfold TOURNAMENT_SIZE_BASE,
      TOURNAMENT_SIZE_FACTOR. lia.
  - intros Sim Rng Srt w0 w1 w pop st Hinit Hrun.
    rewrite initialize_population_spec in Hinit. inversion Hinit; subst pop w1.
    apply run_generations_ok in Hrun as (_ & _ & Hrate).
    + rewrite Hrate, length_seq. reflexivity.
    + apply initialize_population_ok.
Qed.

(** C9, the claim as stated fails: in generation 161 of the 200 the
    mutation rate is below 0.02. *)
Lemma mutation_rate_below_floor :
  161 < GENERATIONS /\ (mutation_rate_at 161 < 0.02)%R.
Proof.
  split; [unfold GENERATIONS; lia |].
  rewrite mutation_rate_at_decay by lia.
  pose proof pow99_161. lra.
Qed.

(** C8. In every generation [N] of a run, [ELITE_SIZE] members of the
    population are singled out such that no other member has a higher
    fitness; they open the next population, their arrays hold the same
    cells after the generation as before, and the next population has
    [POPULATION_SIZE] members. *)
Theorem elites_carry_over {Sim : Simulator} {Rng : NumpyRandom}
    {Srt : NumpySort} (N : nat) (w0 w1 w w' : world) (pop0 : list ref)
    (st st' : ga_state) :
  initialize_population POPULATION_SIZE w0 = Ok (pop0, w1) ->
  run_generations (seq 0 N) (GaState pop0 INITIAL_MUTATION_RATE []) w1
    = Ok (st, w) ->
  generation_body N st w = Ok (st', w') ->
  length (population st) = POPULATION_SIZE /\
  length (population st') = POPULATION_SIZE /\
  exists elite_indices,
    length elite_indices = ELITE_SIZE /\ NoDup elite_indices /\
    (forall i, i ∈ elite_indices -> i < POPULATION_SIZE) /\
    (forall i, i < POPULATION_SIZE ->
       fitness_cache w' !! (heap w !!! (population st !!! i))
       = Some (fitnesses st' !!! i)) /\
    (forall i j, i ∈ elite_indices -> j < POPULATION_SIZE ->
       j ∉ elite_indices ->
       (fitnesses st' !!! j <= fitnesses st' !!! i)%R) /\
    take ELITE_SIZE (population st')
      = (fun i => population st !!! i) <$> elite_indices /\
    (forall i, i ∈ elite_indices ->
       population st !!! i ∈ population st' /\
       heap w' !!! (population st !!! i) = heap w !!! (population st !!! i)).
Proof.
  intros Hinit Hrun Hgen.
  rewrite initialize_population_spec in Hinit. inversion Hinit; subst pop0 w1.
  apply run_generations_ok in Hrun as (Hok & _ & _);
    [| apply initialize_population_ok].
  destruct (generation_body_ok N st st' w w' Hok Hgen) as (Hok' & Hp & Hfs).
  destruct (generation_body_effect N st st' w w' Hgen)
    as (children & w2 & He & Hpop & Hn & _ & _ & Hcache & _).
  pose proof (executor_map_effect _ _ _ _ He) as (_ & _ & _ & _ & Hscores).
  destruct Hok as [Hsize Hgrids]. destruct Hok' as [Hsize' _].
  destruct (elite_indices_spec (fitnesses st'))
    as (Hel & Hnd & Hrange & Htop).
  { rewrite Hfs. unfold ELITE_SIZE, POPULATION_SIZE. lia. }
  rewrite Forall_forall, Hfs in Hrange. rewrite Hfs in Htop.
  split; [done |]. split; [done |].
  exists (slice_last ELITE_SIZE (argsort (fitnesses st'))).
  split; [done |]. split; [done |]. split; [done |]. split; [| split; [done |]].
  - intros i Hi. rewrite <- Hsize in Hi.
    apply lookup_lt_is_Some in Hi as [r Hr].
    rewrite (list_lookup_total_correct _ _ _ Hr).
    destruct (Hscores i r Hr) as (v & Hv & Hc).
    rewrite (list_lookup_total_correct _ _ _ Hv). by rewrite Hcache.
  - split.
    + rewrite Hpop, take_app_length'; [done |]. by rewrite length_fmap.
    + intros i Hi. split.
      * rewrite Hpop. apply elem_of_app. left.
        apply list_elem_of_fmap. exists i. done.
      * destruct Hp as [_ Hp]. apply Hp.
        rewrite Forall_forall in Hgrids. apply Hgrids.
        apply list_elem_of_lookup_total_2. rewrite Hsize. by apply Hrange.
Qed.

Lemma elites_carry_over_witness :
  exists st' w',
    @generation_body sum_simulator fixed_random stable_sort 0
      (GaState (replicate POPULATION_SIZE 0) INITIAL_MUTATION_RATE [])
      (World [np_zeros SIZE] ∅ (0 : @rng_state fixed_random) 0)
    = Ok (st', w') /\
    length (population st') = POPULATION_SIZE.
Proof.
  destruct (@generation_body_returns sum_simulator fixed_random stable_sort
              sum_simulator_returns 0
              (GaState (replicate POPULATION_SIZE 0) INITIAL_MUTATION_RATE [])
              (World [np_zeros SIZE] ∅ (0 : @rng_state fixed_random) 0))
    as (st' & w' & Hgen).
  - apply (@initialize_population_ok fixed_random
             (World [] ∅ (0 : @rng_state fixed_random) 0)).
  - exists st', w'. split; [exact Hgen |].
    exact (proj1 (proj2
      (@elites_carry_over sum_simulator fixed_random stable_sort 0
         (World [] ∅ (0 : @rng_state fixed_random) 0) _ _ _ _ _ _
         eq_refl eq_refl Hgen))).
Defined.

(** ** The scores a cache may hold *)

(** The score [fitness] computes for a grid when nothing is cached. *)
Definition ideal_score {Sim : Simulator} (array : ndarray) : R :=
  match reactor_metrics array CURRENT_FUEL with
  | Some m =>
      if is_array_valid array then
        (0.9 * energy_gen m + 0.3 * heat_gen m
         + calculate_heat_penalty (heat_diff m) + 1.5 * (efficiency m / 100)
         + calculate_symmetry_reward array * 2
         - calculate_diversity_penalty array * 5)%R
      else 0%R
  | None => 0%R
  end.

Definition cache_exact {Sim : Simulator} (cache : gmap (list Z) R) : Prop :=
  forall key v, cache !! key = Some v -> v = ideal_score key.

Section Exact.
Context {Sim : Simulator} {Rng : NumpyRandom}.
Hypothesis metrics_return :
  forall array fuel, is_Some (reactor_metrics array fuel).

Lemma fitness_exact (w : world) (individual : ref) :
  cache_exact (fitness_cache w) ->
  exists w',
    fitness individual CURRENT_FUEL w
      = Ok (ideal_score (heap w !!! individual), w') /\
    heap w' = heap w /\ np_random w' = np_random w /\
    cache_exact (fitness_cache w').
Proof.
  intros Hex.
  destruct (fitness_cache w !! (heap w !!! individual)) as [c|] eqn:Hc.
  - exists w. rewrite (fitness_hit w individual CURRENT_FUEL c Hc).
    by rewrite (Hex _ _ Hc).
  - destruct (metrics_return (heap w !!! individual) CURRENT_FUEL) as [m Hm].
    assert (forall s, s = ideal_score (heap w !!! individual) ->
              cache_exact (<[heap w !!! individual := s]> (fitness_cache w)))
      as Hins.
    { intros s Hs key v Hk.
      destruct (decide (key = heap w !!! individual)) as [->|Hne].
      - rewrite lookup_insert_eq in Hk. congruence.
      - rewrite lookup_insert_ne in Hk by done. eauto. }
    destruct (is_array_valid (heap w !!! individual)) eqn:Hv.
    + eexists. rewrite (fitness_miss_valid w individual CURRENT_FUEL m Hc Hm Hv).
      unfold ideal_score at 1. rewrite Hm, Hv.
      split; [reflexivity |]. cbn [heap np_random fitness_cache].
      split; [done |]. split; [done |]. apply Hins.
      unfold ideal_score. by rewrite Hm, Hv.
    + eexists.
      rewrite (fitness_miss_invalid w individual CURRENT_FUEL m Hc Hm Hv).
      unfold ideal_score at 1. rewrite Hm, Hv.
      split; [reflexivity |]. cbn [heap np_random fitness_cache].
      split; [done |]. split; [done |]. apply Hins.
      unfold ideal_score. by rewrite Hm, Hv.
Qed.

Lemma executor_map_exact (pop : list ref) :
  forall w : world,
  cache_exact (fitness_cache w) ->
  exists w',
    executor_map pop w
      = Ok ((fun r => ideal_score (heap w !!! r)) <$> pop, w') /\
    heap w' = heap w /\ np_random w' = np_random w /\
    cache_exact (fitness_cache w').
Proof.
  induction pop as [|ind rest IH]; intros w Hex.
  - exists w. done.
  - destruct (fitness_exact w ind Hex) as (w1 & Hf & Hh1 & Hr1 & Hex1).
    destruct (IH w1 Hex1) as (w2 & Hrest & Hh2 & Hr2 & Hex2).
    exists w2. cbn [executor_map fmap list_fmap].
    rewrite (bind_Ok_intro _ _ _ _ _ Hf), (bind_Ok_intro _ _ _ _ _ Hrest).
    rewrite Hh1. split; [reflexivity |].
    split; [congruence |]. split; [congruence | done].
Qed.

End Exact.

(** ** A scripted run *)

Lemma insert_last {A} (l : list A) (x y : A) :
  <[length l := y]> (l ++ [x]) = l ++ [y].
Proof.
  rewrite insert_app_r_alt by lia. by rewrite Nat.sub_diag.
Qed.

Section Scripted.
Variable floats : nat -> R.
Variable ints : nat -> Z.

Abbreviation SRng := (scripted_random floats ints).
Abbreviation SWorld := (@World (scripted_random floats ints)).

(** Breeding one child under the scripted generator and the simulator
    that accepts every grid: the cut is at 1, every cell is mutated or
    none, and the generator has made one more [rand] call. *)
Lemma breed_child_scripted (h : list (list Z)) (c : gmap (list Z) R)
    (s n : nat) population fitnesses k rate :
  @population_ok SRng (SWorld h c s n) population ->
  0 < k <= length population ->
  length population <= length fitnesses ->
  let mask :=
    replicate (np_prod SIZE) (bool_decide (unit_float (floats s) < rate)%R) in
  let values :=
    replicate (count_nonzero mask) (1 + ints (S s) `mod` 16)%Z in
  exists i1 i2,
    i1 < length population /\ i2 < length population /\
    @breed_child sum_simulator (scripted_random floats ints)
      population fitnesses k rate (SWorld h c s n) =
    Ok (length h,
        @World (scripted_random floats ints)
          (h ++ [boolean_assign
                   (cut_and_join 1 (h !!! (population !!! i1))
                      (h !!! (population !!! i2)))
                   mask values])
          c (S s) n).
Proof.
  intros [Hsize Hgrids] Hk Hfit mask values. rewrite Forall_forall in Hgrids.
  cbn [heap] in Hgrids.
  destruct (@tournament_selection_spec (scripted_random floats ints)
              (SWorld h c s n) population fitnesses k Hk Hfit)
    as (b1 & i1 & Ht1 & _ & Hi1 & _).
  destruct (@tournament_selection_spec (scripted_random floats ints)
              (SWorld h c s n) population fitnesses k Hk Hfit)
    as (b2 & i2 & Ht2 & _ & Hi2 & _).
  cbn [heap fitness_cache np_random metrics_calls] in Ht1, Ht2.
  change ((@choice (scripted_random floats ints) (length population) k s).2)
    with s in Ht1, Ht2.
  set (A := h !!! (population !!! i1)).
  set (B := h !!! (population !!! i2)).
  assert (length A = np_prod SIZE /\ length B = np_prod SIZE) as [HA HB].
  { split; apply Hgrids; by apply list_elem_of_lookup_total_2. }
  pose proof (@crossover_spec (scripted_random floats ints) (SWorld h c s n)
                (population !!! i1) (population !!! i2) HA HB) as Hc.
  cbv zeta in Hc. cbn [heap fitness_cache np_random metrics_calls] in Hc.
  change (@randint1 (scripted_random floats ints) 1
            (Z.of_nat (np_prod REACTOR_DIMENSIONS)) s) with (1%Z, s) in Hc.
  cbn [fst snd] in Hc. change (Z.to_nat 1) with 1 in Hc. fold A B in Hc.
  set (X := cut_and_join 1 A B) in *.
  assert (length X = np_prod SIZE) as HX.
  { unfold X. rewrite cut_and_join_length; [done | congruence]. }
  assert (@mutate (scripted_random floats ints) (length h) rate
            (SWorld (h ++ [X]) c s n)
          = Ok (length h,
                @World (scripted_random floats ints)
                  (h ++ [boolean_assign X mask values]) c (S s) n)) as Hm.
  { rewrite mutate_spec. cbn [heap fitness_cache np_random metrics_calls].
    rewrite list_lookup_total_middle by done. rewrite HX.
    change (@rand (scripted_random floats ints) (np_prod SIZE) s)
      with (replicate (np_prod SIZE) (unit_float (floats s)), S s).
    cbn [fst snd]. rewrite fmap_replicate. fold mask.
    change (@randint (scripted_random floats ints) 1 17 (count_nonzero mask)
              (S s)) with (values, S s).
    cbn [fst snd]. by rewrite insert_last. }
  exists i1, i2. split; [done |]. split; [done |].
  unfold breed_child.
  rewrite (bind_Ok_intro _ _ _ _ _ Ht1), (bind_Ok_intro _ _ _ _ _ Ht2),
    (bind_Ok_intro _ _ _ _ _ Hc), (bind_Ok_intro _ _ _ _ _ Hm).
  reflexivity.
Qed.

(** The mask and the values of the child bred at generator state [t]. *)
Definition scripted_mask (rate : R) (t : nat) : list bool :=
  replicate (np_prod SIZE) (bool_decide (unit_float (floats t) < rate)%R).

Definition scripted_values (rate : R) (t : nat) : list Z :=
  replicate (count_nonzero (scripted_mask rate t))
    (1 + ints (S t) `mod` 16)%Z.

(** A breeding loop all of whose children come out as the grid [G]. *)
Lemma breed_scripted (c : gmap (list Z) R) (m : nat) population fitnesses k
    rate (G : list Z) (n : nat) :
  forall (h : list (list Z)) (s : nat) (new_population : list nat),
  @population_ok SRng (SWorld h c s m) population ->
  0 < k <= length population ->
  length population <= length fitnesses ->
  (forall j i1 i2, j < n -> i1 < length population ->
     i2 < length population ->
     boolean_assign
       (cut_and_join 1 (h !!! (population !!! i1)) (h !!! (population !!! i2)))
       (scripted_mask rate (s + j)) (scripted_values rate (s + j)) = G) ->
  @breed sum_simulator SRng n population fitnesses k rate new_population
    (SWorld h c s m) =
  Ok (new_population ++ seq (length h) n,
      SWorld (h ++ replicate n G) c (s + n) m).
Proof.
  induction n as [|n IH]; intros h s new_population Hok Hk Hfit Hchild.
  - cbn [breed seq replicate]. rewrite !app_nil_r, Nat.add_0_r. reflexivity.
  - destruct (breed_child_scripted h c s m population fitnesses k rate Hok Hk
                Hfit)
      as (i1 & i2 & Hi1 & Hi2 & Hb).
    cbv zeta in Hb. fold (scripted_mask rate s) in Hb.
    fold (scripted_values rate s) in Hb.
    pose proof (Hchild 0 i1 i2 ltac:(lia) Hi1 Hi2) as HG.
    rewrite Nat.add_0_r in HG. rewrite HG in Hb.
    cbn [breed]. rewrite (bind_Ok_intro _ _ _ _ _ Hb).
    assert (forall i, i < length population ->
              (h ++ [G]) !!! (population !!! i) = h !!! (population !!! i))
      as Hsame.
    { intros i Hi. apply lookup_total_app_l.
      destruct Hok as [_ Hall]. rewrite Forall_forall in Hall.
      apply Hall. by apply list_elem_of_lookup_total_2. }
    rewrite IH.
    + rewrite <- !app_assoc, length_app. cbn [length app seq replicate].
      replace (length h + 1) with (S (length h)) by lia.
      replace (S s + n) with (s + S n) by lia. reflexivity.
    + eapply (@population_ok_preserved SRng (SWorld h c s m)); [| exact Hok].
      split; cbn [heap]; [rewrite length_app; lia |].
      intros r Hr. by apply lookup_total_app_l.
    + done.
    + done.
    + intros j i1' i2' Hj Hi1' Hi2'. rewrite !Hsame by done.
      replace (S s + j) with (s + S j) by lia. apply Hchild; [lia | done | done].
Qed.

Context {Srt : NumpySort}.

(** A generation all of whose children come out as the grid [G]: the
    fitness vector holds the scores of the population it started from,
    the elites open the next population and the children, new arrays
    holding [G], complete it. *)
Lemma generation_scripted (g : nat) (st : ga_state) (h : list (list Z))
    (c : gmap (list Z) R) (s m : nat) (G : list Z) :
  @population_ok SRng (SWorld h c s m) (population st) ->
  @cache_exact sum_simulator c ->
  (forall j i1 i2, j < POPULATION_SIZE - ELITE_SIZE ->
     i1 < length (population st) -> i2 < length (population st) ->
     boolean_assign
       (cut_and_join 1 (h !!! (population st !!! i1))
          (h !!! (population st !!! i2)))
       (scripted_mask (mutation_rate st) (s + j))
       (scripted_values (mutation_rate st) (s + j)) = G) ->
  let fs := (fun r => @ideal_score sum_simulator (h !!! r)) <$> population st in
  let elites :=
    (fun i => population st !!! i) <$> slice_last ELITE_SIZE (argsort fs) in
  exists c' m',
    @generation_body sum_simulator SRng Srt g st (SWorld h c s m) =
    Ok (GaState (elites ++ seq (length h) (POPULATION_SIZE - ELITE_SIZE))
          (adjust_mutation_rate (mutation_rate st)) fs,
        SWorld (h ++ replicate (POPULATION_SIZE - ELITE_SIZE) G) c'
          (s + (POPULATION_SIZE - ELITE_SIZE)) m') /\
    @cache_exact sum_simulator c'.
Proof.
  intros Hok Hex Hchild fs elites.
  destruct (@executor_map_exact sum_simulator SRng sum_simulator_returns
              (population st) (SWorld h c s m) Hex)
    as ([h' c' s' m'] & He & Hh & Hs & Hex').
  cbn [heap np_random fitness_cache] in He, Hh, Hs, Hex'. subst h' s'.
  fold fs in He.
  exists c', m'. split; [| done].
  unfold generation_body. rewrite (bind_Ok_intro _ _ _ _ _ He).
  fold elites.
  assert (@population_ok SRng (SWorld h c' s m') (population st)) as Hok'
    by (destruct Hok as [Hl Hall]; split; done).
  assert (0 < tournament_size_at g <= length (population st)) as Hk.
  { pose proof (tournament_size_at_range g). destruct Hok as [-> _].
    unfold POPULATION_SIZE. lia. }
  assert (length (population st) <= length fs) as Hfit
    by (unfold fs; by rewrite length_fmap).
  rewrite (bind_Ok_intro _ _ _ _ _
             (breed_scripted c' m' (population st) fs (tournament_size_at g)
                (mutation_rate st) G (POPULATION_SIZE - ELITE_SIZE) h s elites
                Hok' Hk Hfit Hchild)).
  reflexivity.
Qed.

End Scripted.

(** ** The run whose answer carries another grid's fitness *)

Definition BRED : nat := POPULATION_SIZE - ELITE_SIZE.

(** No mutation before generation 198, every cell mutated from then on. *)
Definition late_floats (s : nat) : R :=
  if decide (s < 198 * BRED) then 0.5%R else 0%R.

(** Mutated cells become 1 in generation 198 and 2 in generation 199. *)
Definition late_ints (s : nat) : Z :=
  if decide (s <= 199 * BRED) then 0%Z else 1%Z.

Definition late_random : NumpyRandom := scripted_random late_floats late_ints.

Definition uniform_grid (v : Z) : ndarray := replicate (np_prod SIZE) v.

Lemma count_nonzero_replicate_false (n : nat) :
  count_nonzero (replicate n false) = 0.
Proof.
  induction n as [|n IH]; [done |].
  cbn [replicate]. by rewrite count_nonzero_cons.
Qed.

Lemma boolean_assign_none (array : ndarray) (values : list Z) :
  boolean_assign array (replicate (length array) false) values = array.
Proof.
  induction array as [|x array IH]; [done |].
  cbn [length replicate boolean_assign]. by rewrite IH.
Qed.

Lemma quiet_child (rate : R) (t : nat) (X : ndarray) :
  t < 198 * BRED -> (rate <= 0.1)%R -> length X = np_prod SIZE ->
  boolean_assign X (scripted_mask late_floats rate t)
    (scripted_values late_floats late_ints rate t) = X.
Proof.
  intros Ht Hrate HX. unfold scripted_values, scripted_mask, late_floats.
  case_decide; [| lia].
  rewrite (bool_decide_eq_false_2 (unit_float 0.5 < rate)%R).
  - rewrite <- HX. apply boolean_assign_none.
  - unfold unit_float. repeat case_decide; lra.
Qed.

Lemma loud_child (rate : R) (t : nat) (X : ndarray) :
  198 * BRED <= t -> (0 < rate)%R -> length X = np_prod SIZE ->
  boolean_assign X (scripted_mask late_floats rate t)
    (scripted_values late_floats late_ints rate t)
  = uniform_grid (1 + late_ints (S t) `mod` 16).
Proof.
  intros Ht Hrate HX.
  unfold scripted_values, scripted_mask, late_floats, uniform_grid.
  case_decide; [lia |].
  rewrite (bool_decide_eq_true_2 (unit_float 0 < rate)%R).
  - rewrite count_nonzero_replicate_true. rewrite <- HX.
    apply boolean_assign_all. by rewrite length_replicate.
  - unfold unit_float. repeat case_decide; lra.
Qed.

Lemma uniform_grid_facts (v : Z) :
  (0 <= v <= 2)%Z ->
  (forall axis, axis < 3 -> np_flip axis (uniform_grid v) = uniform_grid v) /\
  grid_sum (uniform_grid v) = (27 * v)%Z /\
  length (np_unique (uniform_grid v)) = 1 /\
  length (uniform_grid v) = 27.
Proof.
  intros Hv.
  assert (v = 0 \/ v = 1 \/ v = 2)%Z as [-> | [-> | ->]] by lia.
  all: split; [intros [|[|[|axis]]] Haxis; [vm_compute; reflexivity ..| lia] |].
  all: split; [vm_compute; reflexivity |].
  all: split; vm_compute; reflexivity.
Qed.

Lemma ideal_score_uniform (v : Z) :
  (0 <= v <= 2)%Z ->
  @ideal_score sum_simulator (uniform_grid v)
  = (0.9 * (27 * IZR v) + 6 - 5 * (26 / 27))%R.
Proof.
  intros Hv.
  destruct (uniform_grid_facts v Hv) as (Hflip & Hsum & Huniq & Hlen).
  unfold ideal_score. cbn [reactor_metrics is_array_valid sum_simulator
    sum_metrics energy_gen heat_gen heat_diff efficiency].
  rewrite calculate_symmetry_reward_eq.
  unfold calculate_heat_penalty, calculate_diversity_penalty.
  rewrite !Hflip by lia. rewrite abs_diff_sum_diag, Hsum, Huniq, Hlen.
  rewrite Ropp_0, exp_0, mult_IZR.
  change (IZR (Z.of_nat 27 - Z.of_nat 1)) with 26%R.
  change (IZR (Z.of_nat 27)) with 27%R.
  case_decide; lra.
Qed.

Section LateRun.
Context {Srt : NumpySort}.

Abbreviation LWorld := (@World late_random).

Lemma elites_members (pop : list nat) (fs : list R) :
  length fs = length pop -> ELITE_SIZE <= length pop ->
  let elites :=
    (fun i => pop !!! i) <$> slice_last ELITE_SIZE (argsort fs) in
  length elites = ELITE_SIZE /\ Forall (fun r => r ∈ pop) elites.
Proof.
  intros Hlen Hn elites.
  destruct (elite_indices_spec fs) as (Hel & _ & Hrange & _); [lia |].
  split; [unfold elites; by rewrite length_fmap |].
  apply Forall_fmap. eapply Forall_impl; [exact Hrange |]. simpl.
  intros i Hi. apply list_elem_of_lookup_total_2. lia.
Qed.

(** The state in which the loop stays as long as nothing mutates: every
    member of the population is an all-zero grid. *)
Definition quiet (st : ga_state) (h : list (list Z)) (c : gmap (list Z) R)
  : Prop :=
  @population_ok late_random (LWorld h c 0 0) (population st) /\
  Forall (fun r => h !!! r = uniform_grid 0) (population st) /\
  @cache_exact sum_simulator c /\
  (0.02 * 0.99 <= mutation_rate st <= 0.1)%R.

Lemma quiet_generation (g : nat) (st : ga_state) (h : list (list Z))
    (c : gmap (list Z) R) (s m : nat) :
  quiet st h c -> s + BRED <= 198 * BRED ->
  exists st' h' c' m',
    @generation_body sum_simulator late_random Srt g st (LWorld h c s m)
      = Ok (st', LWorld h' c' (s + BRED) m') /\
    quiet st' h' c'.
Proof.
  intros (Hok & Hzero & Hex & Hrate) Hs.
  assert (@population_ok late_random (LWorld h c s m) (population st)) as Hok'
    by exact Hok.
  rewrite Forall_forall in Hzero.
  destruct (generation_scripted late_floats late_ints g st h c s m
              (uniform_grid 0) Hok' Hex) as (c' & m' & Hg & Hex').
  { intros j i1 i2 Hj Hi1 Hi2.
    rewrite !Hzero by by apply list_elem_of_lookup_total_2.
    change (cut_and_join 1 (uniform_grid 0) (uniform_grid 0))
      with (uniform_grid 0).
    apply quiet_child; [unfold BRED in Hs |- *; lia | lra | reflexivity]. }
  cbv zeta in Hg.
  set (fs := (fun r => @ideal_score sum_simulator (h !!! r)) <$> population st)
    in Hg.
  set (elites := (fun i => population st !!! i) <$> _) in Hg.
  destruct (generation_body_ok g st _ _ _ Hok' Hg) as (Hok1 & _ & _).
  destruct Hok as [Hsize Hgrids].
  destruct (elites_members (population st) fs) as [Hel Hmem].
  { unfold fs. by rewrite length_fmap. }
  { rewrite Hsize. unfold ELITE_SIZE, POPULATION_SIZE. lia. }
  fold elites in Hel, Hmem.
  eexists. eexists. exists c', m'. split; [exact Hg |].
  split; [exact Hok1 |]. split; [| split; [done |]].
  - cbn [population]. apply Forall_app. split.
    + eapply Forall_impl; [exact Hmem |]. simpl. intros r Hr.
      rewrite lookup_total_app_l; [by apply Hzero |].
      rewrite Forall_forall in Hgrids. by apply Hgrids.
    + apply Forall_seq. intros r Hr.
      rewrite lookup_total_app_r by lia.
      apply lookup_total_replicate_2. lia.
  - cbn [mutation_rate].
    pose proof (adjust_mutation_rate_le (mutation_rate st) ltac:(lra)).
    pose proof (adjust_mutation_rate_floor (mutation_rate st) ltac:(lra)).
    lra.
Qed.

Lemma quiet_run (n : nat) :
  forall (g : nat) (st : ga_state) (h : list (list Z)) (c : gmap (list Z) R)
         (s m : nat),
  quiet st h c -> s + n * BRED <= 198 * BRED ->
  exists st' h' c' m',
    @run_generations sum_simulator late_random Srt (seq g n) st
      (LWorld h c s m)
      = Ok (st', LWorld h' c' (s + n * BRED) m') /\
    quiet st' h' c'.
Proof.
  induction n as [|n IH]; intros g st h c s m Hq Hs.
  - exists st, h, c, m. cbn [seq run_generations].
    rewrite Nat.mul_0_l, Nat.add_0_r. done.
  - destruct (quiet_generation g st h c s m Hq) as (st1 & h1 & c1 & m1 & Hg & Hq1).
    { lia. }
    destruct (IH (S g) st1 h1 c1 (s + BRED) m1 Hq1)
      as (st' & h' & c' & m' & Hr & Hq'); [lia |].
    exists st', h', c', m'. split; [| done].
    cbn [seq run_generations]. rewrite (bind_Ok_intro _ _ _ _ _ Hg), Hr.
    do 3 f_equal. lia.
Qed.

(** A generation in which every cell of every child is mutated to [v]. *)
Lemma loud_generation (g : nat) (st : ga_state) (h : list (list Z))
    (c : gmap (list Z) R) (s m : nat) (v : Z) :
  @population_ok late_random (LWorld h c s m) (population st) ->
  @cache_exact sum_simulator c ->
  (0 < mutation_rate st)%R -> 198 * BRED <= s ->
  (forall j, j < BRED -> (1 + late_ints (S (s + j)) `mod` 16)%Z = v) ->
  let fs := (fun r => @ideal_score sum_simulator (h !!! r)) <$> population st in
  let elites :=
    (fun i => population st !!! i) <$> slice_last ELITE_SIZE (argsort fs) in
  exists c' m',
    @generation_body sum_simulator late_random Srt g st (LWorld h c s m) =
    Ok (GaState (elites ++ seq (length h) BRED)
          (adjust_mutation_rate (mutation_rate st)) fs,
        LWorld (h ++ replicate BRED (uniform_grid v)) c' (s + BRED) m') /\
    @cache_exact sum_simulator c'.
Proof.
  intros Hok Hex Hrate Hs Hv.
  apply (generation_scripted late_floats late_ints g st h c s m
           (uniform_grid v) Hok Hex).
  intros j i1 i2 Hj Hi1 Hi2.
  rewrite loud_child; [by rewrite Hv | lia | done |].
  destruct Hok as [_ Hgrids]. rewrite Forall_forall in Hgrids.
  cbn [heap] in Hgrids.
  rewrite cut_and_join_length.
  - apply Hgrids. by apply list_elem_of_lookup_total_2.
  - transitivity (np_prod SIZE); [| symmetry];
      apply Hgrids; by apply list_elem_of_lookup_total_2.
Qed.

Lemma np_argmax_step (fs : list R) (a : nat) (x y : R) :
  (x < y)%R ->
  (forall i, i < a -> fs !! i = Some x) ->
  fs !! a = Some y ->
  (forall i z, fs !! i = Some z -> z = x \/ z = y) ->
  np_argmax fs = Ok a.
Proof.
  intros Hxy Hlow Ha Hall.
  destruct (np_argmax_spec fs) as (b & top & Hb & Htop & Hmax & Hfirst).
  { intros ->. done. }
  rewrite Hb. f_equal.
  pose proof (Hmax a y Ha) as Hy.
  destruct (Hall b top Htop) as [-> | ->]; [lra |].
  destruct (decide (b < a)) as [Hlt|Hge].
  - rewrite (Hlow b Hlt) in Htop. inversion Htop. lra.
  - destruct (decide (a < b)) as [Hlt|Hge']; [| lia].
    pose proof (Hfirst a y Hlt Ha). lra.
Qed.

Lemma late_ints_198 (j : nat) :
  j < BRED -> (1 + late_ints (S (198 * BRED + j)) `mod` 16)%Z = 1%Z.
Proof.
  intros Hj. unfold late_ints. case_decide; [reflexivity | lia].
Qed.

Lemma late_ints_199 (j : nat) :
  (1 + late_ints (S (198 * BRED + BRED + j)) `mod` 16)%Z = 2%Z.
Proof.
  unfold late_ints. case_decide; [lia | reflexivity].
Qed.

(** Generations 198 and 199 from the quiet state: the children of 198 are
    all-one grids and beat the all-zero elites, the children of 199 are
    all-two grids and take the places of the all-one grids. *)
Lemma last_two_generations (st : ga_state) (h : list (list Z))
    (c : gmap (list Z) R) (m : nat) :
  quiet st h c ->
  exists st3 (h2 h3 : list (list Z)) c3 s3 m3,
    @run_generations sum_simulator late_random Srt [198; 199] st
      (LWorld h c (198 * BRED) m)
      = Ok (st3, LWorld h3 c3 s3 m3) /\
    @cache_exact sum_simulator c3 /\
    np_argmax (fitnesses st3) = Ok ELITE_SIZE /\
    fitnesses st3 !!! ELITE_SIZE = @ideal_score sum_simulator (uniform_grid 1) /\
    population st3 !!! ELITE_SIZE = length h2 /\
    h3 !!! length h2 = uniform_grid 2.
Proof.
  intros (Hok & Hzero & Hex & Hrate).
  (* generation 198 *)
  destruct (loud_generation 198 st h c (198 * BRED) m 1 Hok Hex ltac:(lra)
              ltac:(lia) late_ints_198) as (c2 & m2 & Hg1 & Hex2).
  cbv zeta in Hg1.
  set (fs1 := (fun r => @ideal_score sum_simulator (h !!! r)) <$> population st)
    in Hg1.
  set (elites1 := (fun i => population st !!! i) <$> _) in Hg1.
  set (st2 := GaState (elites1 ++ seq (length h) BRED) _ fs1) in Hg1.
  set (h2 := h ++ replicate BRED (uniform_grid 1)) in Hg1.
  destruct (generation_body_ok 198 st st2 (LWorld h c (198 * BRED) m) _
              Hok Hg1) as (Hok2 & _ & _).
  destruct Hok as [Hsize Hgrids]. rewrite Forall_forall in Hgrids, Hzero.
  cbn [heap] in Hgrids.
  destruct (elites_members (population st) fs1) as [Hel1 Hmem1].
  { unfold fs1. by rewrite length_fmap. }
  { rewrite Hsize. unfold ELITE_SIZE, POPULATION_SIZE. lia. }
  fold elites1 in Hel1, Hmem1. rewrite Forall_forall in Hmem1.
  (* the population of generation 199 *)
  assert (forall i, i < ELITE_SIZE ->
            exists r, population st2 !! i = Some r /\
                      h2 !!! r = uniform_grid 0) as Hlow.
  { intros i Hi. cbn [population st2].
    destruct (lookup_lt_is_Some_2 elites1 i ltac:(lia)) as [r Hr].
    exists r. rewrite lookup_app_l by lia. split; [done |].
    assert (r ∈ population st) as Hin
      by (apply Hmem1; by eapply list_elem_of_lookup_2).
    unfold h2. rewrite lookup_total_app_l by by apply Hgrids.
    by apply Hzero. }
  assert (forall i, ELITE_SIZE <= i < POPULATION_SIZE ->
            population st2 !! i = Some (length h + (i - ELITE_SIZE)) /\
            h2 !!! (length h + (i - ELITE_SIZE)) = uniform_grid 1) as Hhigh.
  { intros i Hi. cbn [population st2]. split.
    - rewrite lookup_app_r by lia. rewrite Hel1.
      apply lookup_seq. unfold BRED; lia.
    - unfold h2. rewrite lookup_total_app_r by lia.
      apply lookup_total_replicate_2. unfold BRED; lia. }
  (* generation 199 *)
  destruct (loud_generation 199 st2 h2 c2 (198 * BRED + BRED) m2 2 Hok2 Hex2)
    as (c3 & m3 & Hg2 & Hex3).
  { cbn [mutation_rate st2].
    pose proof (adjust_mutation_rate_floor (mutation_rate st) ltac:(lra)). lra. }
  { lia. }
  { intros j _. apply late_ints_199. }
  cbv zeta in Hg2.
  set (fs2 := (fun r => @ideal_score sum_simulator (h2 !!! r)) <$> population st2)
    in Hg2.
  set (elites2 := (fun i => population st2 !!! i) <$> _) in Hg2.
  destruct Hok2 as [Hsize2 Hgrids2].
  destruct (elites_members (population st2) fs2) as [Hel2 _].
  { unfold fs2. by rewrite length_fmap. }
  { rewrite Hsize2. unfold ELITE_SIZE, POPULATION_SIZE. lia. }
  fold elites2 in Hel2.
  (* the fitness vector that survives the loop *)
  assert (forall i, i < ELITE_SIZE ->
            fs2 !! i = Some (@ideal_score sum_simulator (uniform_grid 0)))
    as Hfs_low.
  { intros i Hi. destruct (Hlow i Hi) as (r & Hr & Hc).
    unfold fs2. by rewrite list_lookup_fmap, Hr, <- Hc. }
  assert (forall i, ELITE_SIZE <= i < POPULATION_SIZE ->
            fs2 !! i = Some (@ideal_score sum_simulator (uniform_grid 1)))
    as Hfs_high.
  { intros i Hi. destruct (Hhigh i Hi) as (Hr & Hc).
    unfold fs2. by rewrite list_lookup_fmap, Hr, <- Hc. }
  eexists. exists h2. eexists. exists c3. eexists. exists m3.
  split.
  { cbn [run_generations].
    rewrite (bind_Ok_intro _ _ _ _ _ Hg1), (bind_Ok_intro _ _ _ _ _ Hg2).
    reflexivity. }
  split; [done |]. cbn [fitnesses population].
  split; [| split; [| split]].
  - apply (np_argmax_step fs2 ELITE_SIZE
             (@ideal_score sum_simulator (uniform_grid 0))
             (@ideal_score sum_simulator (uniform_grid 1))).
    + rewrite !ideal_score_uniform by lia. lra.
    + exact Hfs_low.
    + apply Hfs_high. unfold ELITE_SIZE, POPULATION_SIZE. lia.
    + intros i z Hz.
      assert (i < POPULATION_SIZE) as Hi.
      { apply lookup_lt_Some in Hz. unfold fs2 in Hz.
        by rewrite length_fmap, Hsize2 in Hz. }
      destruct (decide (i < ELITE_SIZE)) as [Hlt|Hge].
      * rewrite Hfs_low in Hz by done. inversion Hz. by left.
      * rewrite Hfs_high in Hz by lia. inversion Hz. by right.
  - apply list_lookup_total_correct, Hfs_high.
    unfold ELITE_SIZE, POPULATION_SIZE. lia.
  - apply list_lookup_total_correct.
    rewrite lookup_app_r by lia. rewrite Hel2, Nat.sub_diag.
    apply lookup_seq. unfold BRED, ELITE_SIZE, POPULATION_SIZE. lia.
  - rewrite lookup_total_app_r by lia. rewrite Nat.sub_diag.
    apply lookup_total_replicate_2. unfold BRED, ELITE_SIZE, POPULATION_SIZE. lia.
Qed.

Lemma run_generations_app (a b : list nat) :
  forall (st : ga_state) (w : @world late_random),
  @run_generations sum_simulator late_random Srt (a ++ b) st w =
  bind (@run_generations sum_simulator late_random Srt a st)
    (@run_generations sum_simulator late_random Srt b) w.
Proof.
  induction a as [|g a IH]; intros st w; [reflexivity |].
  cbn [app run_generations]. unfold bind.
  destruct (generation_body g st w) as [[st1 w1]|e]; [| reflexivity].
  rewrite IH. reflexivity.
Qed.

End LateRun.

(** C1, evaluated on a run. With the simulator that accepts every grid and
    scores the sum of the cells, and a generator that mutates nothing
    before generation 198, every cell to 1 in generation 198 and every
    cell to 2 in generation 199, the run answers an all-two grid of the
    population bred last, which was never evaluated, together with the
    fitness of an all-one grid of the population before it: evaluating
    the answer gives a different, higher score. *)
Theorem answer_carries_stale_fitness {Srt : NumpySort} :
  exists answer v w',
    @genetic_algorithm sum_simulator late_random Srt
      (@World late_random [] ∅ 0 0) = Ok ((answer, v), w') /\
    heap w' !!! answer = uniform_grid 2 /\
    v = @ideal_score sum_simulator (uniform_grid 1) /\
    (exists w'',
       @fitness sum_simulator late_random answer CURRENT_FUEL w'
       = Ok (@ideal_score sum_simulator (uniform_grid 2), w'')) /\
    (v < @ideal_score sum_simulator (uniform_grid 2))%R.
Proof.
  set (st0 := GaState (replicate POPULATION_SIZE 0) INITIAL_MUTATION_RATE []).
  assert (quiet st0 [uniform_grid 0] ∅) as Hq0.
  { split; [| split; [| split]].
    - apply (@initialize_population_ok late_random (@World late_random [] ∅ 0 0)).
    - apply Forall_replicate. reflexivity.
    - intros key x Hk. by rewrite lookup_empty in Hk.
    - cbn [mutation_rate st0]. unfold INITIAL_MUTATION_RATE. lra. }
  destruct (quiet_run 198 0 st0 [uniform_grid 0] ∅ 0 0 Hq0 ltac:(lia))
    as (st1 & h1 & c1 & m1 & Hrun1 & Hq1).
  destruct (last_two_generations st1 h1 c1 m1 Hq1)
    as (st3 & h2 & h3 & c3 & s3 & m3 & Hrun2 & Hex3 & Hbest & Hv & Hans & Hgrid).
  assert (@run_generations sum_simulator late_random Srt (seq 0 GENERATIONS) st0
            (@World late_random [uniform_grid 0] ∅ 0 0)
          = Ok (st3, @World late_random h3 c3 s3 m3)) as Hrun.
  { change (seq 0 GENERATIONS) with (seq 0 198 ++ [198; 199]).
    rewrite run_generations_app, (bind_Ok_intro _ _ _ _ _ Hrun1).
    exact Hrun2. }
  exists (length h2), (@ideal_score sum_simulator (uniform_grid 1)).
  exists (@World late_random h3 c3 s3 m3).
  split; [| split; [exact Hgrid | split; [reflexivity | split]]].
  - unfold genetic_algorithm.
    rewrite (bind_Ok_intro _ _ _ _ _ (initialize_population_spec _ _)).
    rewrite (bind_Ok_intro _ _ _ _ _ Hrun).
    unfold best_solution. rewrite Hbest. unfold bind, lift, deref.
    cbn [is_array_valid sum_simulator]. rewrite Hans, Hv. reflexivity.
  - destruct (@fitness_exact sum_simulator late_random sum_simulator_returns
                (@World late_random h3 c3 s3 m3) (length h2) Hex3)
      as (w'' & Hf & _).
    cbn [heap] in Hf. rewrite Hgrid in Hf. by exists w''.
  - rewrite !ideal_score_uniform by lia. lra.
Qed.

(** ** The run returns *)

(** When [reactor_metrics] never raises, the run returns an answer,
    whatever the generator draws and however the sort orders equal
    scores. *)
Theorem genetic_algorithm_returns {Sim : Simulator} {Rng : NumpyRandom}
    {Srt : NumpySort} (w : world) :
  (forall array fuel, is_Some (reactor_metrics array fuel)) ->
  exists answer v w', genetic_algorithm w = Ok ((answer, v), w').
Proof.
  intros Hmetrics. unfold genetic_algorithm.
  rewrite (bind_Ok_intro _ _ _ _ _ (initialize_population_spec _ _)).
  pose proof (initialize_population_ok w) as Hok.
  set (w1 := World (heap w ++ [np_zeros SIZE]) _ _ _) in *.
  set (st0 := GaState _ INITIAL_MUTATION_RATE []).
  destruct (run_generations_returns Hmetrics (seq 0 GENERATIONS) st0 w1 Hok)
    as (st & w2 & Hrun).
  rewrite (bind_Ok_intro _ _ _ _ _ Hrun).
  assert (fitnesses st <> []) as Hne.
  { change (seq 0 GENERATIONS) with (seq 0 199 ++ [199]) in Hrun.
    apply run_generations_last in Hrun as (st1 & w3 & Hrun1 & Hgen).
    apply run_generations_ok in Hrun1 as (Hok1 & _); [| exact Hok].
    destruct (generation_body_ok 199 st1 st w3 w2 Hok1 Hgen) as (_ & _ & Hlen).
    intros Hnil. rewrite Hnil in Hlen. discriminate Hlen. }
  destruct (best_solution_returns st w2 Hne) as ([answer v] & w' & Hbest).
  exists answer, v, w'. exact Hbest.
Qed.

Lemma genetic_algorithm_returns_witness :
  exists answer v w',
    @genetic_algorithm sum_simulator fixed_random stable_sort
      (@World fixed_random [] ∅ 0 0) = Ok ((answer, v), w').
Proof.
  apply (@genetic_algorithm_returns sum_simulator fixed_random stable_sort).
  exact sum_simulator_returns.
Defined.

(** * Further properties of the code *)

(** ** The pure score terms *)

Lemma abs_diff_sum_zero (x y : ndarray) :
  length x = length y -> abs_diff_sum x y = 0%Z -> x = y.
Proof.
  revert y. induction x as [|a x IH]; intros [|b y] Hlen Hsum;
    try done.
  unfold abs_diff_sum in Hsum. cbn [zip_with foldr] in Hsum.
  pose proof (abs_diff_sum_nonneg x y) as Hnn. unfold abs_diff_sum in Hnn.
  assert (a = b) as -> by lia.
  f_equal. apply IH; [by inversion Hlen |].
  unfold abs_diff_sum. lia.
Qed.

Lemma np_flip_length (axis : nat) (array : ndarray) :
  length (np_flip axis array) = length array.
Proof. unfold np_flip. by rewrite length_fmap, length_seq. Qed.

Lemma exp_neg_le_1 (d : Z) :
  (0 <= d)%Z -> (0 < exp (- IZR d) <= 1)%R /\ (exp (- IZR d) = 1%R -> d = 0%Z).
Proof.
  intros Hd. split; [split; [apply exp_pos |] |].
  - destruct (decide (d = 0%Z)) as [->|Hne].
    + rewrite Ropp_0, exp_0. lra.
    + assert (0 < IZR d)%R by (apply IZR_lt; lia).
      pose proof (exp_increasing (- IZR d) 0 ltac:(lra)) as Hlt.
      rewrite exp_0 in Hlt. lra.
  - intros Hone. destruct (decide (d = 0%Z)) as [->|Hne]; [done |].
    assert (0 < IZR d)%R by (apply IZR_lt; lia).
    pose proof (exp_increasing (- IZR d) 0 ltac:(lra)) as Hlt.
    rewrite exp_0 in Hlt. lra.
Qed.

(** X1. The symmetry reward lies in (0, 3], and it is 3 exactly for the
    grids that equal their mirror image along each of the three axes. *)
Theorem symmetry_reward_range (array : ndarray) :
  (0 < calculate_symmetry_reward array <= 3)%R /\
  (calculate_symmetry_reward array = 3%R <->
   forall axis, axis < 3 -> np_flip axis array = array).
Proof.
  rewrite calculate_symmetry_reward_eq.
  destruct (exp_neg_le_1 _ (abs_diff_sum_nonneg array (np_flip 0 array)))
    as [[H0p H0l] H0e].
  destruct (exp_neg_le_1 _ (abs_diff_sum_nonneg array (np_flip 1 array)))
    as [[H1p H1l] H1e].
  destruct (exp_neg_le_1 _ (abs_diff_sum_nonneg array (np_flip 2 array)))
    as [[H2p H2l] H2e].
  split; [lra |]. split.
  - intros Hsum axis Haxis.
    assert (abs_diff_sum array (np_flip axis array) = 0%Z) as Hz.
    { destruct axis as [|[|[|axis]]]; [apply H0e | apply H1e | apply H2e | lia];
        lra. }
    symmetry. apply abs_diff_sum_zero; [by rewrite np_flip_length | done].
  - intros Hflip. rewrite !Hflip by lia.
    rewrite abs_diff_sum_diag, Ropp_0, exp_0. lra.
Qed.

Lemma size_list_to_set_le (l : list Z) :
  size (list_to_set l : gset Z) <= length l.
Proof. rewrite <- np_unique_length. apply np_unique_le_length. Qed.

Lemma size_list_to_set_NoDup (l : list Z) :
  size (list_to_set l : gset Z) = length l <-> NoDup l.
Proof.
  split; [| apply size_list_to_set].
  induction l as [|x l IH]; intros Hsize; [constructor |].
  pose proof (size_list_to_set_le l) as Hle.
  cbn [list_to_set foldr length] in Hsize.
  destruct (decide (x ∈ l)) as [Hin|Hnin].
  - exfalso.
    assert ({[x]} ∪ (list_to_set l : gset Z) = list_to_set l) as Heq.
    { apply set_eq. intros y. rewrite elem_of_union, elem_of_singleton,
        !elem_of_list_to_set. split; [intros [-> | Hy]; done | by right]. }
    rewrite Heq in Hsize. lia.
  - rewrite size_union in Hsize.
    + rewrite size_singleton in Hsize. constructor; [done |]. apply IH. lia.
    + apply disjoint_singleton_l. by rewrite elem_of_list_to_set.
Qed.

(** X2. For a non-empty array the diversity penalty lies in [0, 1), and it
    is 0 exactly when no cell value occurs twice. *)
Theorem diversity_penalty_range (array : ndarray) :
  array <> [] ->
  (0 <= calculate_diversity_penalty array < 1)%R /\
  (calculate_diversity_penalty array = 0%R <-> NoDup array).
Proof.
  intros Hne. rewrite calculate_diversity_penalty_eq.
  pose proof (size_list_to_set_le array) as Hle.
  pose proof (np_unique_nonempty array Hne) as Hge.
  rewrite np_unique_length in Hge.
  assert (0 < length array) as Hlen by (destruct array; [done | simpl; lia]).
  apply le_INR in Hle, Hge. apply lt_INR in Hlen.
  change (INR 1) with 1%R in Hge. change (INR 0) with 0%R in Hlen.
  set (n := INR (length array)) in *.
  set (u := INR (size (list_to_set array : gset Z))) in *.
  split.
  - split.
    + apply Rmult_le_pos; [lra |]. apply Rlt_le, Rinv_0_lt_compat. lra.
    + apply Rmult_lt_reg_r with n; [lra |].
      unfold Rdiv. rewrite Rmult_assoc, Rinv_l by lra. lra.
  - rewrite <- size_list_to_set_NoDup. split.
    + intros Hz. apply INR_eq. fold n u.
      apply (f_equal (fun r => r * n)%R) in Hz. unfold Rdiv in Hz.
      rewrite Rmult_assoc, Rinv_l in Hz by lra. lra.
    + intros Heq. unfold u, n. rewrite Heq. unfold Rdiv.
      rewrite Rminus_diag. lra.
Qed.

Lemma diversity_penalty_range_witness :
  (0 <= calculate_diversity_penalty best_cyb < 1)%R.
Proof.
  apply (diversity_penalty_range best_cyb). discriminate.
Defined.

(** X3. More heat never scores better: the heat penalty does not grow
    with [heat_diff]; it is negative for a positive [heat_diff] and
    non-negative otherwise. *)
Theorem calculate_heat_penalty_antitone (d1 d2 : R) :
  (d1 <= d2)%R ->
  (calculate_heat_penalty d2 <= calculate_heat_penalty d1)%R /\
  ((0 < d2)%R -> (calculate_heat_penalty d2 < 0)%R) /\
  ((d1 <= 0)%R -> (0 <= calculate_heat_penalty d1)%R).
Proof.
  intros Hd. unfold calculate_heat_penalty. repeat case_decide; lra.
Qed.

Lemma calculate_heat_penalty_antitone_witness :
  (calculate_heat_penalty 1 <= calculate_heat_penalty 0)%R.
Proof.
  apply (calculate_heat_penalty_antitone 0 1). lra.
Defined.

(** The positions of the grid, for checks by enumeration. *)
Definition flip_index_ok (axis : nat) : bool :=
  forallb
    (fun idx =>
       (flip_index SIZE axis idx <? np_prod SIZE) &&
       (flip_index SIZE axis (flip_index SIZE axis idx) =? idx))
    (seq 0 (np_prod SIZE)).

(** X4. [np.flip] along an axis is an involution on the grids of the
    program: flipping twice gives the grid back. *)
Theorem np_flip_involutive (axis : nat) (array : ndarray) :
  axis < 3 -> length array = np_prod SIZE ->
  np_flip axis (np_flip axis array) = array.
Proof.
  intros Haxis Hlen.
  assert (flip_index_ok axis = true) as Hok.
  { destruct axis as [|[|[|axis]]]; [vm_compute; reflexivity .. | lia]. }
  unfold flip_index_ok in Hok. rewrite forallb_forall in Hok.
  apply list_eq. intros i.
  destruct (decide (i < length array)) as [Hi|Hi].
  2: { rewrite !lookup_ge_None_2; [done | lia |].
       rewrite !np_flip_length. lia. }
  specialize (Hok i). rewrite <- list_elem_of_In, elem_of_seq in Hok.
  specialize (Hok ltac:(lia)). apply andb_prop in Hok as [Hb Hinv].
  apply Nat.ltb_lt in Hb. apply Nat.eqb_eq in Hinv.
  assert (forall (a : list Z) j, j < length a ->
            np_flip axis a !!! j = a !!! flip_index SIZE axis j) as Hcell.
  { intros a j Hj. apply list_lookup_total_correct. unfold np_flip.
    rewrite list_lookup_fmap, lookup_seq_lt by done. reflexivity. }
  destruct (lookup_lt_is_Some_2 array i Hi) as [x Hx]. rewrite Hx.
  apply list_lookup_total_correct in Hx.
  rewrite list_lookup_lookup_total_lt by (rewrite !np_flip_length; lia).
  f_equal. rewrite Hcell by (rewrite np_flip_length; lia).
  rewrite Hcell by lia. by rewrite Hinv.
Qed.

Lemma np_flip_involutive_witness :
  np_flip 1 (np_flip 1 best_cyb) = best_cyb.
Proof.
  apply (np_flip_involutive 1 best_cyb); [lia | reflexivity].
Defined.

(** ** Creating arrays *)

Lemma fmap_const_true {A} (f : A -> bool) (l : list A) :
  Forall (fun x => f x = true) l -> f <$> l = replicate (length l) true.
Proof.
  induction 1 as [|x l Hx _ IH]; [done |].
  cbn [fmap list_fmap length replicate]. rewrite Hx. f_equal. exact IH.
Qed.

(** At a rate of 1 or more every cell is replaced. *)
Lemma mutate_every_cell {Rng : NumpyRandom} (w : world) (individual : ref)
    (rate : R) :
  individual < length (heap w) -> (1 <= rate)%R ->
  exists w',
    mutate individual rate w = Ok (individual, w') /\
    length (heap w') = length (heap w) /\
    Forall (fun z => 1 <= z <= 16)%Z (heap w' !!! individual).
Proof.
  intros Hind Hrate. eexists. split; [apply mutate_spec |].
  cbn [heap]. rewrite length_insert. split; [done |].
  rewrite list_lookup_total_insert_eq by done.
  set (array := heap w !!! individual).
  set (drawn := rand (length array) (np_random w)).
  assert ((fun x => bool_decide (x < rate)%R) <$> drawn.1
          = replicate (length array) true) as ->.
  { assert (length drawn.1 = length array) as Hl by apply rand_length.
    rewrite <- Hl. apply fmap_const_true.
    eapply Forall_impl; [apply rand_range |]. simpl.
    intros x Hx. apply bool_decide_eq_true_2. lra. }
  rewrite count_nonzero_replicate_true.
  rewrite boolean_assign_all by apply randint_length.
  eapply Forall_impl; [by apply randint_range |]. simpl. intros; lia.
Qed.

(** X5. [initialize_population] makes one all-zero array and hands out
    [size] references to it: a mutation applied to one member is a
    mutation of every member. After a mutation of member [i] at rate 1,
    every member [j] holds cells between 1 and 16. *)
Theorem initialize_population_aliases {Rng : NumpyRandom} (w : world)
    (size i j : nat) :
  i < size -> j < size ->
  exists population w1 w2 r,
    initialize_population size w = Ok (population, w1) /\
    length population = size /\
    population !!! i = population !!! j /\
    heap w1 !!! (population !!! j) = np_zeros SIZE /\
    mutate (population !!! i) 1%R w1 = Ok (r, w2) /\
    Forall (fun z => 1 <= z <= 16)%Z (heap w2 !!! (population !!! j)).
Proof.
  intros Hi Hj.
  set (w1 := World (heap w ++ [np_zeros SIZE]) (fitness_cache w) (np_random w)
               (metrics_calls w)).
  assert (forall k, k < size ->
            replicate size (length (heap w)) !!! k = length (heap w)) as Hrep.
  { intros k Hk. by apply lookup_total_replicate_2. }
  destruct (mutate_every_cell w1 (length (heap w)) 1%R)
    as (w2 & Hm & _ & Hone).
  { unfold w1. cbn [heap]. rewrite length_app. simpl. lia. }
  { lra. }
  exists (replicate size (length (heap w))), w1, w2, (length (heap w)).
  rewrite !Hrep by done.
  split; [apply initialize_population_spec |].
  split; [apply length_replicate |]. split; [done |].
  split; [unfold w1; cbn [heap]; by apply list_lookup_total_middle |].
  split; [exact Hm | exact Hone].
Qed.

Lemma initialize_population_aliases_witness :
  exists population w1,
    @initialize_population fixed_random POPULATION_SIZE
      (@World fixed_random [] ∅ 0 0) = Ok (population, w1) /\
    population !!! 0 = population !!! 255.
Proof.
  destruct (@initialize_population_aliases fixed_random
              (@World fixed_random [] ∅ 0 0) POPULATION_SIZE 0 255)
    as (population & w1 & w2 & r & Hinit & _ & Hsame & _).
  - unfold POPULATION_SIZE. lia.
  - unfold POPULATION_SIZE. lia.
  - exists population, w1. split; [exact Hinit | exact Hsame].
Defined.

(** X6. [generate_array] returns a new array of [np.prod(SIZE)] cells, all
    between 0 and 17, and changes no existing array, nor the cache, nor
    the count of simulator calls. *)
Theorem generate_array_fresh {Rng : NumpyRandom} (w : world) :
  exists w',
    generate_array w = Ok (length (heap w), w') /\
    length (heap w') = S (length (heap w)) /\
    length (heap w' !!! length (heap w)) = np_prod SIZE /\
    Forall (fun z => 0 <= z <= 17)%Z (heap w' !!! length (heap w)) /\
    (forall r, r < length (heap w) -> heap w' !!! r = heap w !!! r) /\
    fitness_cache w' = fitness_cache w /\
    metrics_calls w' = metrics_calls w.
Proof.
  eexists. split; [apply generate_array_spec |]. cbn [heap fitness_cache
    metrics_calls].
  rewrite length_app, list_lookup_total_middle by done.
  split; [simpl; lia |]. split; [apply randint_length |].
  split; [| split; [| done]].
  - eapply Forall_impl; [by apply randint_range |]. simpl. intros; lia.
  - intros r Hr. by apply lookup_total_app_l.
Qed.

(** X7. [tournament_selection] returns exactly when the tournament size is
    positive and at most the population size and every drawn index lies
    within the fitness vector, which is the case whenever the fitness
    vector is as long as the population. A size of 0 or above the
    population size raises ValueError, a drawn index past the end of the
    fitness vector raises IndexError. What the call returns is a member of
    the population, and the arrays, the cache and the count of simulator
    calls are as before. *)
Theorem tournament_selection_returns_iff {Rng : NumpyRandom} (w : world)
    (population : list ref) (fitnesses : list R) (k : nat) :
  let selected := (choice (length population) k (np_random w)).1 in
  ((exists r w', tournament_selection population fitnesses k w = Ok (r, w'))
   <-> 0 < k <= length population /\
       Forall (fun i => i < length fitnesses) selected) /\
  (0 < k <= length population -> length population <= length fitnesses ->
   exists r w', tournament_selection population fitnesses k w = Ok (r, w')) /\
  (forall r w',
     tournament_selection population fitnesses k w = Ok (r, w') ->
     r ∈ population /\ heap w' = heap w /\
     fitness_cache w' = fitness_cache w /\
     metrics_calls w' = metrics_calls w) /\
  (k = 0 \/ length population < k ->
   tournament_selection population fitnesses k w = Raise ValueError) /\
  (0 < k <= length population ->
   ~ Forall (fun i => i < length fitnesses) selected ->
   tournament_selection population fitnesses k w = Raise IndexError).
Proof.
  intros selected. split; [split |].
  - intros (r & w' & Ht).
    by apply tournament_selection_Ok in Ht as (Hk & Hcovered & _).
  - intros [Hk Hcovered].
    destruct (tournament_selection_drawn w population fitnesses k Hk Hcovered)
      as (b & best_index & Ht & _).
    eexists. eexists. exact Ht.
  - split; [| split; [| split]].
    + intros Hk Hfit.
      destruct (tournament_selection_spec w population fitnesses k Hk Hfit)
        as (b & best_index & Ht & _).
      eexists. eexists. exact Ht.
    + intros r w' Ht.
      apply tournament_selection_effect in Ht as (_ & Hin & Hh & Hc & Hn).
      done.
    + intros [-> | Hk].
      * apply tournament_selection_empty.
      * by apply tournament_selection_too_many.
    + intros Hk Hnot. apply tournament_selection_uncovered; [lia | done].
Qed.

Lemma tournament_selection_returns_iff_witness :
  @tournament_selection fixed_random [0; 1] [2%R] 2
    (@World fixed_random [np_zeros SIZE; np_zeros SIZE] ∅ 0 0)
  = Raise IndexError.
Proof.
  apply (@tournament_selection_returns_iff fixed_random
           (@World fixed_random [np_zeros SIZE; np_zeros SIZE] ∅ 0 0)
           [0; 1] [2%R] 2).
  - simpl. lia.
  - intros Hall. apply Forall_cons in Hall as [Hone _].
    simpl in Hone. lia.
Defined.

(** ** Breeding, cell by cell *)

Lemma boolean_assign_Forall (P : Z -> Prop) (array : ndarray) mask values :
  Forall P array -> Forall P values ->
  Forall P (boolean_assign array mask values).
Proof.
  intros Harr. revert mask values.
  induction Harr as [|x array Hx Harr IH]; intros mask values Hvals;
    [destruct mask; constructor |].
  destruct mask as [|[] mask]; cbn [boolean_assign].
  - by constructor.
  - destruct Hvals as [|v values Hv Hvals]; constructor; auto.
  - constructor; auto.
Qed.

Lemma cut_and_join_Forall (P : Z -> Prop) (point : nat) (a b : ndarray) :
  Forall P a -> Forall P b -> Forall P (cut_and_join point a b).
Proof.
  intros Ha Hb. unfold cut_and_join. apply Forall_app.
  split; [by apply Forall_take | by apply Forall_drop].
Qed.

Section Breeding.
Context {Sim : Simulator} {Rng : NumpyRandom}.

(** A child, taken apart: two members of the population are cut and
    joined, cells of the result are overwritten with values between 1 and
    16, and the array so obtained is the child unless [validate_array]
    raises on it; then the child is one more new array, straight from
    [generate_array]. *)
Lemma breed_child_cases (w w' : world) population fitnesses k rate child :
  breed_child population fitnesses k rate w = Ok (child, w') ->
  exists parent1 parent2 point mask values,
    parent1 ∈ population /\ parent2 ∈ population /\
    Forall (fun z => 1 <= z <= 16)%Z values /\
    let mutated :=
      boolean_assign
        (cut_and_join point (heap w !!! parent1) (heap w !!! parent2))
        mask values in
    length mutated = np_prod SIZE /\
    ((is_Some (validate_array mutated) /\ child = length (heap w) /\
      heap w' = heap w ++ [mutated]) \/
     (validate_array mutated = None /\ child = S (length (heap w)) /\
      exists cells,
        heap w' = heap w ++ [mutated; cells] /\
        length cells = np_prod SIZE /\
        Forall (fun z => 0 <= z <= 17)%Z cells)).
Proof.
  unfold breed_child. intros Hb.
  apply bind_Ok in Hb as (parent1 & w1 & Ht1 & Hb).
  apply bind_Ok in Hb as (parent2 & w2 & Ht2 & Hb).
  apply bind_Ok in Hb as (c & w3 & Hc & Hb).
  apply bind_Ok in Hb as (c' & w4 & Hm & Hb).
  apply bind_Ok in Hb as (cells & w5 & Hd & Hb).
  apply tournament_selection_effect in Ht1 as (_ & Hin1 & Hh1 & _).
  apply tournament_selection_effect in Ht2 as (_ & Hin2 & Hh2 & _).
  assert (heap w2 = heap w) as Hh by congruence.
  unfold crossover, bind, draw, deref, reshape, alloc, raise, ret in Hc.
  destruct (randint1 1 _ (np_random w2)) as [p s]. cbn [heap] in Hc.
  case_decide as Hlen; [| done]. inversion Hc; subst c w3. clear Hc.
  rewrite Hh in *.
  rewrite mutate_spec in Hm. inversion Hm; subst c' w4. clear Hm.
  unfold deref in Hd. inversion Hd; subst cells w5. clear Hd.
  cbn [heap fitness_cache metrics_calls np_random] in Hb.
  rewrite list_lookup_total_middle in Hb by done.
  rewrite insert_last, list_lookup_total_middle in Hb by done.
  set (X := cut_and_join (Z.to_nat p) (heap w !!! parent1)
              (heap w !!! parent2)) in *.
  set (mask := (fun x => bool_decide (x < rate)%R) <$> _) in Hb.
  set (drawn := randint 1 17 (count_nonzero mask) _) in Hb.
  exists parent1, parent2, (Z.to_nat p), mask, drawn.1.
  split; [done |]. split; [done |]. split.
  { eapply Forall_impl; [by apply randint_range |]. simpl. intros; lia. }
  cbv zeta. fold X.
  split; [by rewrite boolean_assign_length |].
  destruct (validate_array (boolean_assign X mask drawn.1)) as [ok|] eqn:Hv.
  - left. inversion Hb; subst child w'. cbn [heap]. done.
  - right. rewrite generate_array_spec in Hb. inversion Hb; subst child w'.
    cbn [heap]. rewrite length_app. cbn [length].
    split; [done |]. split; [lia |].
    eexists. split; [by rewrite <- app_assoc |].
    split; [apply randint_length |].
    eapply Forall_impl; [by apply randint_range |]. simpl. intros; lia.
Qed.

End Breeding.




(** ** The grids of a run *)

Section Grids.
Context {Sim : Simulator} {Rng : NumpyRandom} {Srt : NumpySort}.

(** A reference to an existing array of the grid's size whose cells are
    codes between 0 and 17. *)
Definition grid_ok (w : world) (r : ref) : Prop :=
  r < length (heap w) /\ length (heap w !!! r) = np_prod SIZE /\
  Forall (fun z => 0 <= z <= 17)%Z (heap w !!! r).

Lemma grid_ok_preserved (w w' : world) (r : ref) :
  heap_preserved w w' -> grid_ok w r -> grid_ok w' r.
Proof.
  intros [Hl Hp] (Hr & Hlen & Hcells). unfold grid_ok.
  rewrite Hp by done. split; [lia | done].
Qed.

Lemma breed_child_grid (w w' : world) population fitnesses k rate child :
  Forall (grid_ok w) population ->
  breed_child population fitnesses k rate w = Ok (child, w') ->
  grid_ok w' child /\ heap_preserved w w'.
Proof.
  intros Hpop Hb. rewrite Forall_forall in Hpop.
  pose proof (breed_child_effect _ _ _ _ _ _ _ Hb)
    as (Hp & _ & Hfresh & Hlen & _).
  split; [| done]. split; [lia |]. split; [done |].
  destruct (breed_child_cases _ _ _ _ _ _ _ Hb)
    as (p1 & p2 & point & mask & values & Hin1 & Hin2 & Hvals & Hcases).
  cbv zeta in Hcases.
  destruct Hcases as (_ & [(_ & -> & Hh) | (_ & -> & cells & Hh & _ & Hc)]).
  - rewrite Hh, list_lookup_total_middle by done.
    apply boolean_assign_Forall.
    + apply cut_and_join_Forall; [by apply Hpop | by apply Hpop].
    + eapply Forall_impl; [exact Hvals |]. simpl. intros; lia.
  - rewrite Hh, (lookup_total_app_r (heap w)) by lia.
    replace (S (length (heap w)) - length (heap w)) with 1 by lia. done.
Qed.

Lemma breed_grids (n : nat) :
  forall (w w' : world) population fitnesses k rate new_population result,
  Forall (grid_ok w) population -> Forall (grid_ok w) new_population ->
  breed n population fitnesses k rate new_population w = Ok (result, w') ->
  Forall (grid_ok w') result.
Proof.
  induction n as [|n IH]; intros w w' population fitnesses k rate new_population
    result Hpop Hnew Hb; cbn [breed] in Hb.
  - inversion Hb; subst. done.
  - apply bind_Ok in Hb as (child & w1 & Hc & Hb).
    destruct (breed_child_grid _ _ _ _ _ _ _ Hpop Hc) as [Hchild Hp].
    eapply (IH w1 w'); [| | exact Hb].
    + eapply Forall_impl; [exact Hpop |]. intros r. by apply grid_ok_preserved.
    + apply Forall_app. split; [| by constructor].
      eapply Forall_impl; [exact Hnew |]. intros r. by apply grid_ok_preserved.
Qed.

Lemma generation_body_grids (g : nat) (st st' : ga_state) (w w' : world) :
  length (population st) = POPULATION_SIZE ->
  Forall (grid_ok w) (population st) ->
  generation_body g st w = Ok (st', w') ->
  length (population st') = POPULATION_SIZE /\
  Forall (grid_ok w') (population st').
Proof.
  intros Hsize Hpop Hg.
  assert (population_ok w (population st)) as Hok.
  { split; [done |]. eapply Forall_impl; [exact Hpop |].
    intros r (Hr & Hl & _). done. }
  destruct (generation_body_ok g st st' w w' Hok Hg) as ([Hsize' _] & _ & _).
  split; [done |].
  unfold generation_body in Hg.
  apply bind_Ok in Hg as (fs & w1 & He & Hg).
  apply bind_Ok in Hg as (pop' & w2 & Hb & Hg).
  inversion Hg; subst st' w2. clear Hg. cbn [population].
  pose proof (executor_map_effect _ _ _ _ He) as (Hh & _ & Hlen & _).
  assert (Forall (grid_ok w1) (population st)) as Hpop1.
  { eapply Forall_impl; [exact Hpop |]. intros r.
    apply grid_ok_preserved. by apply heap_preserved_eq. }
  eapply breed_grids; [exact Hpop1 | | exact Hb].
  destruct (elite_indices_spec fs) as (_ & _ & Hrange & _).
  { rewrite Hlen, Hsize. unfold ELITE_SIZE, POPULATION_SIZE. lia. }
  apply Forall_fmap. eapply Forall_impl; [exact Hrange |]. simpl.
  intros i Hi. rewrite Forall_forall in Hpop1. apply Hpop1.
  apply list_elem_of_lookup_total_2. lia.
Qed.

Lemma run_generations_grids (gens : list nat) :
  forall (st st' : ga_state) (w w' : world),
  length (population st) = POPULATION_SIZE ->
  Forall (grid_ok w) (population st) ->
  run_generations gens st w = Ok (st', w') ->
  length (population st') = POPULATION_SIZE /\
  Forall (grid_ok w') (population st').
Proof.
  induction gens as [|g gens IH]; intros st st' w w' Hsize Hpop Hr;
    cbn [run_generations] in Hr.
  - inversion Hr; subst. done.
  - apply bind_Ok in Hr as (st1 & w1 & Hg & Hr).
    destruct (generation_body_grids g st st1 w w1 Hsize Hpop Hg) as [Hs1 Hp1].
    by apply (IH st1 st' w1 w').
Qed.

End Grids.

(** X9. However many generations a run has gone through, its population
    has [POPULATION_SIZE] members and each of them is an array of
    [np.prod(SIZE)] cells with every cell between 0 and 17. *)
Theorem population_stays_in_alphabet {Sim : Simulator} {Rng : NumpyRandom}
    {Srt : NumpySort} (gens : list nat) (w0 w1 w : world) (pop0 : list ref)
    (st : ga_state) :
  initialize_population POPULATION_SIZE w0 = Ok (pop0, w1) ->
  run_generations gens (GaState pop0 INITIAL_MUTATION_RATE []) w1
    = Ok (st, w) ->
  length (population st) = POPULATION_SIZE /\
  forall r, r ∈ population st ->
    r < length (heap w) /\ length (heap w !!! r) = np_prod SIZE /\
    Forall (fun z => 0 <= z <= 17)%Z (heap w !!! r).
Proof.
  intros Hinit Hrun.
  rewrite initialize_population_spec in Hinit.
  assert ((replicate POPULATION_SIZE (length (heap w0)),
           World (heap w0 ++ [np_zeros SIZE]) (fitness_cache w0)
             (np_random w0) (metrics_calls w0)) = (pop0, w1)) as Heq
    by congruence.
  apply pair_equal_spec in Heq as [<- <-]. clear Hinit.
  apply run_generations_grids in Hrun as [Hsize Hgrids].
  - split; [done |]. by rewrite Forall_forall in Hgrids.
  - apply length_replicate.
  - apply Forall_replicate. unfold grid_ok. cbn [heap].
    rewrite length_app, list_lookup_total_middle by done.
    split; [simpl; lia |]. split; [reflexivity |].
    apply Forall_replicate. lia.
Qed.

Lemma population_stays_in_alphabet_witness :
  exists st w,
    @run_generations sum_simulator fixed_random stable_sort [0; 1]
      (GaState (replicate POPULATION_SIZE 0) INITIAL_MUTATION_RATE [])
      (@World fixed_random [np_zeros SIZE] ∅ 0 0) = Ok (st, w) /\
    length (population st) = POPULATION_SIZE.
Proof.
  destruct (@run_generations_returns sum_simulator fixed_random stable_sort
              sum_simulator_returns [0; 1]
              (GaState (replicate POPULATION_SIZE 0) INITIAL_MUTATION_RATE [])
              (@World fixed_random [np_zeros SIZE] ∅ 0 0))
    as (st & w & Hrun).
  - apply (@initialize_population_ok fixed_random
             (@World fixed_random [] ∅ 0 0)).
  - exists st, w. split; [exact Hrun |].
    exact (proj1 (@population_stays_in_alphabet sum_simulator fixed_random
                    stable_sort [0; 1] (@World fixed_random [] ∅ 0 0)
                    _ _ _ _ eq_refl Hrun)).
Defined.

(** ** The answer, and what a run leaves untouched *)

Section Outcome.
Context {Sim : Simulator} {Rng : NumpyRandom} {Srt : NumpySort}.

Lemma generation_body_keeps (g : nat) (st st' : ga_state) (w w' : world) :
  generation_body g st w = Ok (st', w') ->
  heap_preserved w w' /\
  (forall key x, fitness_cache w !! key = Some x ->
                 fitness_cache w' !! key = Some x).
Proof.
  intros Hg.
  destruct (generation_body_effect g st st' w w' Hg)
    as (children & w1 & He & _ & _ & _ & Hp & Hc & _).
  split; [done |]. rewrite Hc.
  by apply executor_map_effect in He as (_ & _ & _ & Hkeep & _).
Qed.

Lemma run_generations_keeps (gens : list nat) :
  forall (st st' : ga_state) (w w' : world),
  run_generations gens st w = Ok (st', w') ->
  heap_preserved w w' /\
  (forall key x, fitness_cache w !! key = Some x ->
                 fitness_cache w' !! key = Some x).
Proof.
  induction gens as [|g gens IH]; intros st st' w w' Hr;
    cbn [run_generations] in Hr.
  - inversion Hr; subst. split; [apply heap_preserved_refl | done].
  - apply bind_Ok in Hr as (st1 & w1 & Hg & Hr).
    destruct (generation_body_keeps g st st1 w w1 Hg) as [Hp1 Hk1].
    destruct (IH st1 st' w1 w' Hr) as [Hp2 Hk2].
    split; [by eapply heap_preserved_trans | eauto].
Qed.

(** The answer, taken apart: the position of the first maximum of the
    fitness vector, and either the member at that position with that
    maximum, or a new random array with 0. *)
Lemma best_solution_cases (st : ga_state) (w w' : world) (answer : ref)
    (v : R) :
  best_solution st w = Ok ((answer, v), w') ->
  exists b,
    np_argmax (fitnesses st) = Ok b /\
    ((is_array_valid (heap w !!! (population st !!! b)) = true /\
      answer = population st !!! b /\ v = fitnesses st !!! b /\ w' = w) \/
     (is_array_valid (heap w !!! (population st !!! b)) = false /\
      answer = length (heap w) /\ v = 0%R /\
      generate_array w = Ok (answer, w'))).
Proof.
  unfold best_solution. intros Hb.
  apply bind_Ok in Hb as (b & w1 & Harg & Hb).
  unfold lift in Harg.
  destruct (np_argmax (fitnesses st)) as [b'|e] eqn:Hmax; [| done].
  inversion Harg; subst b' w1. clear Harg.
  exists b. split; [done |].
  unfold bind, deref in Hb.
  destruct (is_array_valid (heap w !!! (population st !!! b))) eqn:Hv.
  - left. inversion Hb; subst. done.
  - right. rewrite generate_array_spec in Hb |- *.
    inversion Hb; subst. done.
Qed.

End Outcome.

(** X10. For a fitness vector as long as the population, the answer that
    is selected after the loop is either a member of the population that
    passes [is_array_valid], reported with the highest score of the fitness
    vector and without any change of state, or a new array from
    [generate_array] (cells between 0 and 17), reported with 0 and without
    a validity check of its own. *)
Theorem best_solution_reports {Sim : Simulator} {Rng : NumpyRandom}
    (st : ga_state) (w w' : world) (answer : ref) (v : R) :
  length (fitnesses st) = length (population st) ->
  best_solution st w = Ok ((answer, v), w') ->
  (is_array_valid (heap w' !!! answer) = true /\ answer ∈ population st /\
   w' = w /\ v ∈ fitnesses st /\
   forall x, x ∈ fitnesses st -> (x <= v)%R) \/
  (v = 0%R /\ answer = length (heap w) /\
   length (heap w') = S (length (heap w)) /\
   Forall (fun z => 0 <= z <= 17)%Z (heap w' !!! answer)).
Proof.
  intros Hlen Hb.
  destruct (best_solution_cases st w w' answer v Hb) as (b & Harg & Hcases).
  assert (fitnesses st <> []) as Hne.
  { intros Hnil. rewrite Hnil in Harg. done. }
  destruct (np_argmax_spec (fitnesses st) Hne) as (b' & y & Hb' & Hy & Hmax & _).
  rewrite Harg in Hb'. inversion Hb'; subst b'. clear Hb'.
  destruct Hcases as [(Hv & -> & -> & ->) | (Hv & -> & -> & Hgen)].
  - left. split; [done |].
    rewrite (list_lookup_total_correct _ _ _ Hy).
    split; [| split; [done | split]].
    + apply list_elem_of_lookup_total_2. rewrite <- Hlen.
      by eapply lookup_lt_Some.
    + by eapply list_elem_of_lookup_2.
    + intros x Hx. apply list_elem_of_lookup in Hx as [j Hj]. eauto.
  - right. rewrite generate_array_spec in Hgen. inversion Hgen; subst w'.
    cbn [heap]. rewrite length_app, list_lookup_total_middle by done.
    split; [done |]. split; [done |]. split; [simpl; lia |].
    eapply Forall_impl; [by apply randint_range |]. simpl. intros; lia.
Qed.

Lemma best_solution_reports_witness :
  exists answer v w',
    @best_solution sum_simulator fixed_random
      (GaState [0] INITIAL_MUTATION_RATE [1%R])
      (@World fixed_random [np_zeros SIZE] ∅ 0 0) = Ok ((answer, v), w') /\
    (answer ∈ [0] \/ v = 0%R).
Proof.
  destruct (@best_solution_returns sum_simulator fixed_random
              (GaState [0] INITIAL_MUTATION_RATE [1%R])
              (@World fixed_random [np_zeros SIZE] ∅ 0 0))
    as ([answer v] & w' & Hb); [done |].
  exists answer, v, w'. split; [exact Hb |].
  destruct (@best_solution_reports sum_simulator fixed_random
              (GaState [0] INITIAL_MUTATION_RATE [1%R]) _ _ _ _
              eq_refl Hb) as [(_ & Hin & _) | (Hv & _)].
  - left. exact Hin.
  - right. exact Hv.
Defined.

(** ** The run as a whole *)

Section Run.
Context {Sim : Simulator} {Rng : NumpyRandom} {Srt : NumpySort}.

Lemma bind_Raise {A B} (m : M A) (k : A -> M B) (w : world) (e : exn) :
  m w = Raise e -> bind m k w = Raise e.
Proof. intros Hm. unfold bind. by rewrite Hm. Qed.

(** The state in which the loop ends: the population and the fitness
    vector both have [POPULATION_SIZE] entries and every member is a grid
    over the codes 0 to 17. *)
Lemma run_generations_final (w1 w2 : world) (r : ref) (st : ga_state) :
  grid_ok w1 r ->
  run_generations (seq 0 GENERATIONS)
    (GaState (replicate POPULATION_SIZE r) INITIAL_MUTATION_RATE []) w1
    = Ok (st, w2) ->
  length (population st) = POPULATION_SIZE /\
  length (fitnesses st) = POPULATION_SIZE /\
  Forall (grid_ok w2) (population st).
Proof.
  intros Hr Hrun.
  assert (population_ok w1 (replicate POPULATION_SIZE r)) as Hok.
  { split; [apply length_replicate |]. apply Forall_replicate.
    destruct Hr as (Hr1 & Hr2 & _). done. }
  pose proof Hrun as Hgrids.
  apply run_generations_grids in Hgrids as [Hsize Hgrids];
    [| apply length_replicate | by apply Forall_replicate].
  split; [done |]. split; [| done].
  change (seq 0 GENERATIONS) with (seq 0 199 ++ [199]) in Hrun.
  apply run_generations_last in Hrun as (st1 & w3 & Hrun1 & Hgen).
  apply run_generations_ok in Hrun1 as (Hok1 & _); [| exact Hok].
  by destruct (generation_body_ok 199 st1 st w3 w2 Hok1 Hgen) as (_ & _ & Hlen).
Qed.

End Run.

(** X11. When [reactor_metrics] never raises, [genetic_algorithm] returns.
    Whenever it returns, the arrays that existed before the call keep their
    cells, the cache keeps every entry it had, and the answer is an array
    of [np.prod(SIZE)] cells between 0 and 17 that either passes
    [is_array_valid] or comes with the fitness 0. *)
Theorem genetic_algorithm_answer {Sim : Simulator} {Rng : NumpyRandom}
    {Srt : NumpySort} (w : world) :
  ((forall array fuel, is_Some (reactor_metrics array fuel)) ->
   exists answer v w', genetic_algorithm w = Ok ((answer, v), w')) /\
  (forall answer v w',
     genetic_algorithm w = Ok ((answer, v), w') ->
     heap_preserved w w' /\
     (forall key x, fitness_cache w !! key = Some x ->
                    fitness_cache w' !! key = Some x) /\
     answer < length (heap w') /\
     length (heap w' !!! answer) = np_prod SIZE /\
     Forall (fun z => 0 <= z <= 17)%Z (heap w' !!! answer) /\
     (is_array_valid (heap w' !!! answer) = true \/ v = 0%R)).
Proof.
  split; [apply genetic_algorithm_returns |].
  intros answer v w' Hga. unfold genetic_algorithm in Hga.
  rewrite (bind_Ok_intro _ _ _ _ _ (initialize_population_spec _ _)) in Hga.
  set (w1 := World (heap w ++ [np_zeros SIZE]) (fitness_cache w)
               (np_random w) (metrics_calls w)) in *.
  apply bind_Ok in Hga as (st & w2 & Hrun & Hbest).
  assert (heap_preserved w w1) as Hp0.
  { split; cbn [heap w1]; [rewrite length_app; lia |].
    intros r Hr. by rewrite lookup_total_app_l. }
  assert (grid_ok w1 (length (heap w))) as Hzero.
  { unfold grid_ok. cbn [heap w1].
    rewrite length_app, list_lookup_total_middle by done.
    split; [simpl; lia |]. split; [reflexivity |].
    apply Forall_replicate. lia. }
  destruct (run_generations_keeps _ _ _ _ _ Hrun) as [Hp1 Hk1].
  destruct (run_generations_final _ _ _ _ Hzero Hrun)
    as (Hsize & Hlen & Hgrids).
  destruct (best_solution_cases st w2 w' answer v Hbest)
    as (b & Harg & Hcases).
  assert (b < length (population st)) as Hb.
  { assert (fitnesses st <> []) as Hne.
    { intros Hnil. rewrite Hnil in Harg. done. }
    destruct (np_argmax_spec (fitnesses st) Hne) as (b' & y & Hb' & Hy & _).
    rewrite Harg in Hb'. inversion Hb'; subst b'.
    rewrite Hsize, <- Hlen. by eapply lookup_lt_Some. }
  destruct Hcases as [(Hv & -> & -> & ->) | (Hv & -> & -> & Hgen)].
  - split; [by eapply heap_preserved_trans |]. split; [done |].
    rewrite Forall_forall in Hgrids.
    destruct (Hgrids (population st !!! b)) as (Hg1 & Hg2 & Hg3);
      [by apply list_elem_of_lookup_total_2 |].
    split; [done |]. split; [done |]. split; [done |]. by left.
  - rewrite generate_array_spec in Hgen. inversion Hgen; subst w'.
    clear Hgen. cbn [heap fitness_cache].
    rewrite length_app, list_lookup_total_middle by done.
    split.
    { eapply heap_preserved_trans; [exact Hp0 |].
      eapply heap_preserved_trans; [exact Hp1 |].
      split; cbn [heap]; [rewrite length_app; lia |].
      intros r Hr. by rewrite lookup_total_app_l. }
    split; [done |]. split; [simpl; lia |].
    split; [by apply randint_length |].
    split; [| by right].
    eapply Forall_impl; [by apply randint_range |]. simpl. intros; lia.
Qed.

Lemma genetic_algorithm_answer_witness :
  exists answer v w',
    @genetic_algorithm sum_simulator fixed_random stable_sort
      (@World fixed_random [] ∅ 0 0) = Ok ((answer, v), w') /\
    length (heap w' !!! answer) = 27.
Proof.
  destruct (@genetic_algorithm_answer sum_simulator fixed_random stable_sort
              (@World fixed_random [] ∅ 0 0)) as [Hreturns Hanswer].
  destruct (Hreturns sum_simulator_returns) as (answer & v & w' & Hga).
  exists answer, v, w'. split; [exact Hga |].
  exact (proj1 (proj2 (proj2 (proj2 (Hanswer answer v w' Hga))))).
Defined.

(** X12. Every run starts by scoring the all-zero grid. When that grid is
    not in the cache and [reactor_metrics] raises on it, the exception of
    the simulator leaves [genetic_algorithm] in generation 0: no answer is
    produced. *)
Theorem simulator_failure_aborts_run {Sim : Simulator} {Rng : NumpyRandom}
    {Srt : NumpySort} (w : world) :
  fitness_cache w !! np_zeros SIZE = None ->
  reactor_metrics (np_zeros SIZE) CURRENT_FUEL = None ->
  genetic_algorithm w = Raise SimulatorFailure.
Proof.
  intros Hc Hm. unfold genetic_algorithm.
  rewrite (bind_Ok_intro _ _ _ _ _ (initialize_population_spec _ _)).
  apply bind_Raise.
  change (seq 0 GENERATIONS) with (0 :: seq 1 199).
  cbn [run_generations]. apply bind_Raise.
  unfold generation_body. apply bind_Raise. cbn [population].
  change (replicate POPULATION_SIZE (length (heap w)))
    with (length (heap w) :: replicate 255 (length (heap w))).
  cbn [executor_map]. apply bind_Raise.
  apply fitness_miss_raise; cbn [heap fitness_cache];
    by rewrite list_lookup_total_middle.
Qed.

Lemma simulator_failure_aborts_run_witness :
  @genetic_algorithm strict_simulator fixed_random stable_sort
    (@World fixed_random [] ∅ 0 0) = Raise SimulatorFailure.
Proof.
  apply (@simulator_failure_aborts_run strict_simulator fixed_random
           stable_sort).
  - apply lookup_empty.
  - reflexivity.
Defined.

(** ** Elitism and the cache across generations *)

Section Caching.
Context {Sim : Simulator} {Rng : NumpyRandom} {Srt : NumpySort}.

(** One evaluation calls the simulator exactly when the grid's key is not
    in the cache. *)
Lemma fitness_calls (w w' : world) individual fuel v :
  fitness individual fuel w = Ok (v, w') ->
  metrics_calls w' =
    match fitness_cache w !! (heap w !!! individual) with
    | Some _ => metrics_calls w
    | None => S (metrics_calls w)
    end.
Proof.
  intros Hf.
  destruct (fitness_cache w !! (heap w !!! individual)) as [c|] eqn:Hc.
  - rewrite (fitness_hit _ _ _ _ Hc) in Hf. by inversion Hf.
  - destruct (reactor_metrics (heap w !!! individual) fuel) as [m|] eqn:Hm.
    2: { by rewrite (fitness_miss_raise _ _ _ Hc Hm) in Hf. }
    destruct (is_array_valid (heap w !!! individual)) eqn:Hv.
    + rewrite (fitness_miss_valid _ _ _ _ Hc Hm Hv) in Hf.
      by inversion Hf.
    + rewrite (fitness_miss_invalid _ _ _ _ Hc Hm Hv) in Hf.
      by inversion Hf.
Qed.

(** Evaluating members whose grids are all cached changes nothing. *)
Lemma executor_map_cached (pop : list ref) (w : world) :
  (forall r, r ∈ pop -> is_Some (fitness_cache w !! (heap w !!! r))) ->
  exists fs, executor_map pop w = Ok (fs, w).
Proof.
  induction pop as [|ind rest IH]; intros Hall; cbn [executor_map].
  - by eexists.
  - destruct (Hall ind) as [v Hv]; [by left |].
    destruct IH as [fs Hfs]; [intros r Hr; apply Hall; by right |].
    exists (v :: fs).
    rewrite (bind_Ok_intro _ _ _ _ _ (fitness_hit _ _ CURRENT_FUEL _ Hv)).
    by rewrite (bind_Ok_intro _ _ _ _ _ Hfs).
Qed.

Lemma executor_map_app (l1 l2 : list ref) :
  forall (w w' : world) (fs : list R),
  executor_map (l1 ++ l2) w = Ok (fs, w') ->
  exists fs1 fs2 w1,
    executor_map l1 w = Ok (fs1, w1) /\ executor_map l2 w1 = Ok (fs2, w') /\
    fs = fs1 ++ fs2.
Proof.
  induction l1 as [|ind rest IH]; intros w w' fs He.
  - exists [], fs, w. done.
  - rewrite <- app_comm_cons in He. cbn [executor_map] in He.
    apply bind_Ok in He as (f & wa & Hf & He).
    apply bind_Ok in He as (fs' & wb & Hrest & He).
    inversion He; subst fs w'. clear He.
    apply IH in Hrest as (fs1 & fs2 & w1 & H1 & H2 & ->).
    exists (f :: fs1), fs2, w1. cbn [executor_map].
    rewrite (bind_Ok_intro _ _ _ _ _ Hf), (bind_Ok_intro _ _ _ _ _ H1).
    done.
Qed.

(** At most one simulator call per member. *)
Lemma executor_map_calls (pop : list ref) :
  forall (w w' : world) (fs : list R),
  executor_map pop w = Ok (fs, w') ->
  metrics_calls w <= metrics_calls w' <= metrics_calls w + length pop.
Proof.
  induction pop as [|ind rest IH]; intros w w' fs He;
    cbn [executor_map] in He.
  - inversion He; subst. cbn [length]. lia.
  - apply bind_Ok in He as (f & wa & Hf & He).
    apply bind_Ok in He as (fs' & wb & Hrest & He).
    inversion He; subst fs w'. clear He.
    apply fitness_calls in Hf. apply IH in Hrest. cbn [length].
    destruct (fitness_cache w !! (heap w !!! ind)); lia.
Qed.

(** One generation, seen from the evaluator: the breeding makes no
    simulator call. *)
Lemma generation_body_calls (g : nat) (st st' : ga_state) (w w' : world) :
  generation_body g st w = Ok (st', w') ->
  exists w1,
    executor_map (population st) w = Ok (fitnesses st', w1) /\
    metrics_calls w' = metrics_calls w1.
Proof.
  unfold generation_body. intros Hg.
  apply bind_Ok in Hg as (fs & w1 & He & Hg).
  apply bind_Ok in Hg as (pop' & w2 & Hb & Hg).
  inversion Hg; subst st' w2. clear Hg. cbn [fitnesses].
  apply breed_effect in Hb as (_ & _ & _ & _ & _ & [_ Hn]).
  by exists w1.
Qed.

(** The elites of a generation enter the next one with their scores in the
    cache. *)
Lemma generation_body_elites (g : nat) (st st' : ga_state) (w w' : world) :
  population_ok w (population st) ->
  generation_body g st w = Ok (st', w') ->
  exists children,
    population st' =
      ((fun i => population st !!! i) <$>
         slice_last ELITE_SIZE (argsort (fitnesses st'))) ++ children /\
    length children = POPULATION_SIZE - ELITE_SIZE /\
    length (fitnesses st') = POPULATION_SIZE /\
    forall i, i ∈ slice_last ELITE_SIZE (argsort (fitnesses st')) ->
      fitness_cache w' !! (heap w' !!! (population st !!! i))
        = Some (fitnesses st' !!! i).
Proof.
  intros Hok Hg.
  destruct (generation_body_effect g st st' w w' Hg)
    as (children & w1 & He & Hpop & Hn & _ & Hp & Hc & _).
  destruct (generation_body_ok g st st' w w' Hok Hg) as (_ & _ & Hlen).
  exists children. split; [done |]. split; [done |]. split; [done |].
  intros i Hi.
  destruct (elite_indices_spec (fitnesses st')) as (_ & _ & Hrange & _).
  { rewrite Hlen. unfold ELITE_SIZE, POPULATION_SIZE. lia. }
  rewrite Forall_forall in Hrange. specialize (Hrange i Hi).
  destruct Hok as [Hsize Hgrids]. rewrite Forall_forall in Hgrids.
  assert (i < length (population st)) as Hlt by (rewrite Hsize, <- Hlen; done).
  apply lookup_lt_is_Some in Hlt as [r Hr].
  rewrite (list_lookup_total_correct _ _ _ Hr).
  destruct (Hgrids r) as [Hr1 _]; [by eapply list_elem_of_lookup_2 |].
  destruct Hp as [_ Hp]. rewrite Hp by done. rewrite Hc.
  apply executor_map_effect in He as (_ & _ & _ & _ & Hscores).
  destruct (Hscores i r Hr) as (v & Hv & Hcv).
  by rewrite (list_lookup_total_correct _ _ _ Hv).
Qed.

(** The best score of a generation is met or exceeded in the next one. *)
Lemma generation_body_best (g g' : nat) (st st1 st2 : ga_state)
    (w w1 w2 : world) (x : R) :
  population_ok w (population st) ->
  generation_body g st w = Ok (st1, w1) ->
  generation_body g' st1 w1 = Ok (st2, w2) ->
  x ∈ fitnesses st1 ->
  exists y, y ∈ fitnesses st2 /\ (x <= y)%R.
Proof.
  intros Hok Hg1 Hg2 Hx.
  destruct (generation_body_elites g st st1 w w1 Hok Hg1)
    as (children & Hpop & _ & Hlen & Hcached).
  destruct (elite_indices_spec (fitnesses st1))
    as (Hel & _ & Hrange & Hbest).
  { rewrite Hlen. unfold ELITE_SIZE, POPULATION_SIZE. lia. }
  set (elite := slice_last ELITE_SIZE (argsort (fitnesses st1))) in *.
  apply list_elem_of_lookup in Hx as [j Hj].
  (* an elite index whose score is at least x *)
  assert (exists i, i ∈ elite /\ (x <= fitnesses st1 !!! i)%R) as (i & Hi & Hxi).
  { destruct (decide (j ∈ elite)) as [Hin|Hout].
    - exists j. split; [done |].
      rewrite (list_lookup_total_correct _ _ _ Hj). lra.
    - destruct elite as [|i0 elite'] eqn:Helite; [discriminate Hel |].
      exists i0. split; [by left |].
      rewrite <- (list_lookup_total_correct _ _ _ Hj).
      apply Hbest; [by left | by eapply lookup_lt_Some | done]. }
  (* its array sits in the next population, its score in the cache *)
  apply list_elem_of_lookup in Hi as Hpos. destruct Hpos as [p Hp].
  assert (population st1 !! p = Some (population st !!! i)) as Hmember.
  { rewrite Hpop, lookup_app_l, list_lookup_fmap.
    - fold elite. by rewrite Hp.
    - rewrite length_fmap. by eapply lookup_lt_Some. }
  destruct (generation_body_effect g' st1 st2 w1 w2 Hg2)
    as (_ & wa & He & _).
  apply executor_map_effect in He as (_ & _ & _ & Hkeep & Hscores).
  destruct (Hscores p _ Hmember) as (v & Hv & Hcv).
  rewrite (Hkeep _ _ (Hcached i Hi)) in Hcv. inversion Hcv; subst v.
  exists (fitnesses st1 !!! i). split; [| done].
  by eapply list_elem_of_lookup_2.
Qed.

End Caching.

(** X13. Elitism keeps the best score: every score of one generation is
    met or exceeded by some score of every later generation, so the best
    fitness that the loop logs never decreases. *)
Theorem best_fitness_never_decreases {Sim : Simulator} {Rng : NumpyRandom}
    {Srt : NumpySort} (gens : list nat) :
  forall (g : nat) (st st1 st2 : ga_state) (w w1 w2 : world) (x : R),
  population_ok w (population st) ->
  generation_body g st w = Ok (st1, w1) ->
  run_generations gens st1 w1 = Ok (st2, w2) ->
  x ∈ fitnesses st1 ->
  exists y, y ∈ fitnesses st2 /\ (x <= y)%R.
Proof.
  induction gens as [|g' gens IH]; intros g st st1 st2 w w1 w2 x Hok Hg Hrun Hx;
    cbn [run_generations] in Hrun.
  - inversion Hrun; subst. exists x. split; [done | lra].
  - apply bind_Ok in Hrun as (sta & wa & Hg' & Hrun).
    destruct (generation_body_best g g' st st1 sta w w1 wa x Hok Hg Hg' Hx)
      as (y1 & Hy1 & Hxy1).
    destruct (generation_body_ok g st st1 w w1 Hok Hg) as (Hok1 & _).
    destruct (IH g' st1 sta st2 w1 wa w2 y1 Hok1 Hg' Hrun Hy1)
      as (y & Hy & Hy1y).
    exists y. split; [done | lra].
Qed.

(** Two generations of a run on the stub simulator. *)
Lemma two_generations_return :
  exists st1 w1 st2 w2,
    @generation_body sum_simulator fixed_random stable_sort 0
      (GaState (replicate POPULATION_SIZE 0) INITIAL_MUTATION_RATE [])
      (@World fixed_random [np_zeros SIZE] ∅ 0 0) = Ok (st1, w1) /\
    @generation_body sum_simulator fixed_random stable_sort 1 st1 w1
      = Ok (st2, w2).
Proof.
  assert (@population_ok fixed_random
            (@World fixed_random [np_zeros SIZE] ∅ 0 0)
            (replicate POPULATION_SIZE 0)) as Hok
    by apply (@initialize_population_ok fixed_random
                (@World fixed_random [] ∅ 0 0)).
  destruct (@generation_body_returns sum_simulator fixed_random stable_sort
              sum_simulator_returns 0
              (GaState (replicate POPULATION_SIZE 0) INITIAL_MUTATION_RATE [])
              (@World fixed_random [np_zeros SIZE] ∅ 0 0) Hok)
    as (st1 & w1 & Hg1).
  destruct (@generation_body_returns sum_simulator fixed_random stable_sort
              sum_simulator_returns 1 st1 w1) as (st2 & w2 & Hg2).
  - by apply (@generation_body_ok sum_simulator fixed_random stable_sort 0
                (GaState (replicate POPULATION_SIZE 0) INITIAL_MUTATION_RATE [])
                st1 (@World fixed_random [np_zeros SIZE] ∅ 0 0) w1 Hok Hg1).
  - exists st1, w1, st2, w2. split; [exact Hg1 | exact Hg2].
Defined.

Lemma best_fitness_never_decreases_witness :
  exists st1 w1 st2 w2,
    @generation_body sum_simulator fixed_random stable_sort 0
      (GaState (replicate POPULATION_SIZE 0) INITIAL_MUTATION_RATE [])
      (@World fixed_random [np_zeros SIZE] ∅ 0 0) = Ok (st1, w1) /\
    @run_generations sum_simulator fixed_random stable_sort [1] st1 w1
      = Ok (st2, w2) /\
    forall x, x ∈ fitnesses st1 -> exists y, y ∈ fitnesses st2 /\ (x <= y)%R.
Proof.
  destruct two_generations_return as (st1 & w1 & st2 & w2 & Hg1 & Hg2).
  assert (@run_generations sum_simulator fixed_random stable_sort [1] st1 w1
          = Ok (st2, w2)) as Hrun.
  { cbn [run_generations].
    by rewrite (@bind_Ok_intro fixed_random _ _ _ _ _ _ _ Hg2). }
  exists st1, w1, st2, w2. split; [exact Hg1 |]. split; [exact Hrun |].
  intros x Hx.
  apply (@best_fitness_never_decreases sum_simulator fixed_random stable_sort
           [1] 0
           (GaState (replicate POPULATION_SIZE 0) INITIAL_MUTATION_RATE [])
           st1 st2 (@World fixed_random [np_zeros SIZE] ∅ 0 0) w1 w2 x);
    [| exact Hg1 | exact Hrun | exact Hx].
  apply (@initialize_population_ok fixed_random (@World fixed_random [] ∅ 0 0)).
Defined.

(** X14. A generation calls [reactor_metrics] at most [POPULATION_SIZE]
    times, and a generation that follows another at most
    [POPULATION_SIZE - ELITE_SIZE] times: the elites were scored one
    generation earlier and are answered from the cache. *)
Theorem elites_are_not_simulated_again {Sim : Simulator} {Rng : NumpyRandom}
    {Srt : NumpySort} (g g' : nat) (st st1 st2 : ga_state) (w w1 w2 : world) :
  population_ok w (population st) ->
  generation_body g st w = Ok (st1, w1) ->
  generation_body g' st1 w1 = Ok (st2, w2) ->
  metrics_calls w1 <= metrics_calls w + POPULATION_SIZE /\
  metrics_calls w2 <= metrics_calls w1 + (POPULATION_SIZE - ELITE_SIZE).
Proof.
  intros Hok Hg1 Hg2. split.
  - destruct (generation_body_calls g st st1 w w1 Hg1) as (wa & He & ->).
    apply executor_map_calls in He. destruct Hok as [<- _]. lia.
  - destruct (generation_body_elites g st st1 w w1 Hok Hg1)
      as (children & Hpop & Hn & _ & Hcached).
    destruct (generation_body_calls g' st1 st2 w1 w2 Hg2) as (wb & He & ->).
    rewrite Hpop in He.
    apply executor_map_app in He as (fs1 & fs2 & wa & He1 & He2 & _).
    destruct (executor_map_cached
                ((fun i => population st !!! i) <$>
                   slice_last ELITE_SIZE (argsort (fitnesses st1))) w1)
      as [fs Hfs].
    { intros r Hr. apply list_elem_of_fmap in Hr as (i & -> & Hi).
      rewrite (Hcached i Hi). by eexists. }
    rewrite Hfs in He1. inversion He1; subst wa.
    apply executor_map_calls in He2. rewrite Hn in He2. lia.
Qed.

Lemma elites_are_not_simulated_again_witness :
  exists st1 w1 st2 w2,
    @generation_body sum_simulator fixed_random stable_sort 0
      (GaState (replicate POPULATION_SIZE 0) INITIAL_MUTATION_RATE [])
      (@World fixed_random [np_zeros SIZE] ∅ 0 0) = Ok (st1, w1) /\
    @generation_body sum_simulator fixed_random stable_sort 1 st1 w1
      = Ok (st2, w2) /\
    metrics_calls w2 <= metrics_calls w1 + 246.
Proof.
  destruct two_generations_return as (st1 & w1 & st2 & w2 & Hg1 & Hg2).
  exists st1, w1, st2, w2. split; [exact Hg1 |]. split; [exact Hg2 |].
  apply (@elites_are_not_simulated_again sum_simulator fixed_random
           stable_sort 0 1
           (GaState (replicate POPULATION_SIZE 0) INITIAL_MUTATION_RATE [])
           st1 st2 (@World fixed_random [np_zeros SIZE] ∅ 0 0) w1 w2);
    [| exact Hg1 | exact Hg2].
  apply (@initialize_population_ok fixed_random (@World fixed_random [] ∅ 0 0)).
Defined.

(** X15. The members of the initial population are one array, so their
    evaluation gives one score, repeated: in generation 0 all fitnesses are
    equal, whatever the size of the population. *)
Theorem initial_population_scores_once {Sim : Simulator} {Rng : NumpyRandom}
    (n : nat) (w0 w1 w2 : world) (pop : list ref) (fs : list R) :
  initialize_population n w0 = Ok (pop, w1) ->
  executor_map pop w1 = Ok (fs, w2) ->
  exists v, fs = replicate n v.
Proof.
  intros Hinit He. rewrite initialize_population_spec in Hinit.
  inversion Hinit; subst pop w1. clear Hinit.
  set (r := length (heap w0)) in *.
  set (w1 := World (heap w0 ++ [np_zeros SIZE]) (fitness_cache w0)
               (np_random w0) (metrics_calls w0)) in *.
  destruct n as [|n].
  - cbn [replicate executor_map] in He. inversion He; subst.
    by exists 0%R.
  - cbn [replicate executor_map] in He.
    apply bind_Ok in He as (f & wa & Hf & He).
    apply bind_Ok in He as (fs' & wb & Hrest & He).
    inversion He; subst fs w2. clear He.
    apply fitness_effect in Hf as (Hh & _ & Hstored & _).
    rewrite <- Hh in Hstored.
    exists f. cbn [replicate]. f_equal. symmetry.
    apply replicate_as_Forall.
    apply executor_map_effect in Hrest as (_ & _ & Hlen & Hkeep & Hscores).
    rewrite length_replicate in Hlen. split; [done |].
    apply Forall_forall. intros v Hv.
    apply list_elem_of_lookup in Hv as [i Hi].
    destruct (Hscores i r) as (v' & Hv' & Hcv).
    { apply lookup_replicate. split; [done |].
      rewrite <- Hlen. by eapply lookup_lt_Some. }
    rewrite (Hkeep _ _ Hstored) in Hcv. congruence.
Qed.

Lemma initial_population_scores_once_witness :
  exists fs w2,
    @executor_map sum_simulator fixed_random (replicate 3 0)
      (@World fixed_random [np_zeros SIZE] ∅ 0 0) = Ok (fs, w2) /\
    exists v, fs = replicate 3 v.
Proof.
  destruct (@executor_map_returns sum_simulator fixed_random
              sum_simulator_returns (replicate 3 0)
              (@World fixed_random [np_zeros SIZE] ∅ 0 0)) as (fs & w2 & He).
  exists fs, w2. split; [exact He |].
  exact (@initial_population_scores_once sum_simulator fixed_random 3
           (@World fixed_random [] ∅ 0 0) _ w2 _ fs eq_refl He).
Defined.

(** X16. Every cell of a child of [crossover] is the cell at the same
    position of one of its parents: the first cell is always the first
    parent's and the last cell always the second parent's, a cell on which
    the parents agree is inherited, and crossing a grid with itself gives a
    new array with the same cells. *)
Theorem crossover_cells {Rng : NumpyRandom} (w w' : world)
    (parent1 parent2 child : ref) :
  let A := heap w !!! parent1 in
  let B := heap w !!! parent2 in
  let C := heap w' !!! child in
  length A = np_prod REACTOR_DIMENSIONS ->
  length B = np_prod REACTOR_DIMENSIONS ->
  crossover parent1 parent2 w = Ok (child, w') ->
  child = length (heap w) /\
  C !!! 0 = A !!! 0 /\ C !!! 26 = B !!! 26 /\
  (forall i, i < 27 -> C !!! i = A !!! i \/ C !!! i = B !!! i) /\
  (A = B -> C = A).
Proof.
  intros A B C HA HB Hc.
  rewrite (crossover_spec w parent1 parent2 HA HB) in Hc.
  pose proof (randint1_range 1 (Z.of_nat (np_prod REACTOR_DIMENSIONS))
                (np_random w)) as Hp.
  set (p := Z.to_nat
              (randint1 1 (Z.of_nat (np_prod REACTOR_DIMENSIONS))
                 (np_random w)).1) in *.
  assert (1 <= p <= 26) as Hrange.
  { unfold p. change (np_prod REACTOR_DIMENSIONS) with 27 in *. lia. }
  change (np_prod REACTOR_DIMENSIONS) with 27 in HA, HB.
  inversion Hc; subst child w'. clear Hc.
  assert (C = take p A ++ drop p B) as HC.
  { unfold C. cbn [heap]. by rewrite list_lookup_total_middle. }
  assert (forall i, i < p -> C !!! i = A !!! i) as Hleft.
  { intros i Hi. rewrite HC, lookup_total_app_l
      by (rewrite length_take; lia).
    rewrite lookup_total_take. by case_decide. }
  assert (forall i, p <= i -> C !!! i = B !!! i) as Hright.
  { intros i Hi. rewrite HC, lookup_total_app_r
      by (rewrite length_take; lia).
    rewrite length_take, lookup_total_drop. f_equal. lia. }
  split; [done |]. split; [apply Hleft; lia |].
  split; [apply Hright; lia |]. split.
  - intros i Hi. destruct (decide (i < p)); [left | right]; auto with lia.
  - intros Heq. rewrite HC, <- Heq. apply take_drop.
Qed.

Lemma crossover_cells_witness :
  exists child w',
    @crossover fixed_random 0 0 (@World fixed_random [np_zeros SIZE] ∅ 0 0)
      = Ok (child, w') /\
    child = 1 /\ heap w' !!! child = np_zeros SIZE.
Proof.
  exists 1. eexists. split; [reflexivity |].
  destruct (@crossover_cells fixed_random
              (@World fixed_random [np_zeros SIZE] ∅ 0 0) _ 0 0 1
              eq_refl eq_refl eq_refl) as (Hchild & _ & _ & _ & Hsame).
  split; [exact Hchild | exact (Hsame eq_refl)].
Defined.
